(** * qwertysh: a shallow embedding of [main.c] and its specification

    The interpreter is a read / tokenize / dispatch / wait loop written in C.
    The embedding follows the source function by function:

    - C objects that the program allocates (the line buffer, the token
      array) are arrays of cells, a cell being uninitialised until written;
      every access is bounds-checked and an access outside the allocation,
      or a read of an uninitialised cell, is undefined behaviour;
    - [int] variables are integers in [Z]; signed overflow is undefined
      behaviour;
    - the process environment (standard streams, working directory, errno)
      is a record threaded through a small outcome monad;
    - what the operating system decides (whether an allocation succeeds,
      whether [chdir], [fork] and [execvp] succeed, what [waitpid] reports,
      what a child leaves of the standard input it shares) is a parameter
      of the development. *)

From Stdlib Require Import ZArith Lia Ascii String.
From stdpp Require Import base option list strings.

Local Open Scope Z_scope.
Set Default Proof Using "Type".

(** ** C basics *)

Definition INT_MAX : Z := 2147483647.
Definition INT_MIN : Z := -2147483648.
Definition EOF : Z := -1.
Definition EXIT_SUCCESS : Z := 0.
Definition EXIT_FAILURE : Z := 1.

Definition NUL : ascii := ascii_of_N 0.
Definition ESC : ascii := ascii_of_N 27.

(** The value of a character as [getchar] returns it: an [unsigned char]
    converted to [int]. *)
Definition int_of_char (c : ascii) : Z := Z.of_N (N_of_ascii c).

(** The conversion [buffer[position] = c] applies to an [int]. *)
Definition char_of_int (c : Z) : ascii := ascii_of_N (Z.to_N (c mod 256)).

(** ** Memory: arrays of cells *)

(** [None] is a cell that was allocated and never written. *)
Abbreviation array A := (list (option A)) (only parsing).

(** A pointer into the line buffer: [char *]. *)
Inductive ptr : Type :=
  | NULL
  | At (off : nat).

(** ** The process environment *)

(** The contents of a C string, without its terminator. *)
Abbreviation cstr := (list ascii) (only parsing).
Definition str (s : string) : cstr := list_ascii_of_string s.

Record world : Type := World {
  w_stdin : list ascii;   (* what is left to read on standard input *)
  w_stdout : list cstr;   (* what was written, one entry per call *)
  w_stderr : list cstr;
  w_cwd : cstr;           (* the process working directory *)
  w_errno : Z;
  w_forks : nat           (* how many children were created *)
}.

(** How a computation ends. *)
Inductive outcome (A : Type) : Type :=
  | Ret (a : A) (w : world)      (* it returns [a] *)
  | Exited (code : Z) (w : world) (* the process called [exit code] *)
  | Replaced (w : world)         (* [execvp] replaced the process image *)
  | Blocked (w : world)          (* [waitpid] never reports a terminal state *)
  | Unfinished (w : world)       (* still running when the fuel ran out *)
  | Undefined.                   (* undefined behaviour *)

Arguments Ret {A} a w.
Arguments Exited {A} code w.
Arguments Replaced {A} w.
Arguments Blocked {A} w.
Arguments Unfinished {A} w.
Arguments Undefined {A}.

Definition M (A : Type) : Type := world → outcome A.

Definition ret {A} (a : A) : M A := fun w => Ret a w.

Definition bind {A B} (m : M A) (k : A → M B) : M B := fun w =>
  match m w with
  | Ret a w' => k a w'
  | Exited c w' => Exited c w'
  | Replaced w' => Replaced w'
  | Blocked w' => Blocked w'
  | Unfinished w' => Unfinished w'
  | Undefined => Undefined
  end.

Notation "'let*' x := m 'in' k" := (bind m (fun x => k))
  (at level 10, x name, m at level 100, k at level 200).
Notation "m ;; k" := (bind m (fun _ => k))
  (at level 100, k at level 200, right associativity).

Definition undefined {A} : M A := fun _ => Undefined.
Definition exit {A} (code : Z) : M A := fun w => Exited code w.

(** [int] addition; overflow is undefined behaviour. *)
Definition int_add (a b : Z) : M Z :=
  if (INT_MIN <=? a + b) && (a + b <=? INT_MAX) then ret (a + b) else undefined.

(** [a[i]] read and [a[i] = x]. *)
Definition load {A} (a : array A) (i : Z) : M A :=
  if 0 <=? i then
    match a !! Z.to_nat i with
    | Some (Some x) => ret x
    | _ => undefined
    end
  else undefined.

Definition store {A} (a : array A) (i : Z) (x : A) : M (array A) :=
  if (0 <=? i) && (i <? Z.of_nat (length a)) then
    ret (<[Z.to_nat i := Some x]> a)
  else undefined.

(** ** Standard streams *)

Definition printf (s : cstr) : M unit := fun w =>
  Ret tt (World (w_stdin w) (w_stdout w ++ [s]) (w_stderr w)
                (w_cwd w) (w_errno w) (w_forks w)).

Definition fprintf_stderr (s : cstr) : M unit := fun w =>
  Ret tt (World (w_stdin w) (w_stdout w) (w_stderr w ++ [s])
                (w_cwd w) (w_errno w) (w_forks w)).

Definition getchar : M Z := fun w =>
  match w_stdin w with
  | [] => Ret EOF w
  | c :: rest =>
      Ret (int_of_char c)
          (World rest (w_stdout w) (w_stderr w)
                 (w_cwd w) (w_errno w) (w_forks w))
  end.

(** A line feed, and a message followed by one. *)
Definition LF : ascii := ascii_of_N 10.
Definition msg (s : string) : cstr := str s ++ [LF].

(** ** The C library's string functions

    [strtok], [strspn], [strcspn] and [strcmp] belong to the C library, not
    to the program; they are modelled after the C standard (7.24). *)

(** The string that starts at the head of [l]: the characters up to the
    first terminator.  There is none when the terminator is missing from
    the allocation, or when an uninitialised cell comes first. *)
Fixpoint cstring (l : array ascii) : option cstr :=
  match l with
  | Some c :: l' =>
      if Ascii.eqb c NUL then Some [] else cons c <$> cstring l'
  | _ => None
  end.

Definition string_at (m : array ascii) (p : nat) : option cstr :=
  cstring (drop p m).

Definition is_delim (delim : cstr) (c : ascii) : bool :=
  existsb (Ascii.eqb c) delim.

(** Length of the longest prefix made of characters of [delim]. *)
Fixpoint strspn (s delim : cstr) : nat :=
  match s with
  | c :: s' => if is_delim delim c then S (strspn s' delim) else O
  | [] => O
  end.

(** Length of the longest prefix free of characters of [delim]. *)
Fixpoint strcspn (s delim : cstr) : nat :=
  match s with
  | c :: s' => if is_delim delim c then O else S (strcspn s' delim)
  | [] => O
  end.

(** [strtok s delim], with its hidden static pointer [save] made explicit.
    It starts at [s], or at [save] when [s] is null; it skips the delimiters;
    at the end of the string it returns null; otherwise the token runs up to
    the next delimiter, which is overwritten by a terminator, or up to the
    end of the string.  The result is the token, the memory and the new
    value of the static pointer. *)
Definition strtok (m : array ascii) (s : ptr) (save : nat) (delim : cstr)
    : option (ptr * array ascii * nat) :=
  let start := match s with NULL => save | At p => p end in
  match string_at m start with
  | None => None
  | Some text =>
      let b := (start + strspn text delim)%nat in
      let rest := drop (strspn text delim) text in
      match rest with
      | [] => Some (NULL, m, b)
      | _ :: _ =>
          let e := (b + strcspn rest delim)%nat in
          if (strcspn rest delim <? length rest)%nat then
            Some (At b, <[e := Some NUL]> m, S e)
          else
            Some (At b, m, e)
      end
  end.

(** [strcmp]: the difference of the first two characters that differ, as
    [unsigned char], the end of a string counting as the terminator. *)
Fixpoint strcmp (s t : cstr) : Z :=
  match s, t with
  | [], [] => 0
  | [], b :: _ => 0 - int_of_char b
  | a :: _, [] => int_of_char a
  | a :: s', b :: t' =>
      if Ascii.eqb a b then strcmp s' t' else int_of_char a - int_of_char b
  end.

(** ** Wait statuses

    The macros of [<sys/wait.h>], as glibc defines them on the status word
    that [waitpid] fills in. *)
Definition WTERMSIG (status : Z) : Z := Z.land status 127.
Definition WIFEXITED (status : Z) : bool := WTERMSIG status =? 0.
Definition WIFSIGNALED (status : Z) : bool :=
  let x := WTERMSIG status + 1 in
  let signed_char := if 128 <=? x then x - 256 else x in
  0 <? Z.shiftr signed_char 1.

(** The status word of a child that called [exit code], of one that a
    signal killed, and of one that a signal stopped. *)
Definition W_EXITCODE (code : Z) : Z := Z.shiftl (Z.land code 255) 8.
Definition W_TERMSIG (sig : Z) : Z := sig.
Definition W_STOPCODE (sig : Z) : Z := Z.lor (Z.shiftl sig 8) 127.

(** What [fork] answers: it fails, or it returns 0 in the child, or it
    returns the child's identifier in the parent; [reports] are the status
    words that the calls of [waitpid] on that child will then fill in, in
    order.  Every call of [waitpid] is taken to succeed: the program does
    not look at what it returns.

    The child shares the standard input with the interpreter: the program
    it runs may read from it, and a child that ends with [exit] may move
    the position of the stream.  [input] is what is left to read on the
    standard input once the child has ended. *)
Inductive forked : Type :=
  | ForkFailed (errno : Z)
  | InChild
  | InParent (pid : positive) (reports : list Z) (input : list ascii).

(** The value of an [int] function call: a function whose body reaches its
    closing brace without a [return] yields no value. *)
Inductive retval : Type :=
  | Value (v : Z)
  | NoValue.

Section Shell.

(** ** What the operating system decides *)

(** Whether a request for that many bytes succeeds. *)
Variable heap_ok : Z → bool.

(** The message of an error number. *)
Variable strerror : Z → cstr.

(** [chdir path]: the new working directory, or an error number. *)
Variable sys_chdir : world → cstr → cstr + Z.

Variable sys_fork : world → forked.

(** [execvp file argv]: an error number when it fails; when it succeeds it
    does not return. *)
Variable sys_execvp : world → cstr → list cstr → option Z.

Definition set_errno (e : Z) : M unit := fun w =>
  Ret tt (World (w_stdin w) (w_stdout w) (w_stderr w)
                (w_cwd w) e (w_forks w)).

Definition perror (s : cstr) : M unit := fun w =>
  fprintf_stderr (s ++ str ": " ++ strerror (w_errno w) ++ [LF]) w.

(** A failed [chdir] changes nothing but [errno]. *)
Definition chdir (path : cstr) : M Z := fun w =>
  match sys_chdir w path with
  | inl dir =>
      Ret 0 (World (w_stdin w) (w_stdout w) (w_stderr w)
                   dir (w_errno w) (w_forks w))
  | inr e => (set_errno e ;; ret (-1)) w
  end.

Definition fork : M forked := fun w =>
  match sys_fork w with
  | ForkFailed e => (set_errno e ;; ret (ForkFailed e)) w
  | InChild => Ret InChild w
  | InParent pid reports input =>
      Ret (InParent pid reports input)
          (World (w_stdin w) (w_stdout w) (w_stderr w)
                 (w_cwd w) (w_errno w) (S (w_forks w)))
  end.

Definition pid_of (f : forked) : Z :=
  match f with
  | ForkFailed _ => -1
  | InChild => 0
  | InParent pid _ _ => Z.pos pid
  end.

Definition reports_of (f : forked) : list Z :=
  match f with
  | InParent _ reports _ => reports
  | _ => []
  end.

Definition input_of (f : forked) : list ascii :=
  match f with
  | InParent _ _ input => input
  | _ => []
  end.

(** [malloc] of [count] cells: they start uninitialised. *)
Definition malloc {A} (count bytes : Z) : option (array A) :=
  if heap_ok bytes then Some (replicate (Z.to_nat count) None) else None.

(** [realloc] to [count] cells: the old contents are kept, the new cells
    are uninitialised. *)
Definition realloc {A} (a : array A) (count bytes : Z) : option (array A) :=
  if heap_ok bytes then
    Some (take (Z.to_nat count) a
            ++ replicate (Z.to_nat count - length a)%nat None)
  else None.

(** ** Line Reader: [qwertysh_read_line] *)

Definition qwertysh_RL_BUFSIZE : Z := 1024.

Fixpoint read_line_loop (fuel : nat)
    (buffer : array ascii) (position bufsize : Z) : M (array ascii) :=
  match fuel with
  | O => fun w => Unfinished w
  | S fuel =>
      let* c := getchar in
      if (c =? EOF) || (c =? int_of_char LF) then
        let* buffer := store buffer position NUL in
        ret buffer
      else
        let* buffer := store buffer position (char_of_int c) in
        let* position := int_add position 1 in
        if position >=? bufsize then
          let* bufsize := int_add bufsize qwertysh_RL_BUFSIZE in
          match realloc buffer bufsize bufsize with
          | None =>
              fprintf_stderr (msg "qwertysh: allocation error") ;;
              exit EXIT_FAILURE
          | Some buffer => read_line_loop fuel buffer position bufsize
          end
        else read_line_loop fuel buffer position bufsize
  end.

(** The loop reads one character per turn, so one turn more than there are
    characters left on the input is enough fuel. *)
Definition qwertysh_read_line : M (array ascii) := fun w =>
  let bufsize := qwertysh_RL_BUFSIZE in
  let position := 0 in
  match malloc bufsize (1 * bufsize) with
  | None =>
      (fprintf_stderr (msg "qwertysh: allocation error") ;;
       exit EXIT_FAILURE) w
  | Some buffer =>
      read_line_loop (S (length (w_stdin w))) buffer position bufsize w
  end.

(** ** Tokenizer: [qwertysh_split_line] *)

Definition qwertysh_TOK_BUFSIZE : Z := 64.

(** [" \t\r\n\a"] *)
Definition qwertysh_TOK_DELIM : cstr :=
  [ascii_of_N 32; ascii_of_N 9; ascii_of_N 13; ascii_of_N 10; ascii_of_N 7].

Definition sizeof_ptr : Z := 8.

(** [char **args]: the token array, with the line buffer its entries point
    into. *)
Record argv : Type := Argv {
  a_tokens : array ptr;
  a_line : array ascii
}.

Definition lift {A} (o : option A) : M A :=
  match o with
  | Some a => ret a
  | None => undefined
  end.

(** The [while (token != NULL)] loop.  [save] is the static pointer of
    [strtok]. *)
Fixpoint split_line_loop (fuel : nat) (token : ptr)
    (tokens : array ptr) (position bufsize : Z)
    (line : array ascii) (save : nat) : M (array ptr * Z * array ascii) :=
  match token with
  | NULL => ret (tokens, position, line)
  | At _ =>
      match fuel with
      | O => fun w => Unfinished w
      | S fuel =>
          let next (tokens : array ptr) (position bufsize : Z) :=
            let* r := lift (strtok line NULL save qwertysh_TOK_DELIM) in
            match r with
            | (token, line, save) =>
                split_line_loop fuel token tokens position bufsize line save
            end in
          let* tokens := store tokens position token in
          let* position := int_add position 1 in
          if position >=? bufsize then
            let* bufsize := int_add bufsize qwertysh_TOK_BUFSIZE in
            match realloc tokens bufsize (bufsize * sizeof_ptr) with
            | None =>
                (* free(tokens_backup) *)
                fprintf_stderr (msg "qwertysh: allocation error") ;;
                exit EXIT_FAILURE
            | Some tokens => next tokens position bufsize
            end
          else next tokens position bufsize
      end
  end.

(** Every turn of the loop stores a token that holds at least one character
    of the line, so the length of the line is enough fuel. *)
Definition qwertysh_split_line (line : array ascii) : M argv :=
  let bufsize := qwertysh_TOK_BUFSIZE in
  let position := 0 in
  match malloc bufsize (bufsize * sizeof_ptr) with
  | None =>
      fprintf_stderr (msg "qwertysh: allocation error") ;;
      exit EXIT_FAILURE
  | Some tokens =>
      let* r := lift (strtok line (At 0) 0 qwertysh_TOK_DELIM) in
      match r with
      | (token, line, save) =>
          let* r := split_line_loop (length line) token tokens
                      position bufsize line save in
          match r with
          | (tokens, position, line) =>
              let* tokens := store tokens position NULL in
              ret (Argv tokens line)
          end
      end
  end.

(** The token list an [argv] holds: the strings its entries point to, up
    to the null sentinel.  There is none when the sentinel is missing or an
    entry is not a string. *)
Fixpoint read_tokens (tokens : array ptr) (line : array ascii)
    : option (list cstr) :=
  match tokens with
  | Some NULL :: _ => Some []
  | Some (At p) :: tokens' =>
      match string_at line p, read_tokens tokens' line with
      | Some t, Some ts => Some (t :: ts)
      | _, _ => None
      end
  | _ => None
  end.

Definition token_list (args : argv) : option (list cstr) :=
  read_tokens (a_tokens args) (a_line args).

(** [execvp(args[0], args)] *)
Definition execvp (args : argv) : M Z :=
  let* file := load (a_tokens args) 0 in
  match file with
  | NULL => undefined
  | At p =>
      let* file := lift (string_at (a_line args) p) in
      let* vector := lift (token_list args) in
      fun w =>
        match sys_execvp w file vector with
        | None => Replaced w
        | Some e => (set_errno e ;; ret (-1)) w
        end
  end.

(** ** Built-ins *)

Definition builtin_str : list cstr :=
  [str "cd"; str "help"; str "exit"; str "cls"].

Definition qwertysh_num_builtins : Z := Z.of_nat (length builtin_str).

Definition qwertysh_cd (args : argv) : M retval :=
  let* dir := load (a_tokens args) 1 in
  match dir with
  | NULL =>
      fprintf_stderr
        (str "qwertysh: expected argument to " ++ [ascii_of_N 34]
           ++ str "cd" ++ [ascii_of_N 34; LF]) ;;
      ret (Value 1)
  | At p =>
      let* path := lift (string_at (a_line args) p) in
      let* r := chdir path in
      (if negb (r =? 0) then perror (str "qwertysh") else ret tt) ;;
      ret (Value 1)
  end.

Fixpoint for_each {A} (l : list A) (body : A → M unit) : M unit :=
  match l with
  | [] => ret tt
  | x :: l => body x ;; for_each l body
  end.

Definition qwertysh_help (args : argv) : M retval :=
  printf (msg "Corey Kennedy's qwertysh") ;;
  printf (msg "Type program names and arguments, and hit enter.") ;;
  printf (msg "The following are built in:") ;;
  for_each (seq 0 (Z.to_nat qwertysh_num_builtins)) (fun i =>
    let* name := lift (builtin_str !! i) in
    printf (str "  " ++ name ++ [LF])) ;;
  printf (msg "Use the man command for information on other programs.") ;;
  ret (Value 1).

Definition qwertysh_exit (args : argv) : M retval :=
  ret (Value 0).

(** The body ends after the [printf]: there is no [return]. *)
Definition qwertysh_cls (args : argv) : M retval :=
  printf (ESC :: str "[2J") ;;
  ret NoValue.

Definition builtin_func : list (argv → M retval) :=
  [qwertysh_cd; qwertysh_help; qwertysh_exit; qwertysh_cls].

(** ** Launcher: [qwertysh_launch] *)

(** [do { waitpid(pid, &status, WUNTRACED); }
     while (!WIFEXITED(status) && !WIFSIGNALED(status));]
    The report that ends the loop says that the child has ended: the
    standard input is then as the child left it. *)
Fixpoint wait_loop (reports : list Z) (input : list ascii) : M Z :=
  match reports with
  | [] => fun w => Blocked w
  | status :: reports =>
      if negb (WIFEXITED status) && negb (WIFSIGNALED status) then
        wait_loop reports input
      else fun w =>
        Ret status (World input (w_stdout w) (w_stderr w)
                          (w_cwd w) (w_errno w) (w_forks w))
  end.

Definition qwertysh_launch (args : argv) : M retval :=
  let* f := fork in
  let pid := pid_of f in
  if pid =? 0 then
    (* Child process *)
    let* r := execvp args in
    (if r =? -1 then perror (str "qwertysh") else ret tt) ;;
    exit EXIT_FAILURE
  else if pid <? 0 then
    (* Error forking *)
    perror (str "qwertysh") ;;
    ret (Value 1)
  else
    (* Parent process *)
    wait_loop (reports_of f) (input_of f) ;;
    ret (Value 1).

(** ** Dispatcher: [qwertysh_execute] *)

(** The [for] loop over the table, from index [i] on. *)
Fixpoint execute_scan (indices : list nat) (args : argv) (p : nat)
    : M retval :=
  match indices with
  | [] => qwertysh_launch args
  | i :: indices =>
      let* arg0 := lift (string_at (a_line args) p) in
      let* name := lift (builtin_str !! i) in
      if strcmp arg0 name =? 0 then
        let* f := lift (builtin_func !! i) in
        f args
      else execute_scan indices args p
  end.

Definition qwertysh_execute (args : argv) : M retval :=
  let* arg0 := load (a_tokens args) 0 in
  match arg0 with
  | NULL =>
      (* An empty command was entered. *)
      ret (Value 1)
  | At p => execute_scan (seq 0 (Z.to_nat qwertysh_num_builtins)) args p
  end.

(** ** Main Loop: [qwertysh_loop] *)

(** One turn of the [do ... while (status)] loop, up to the test. *)
Definition loop_body : M retval :=
  printf (str "QWERTYSH> ") ;;
  let* line := qwertysh_read_line in
  let* args := qwertysh_split_line line in
  let* status := qwertysh_execute args in
  (* free(line); free(args); *)
  ret status.

(** The test [while (status)] reads the value that [qwertysh_execute]
    returned; when there is none the behaviour is undefined. *)
Fixpoint qwertysh_loop (fuel : nat) : M unit :=
  match fuel with
  | O => fun w => Unfinished w
  | S fuel =>
      let* status := loop_body in
      match status with
      | NoValue => undefined
      | Value v => if negb (v =? 0) then qwertysh_loop fuel else ret tt
      end
  end.

Definition main (fuel : nat) : M Z :=
  printf (ESC :: str "[2J") ;;
  qwertysh_loop fuel ;;
  ret EXIT_SUCCESS.

(** ** Sample environments

    Concrete answers of the operating system, and concrete arguments, on
    which the properties below are instantiated. *)

Definition heap_unlimited : Z → bool := fun _ => true.
Definition plain_strerror : Z → cstr := fun _ => str "No such file or directory".
Definition chdir_refused : world → cstr → cstr + Z := fun _ _ => inr 2.
Definition fork_refused : world → forked := fun _ => ForkFailed 11.
Definition execvp_refused : world → cstr → list cstr → option Z :=
  fun _ _ _ => Some 2.

(** The child is stopped once, then exits with the failure status; it
    leaves the standard input as it was. *)
Definition fork_then_exit : world → forked :=
  fun w => InParent 2 [W_STOPCODE 19; W_EXITCODE EXIT_FAILURE] (w_stdin w).

(** The child exits with the failure status and moves the position of the
    standard input back: what was left to read is there twice. *)
Definition fork_then_rewind : world → forked :=
  fun w => InParent 2 [W_EXITCODE EXIT_FAILURE] (w_stdin w ++ w_stdin w).

(** The buffer of 1024 cells that holds a short line. *)
Definition buffer_of (text : cstr) : array ascii :=
  (Some <$> text) ++ Some NUL :: replicate (1023 - length text) None.

(** A token list laid out in memory: the strings one after the other in a
    line buffer, and the array of pointers to them with its sentinel. *)
Fixpoint layout (off : nat) (ts : list cstr) : list ptr * array ascii :=
  match ts with
  | [] => ([NULL], [])
  | t :: ts =>
      match layout (off + S (length t)) ts with
      | (ps, m) => (At off :: ps, (Some <$> t) ++ Some NUL :: m)
      end
  end.

Definition argv_of (ts : list cstr) : argv :=
  match layout 0 ts with
  | (ps, m) => Argv (Some <$> ps) m
  end.

Definition world_reading (input : cstr) : world :=
  World input [] [] (str "/") 0 0.

(** ** The tokens of a line, as the specification words them

    The line is cut at every delimiter; the tokens are the pieces that are
    not empty, in the order of the line.  [qwertysh_split_line] is compared
    with this definition below. *)
Fixpoint pieces (delim s : cstr) : list cstr :=
  match s with
  | [] => [[]]
  | c :: s' =>
      if is_delim delim c then [] :: pieces delim s'
      else match pieces delim s' with
           | piece :: others => (c :: piece) :: others
           | [] => [[c]]
           end
  end.

Definition tokens_of (delim s : cstr) : list cstr :=
  filter (λ piece, piece ≠ []) (pieces delim s).

(** ** The vocabulary of the properties *)

(** A buffer of [cap] cells whose first cells hold [text]; the others were
    never written. *)
Definition filled {A} (text : list A) (cap : Z) : array A :=
  (Some <$> text) ++ replicate (Z.to_nat cap - length text)%nat None.

(** The capacity of the line buffer once [n] characters are stored. *)
Definition capacity (n : nat) : Z :=
  qwertysh_RL_BUFSIZE * (Z.of_nat n / qwertysh_RL_BUFSIZE + 1).

(** The capacity of the token array once [n] tokens are stored. *)
Definition token_capacity (n : nat) : Z :=
  qwertysh_TOK_BUFSIZE * (Z.of_nat n / qwertysh_TOK_BUFSIZE + 1).

(** The environment once the input is [input], and once the prompt is
    written. *)
Definition with_stdin (w : world) (input : list ascii) : world :=
  World input (w_stdout w) (w_stderr w) (w_cwd w) (w_errno w) (w_forks w).

Definition prompted (w : world) : world :=
  World (w_stdin w) (w_stdout w ++ [str "QWERTYSH> "]) (w_stderr w)
        (w_cwd w) (w_errno w) (w_forks w).

(** The child that the interpreter waits for reaches a terminal state: one
    of the reports says it exited or was killed by a signal. *)
Definition child_ends (reports : list Z) : Prop :=
  Exists (fun status => WIFEXITED status = true ∨ WIFSIGNALED status = true)
         reports.

(** In the interpreter, [fork] failed or the child has ended. *)
Definition launch_settles (f : forked) : Prop :=
  match f with
  | ForkFailed _ => True
  | InChild => False
  | InParent _ reports _ => child_ends reports
  end.

(** [cd] cannot change the directory: no argument, or [chdir] fails. *)
Definition cd_fails (args : argv) (w : world) : Prop :=
  a_tokens args !! 1%nat = Some (Some NULL)
  ∨ ∃ p path e,
      a_tokens args !! 1%nat = Some (Some (At p))
      ∧ string_at (a_line args) p = Some path
      ∧ sys_chdir w path = inr e.

(** What the loop of the Tokenizer knows about the token [strtok] returned
    last: it is null and no token is left, or it is the first of the
    tokens left, the static pointer being on a string that holds the
    others. *)
Definition pending (token : ptr) (m : array ascii) (save : nat)
    (remaining : list cstr) (fuel : nat) : Prop :=
  match token with
  | NULL => remaining = []
  | At b =>
      ∃ t ts rest,
        remaining = t :: ts
        ∧ string_at m b = Some t
        ∧ (b + length t ≤ save)%nat
        ∧ string_at m save = Some rest
        ∧ tokens_of qwertysh_TOK_DELIM rest = ts
        ∧ (length rest < fuel)%nat
  end.

(** A line written from its tokens, each followed by its separator, and
    what makes it well formed: the tokens are not empty and hold no
    delimiter, the separators hold delimiters only, and only the last
    separator may be empty. *)
Fixpoint spaced (pairs : list (list ascii * list ascii)) : list ascii :=
  match pairs with
  | [] => []
  | (t, sep) :: pairs => t ++ sep ++ spaced pairs
  end.

Fixpoint well_spaced (delim : list ascii)
    (pairs : list (list ascii * list ascii)) : Prop :=
  match pairs with
  | [] => True
  | (t, sep) :: pairs =>
      t ≠ []
      ∧ Forall (λ c, c ∉ delim) t
      ∧ Forall (λ c, c ∈ delim) sep
      ∧ (sep = [] → pairs = [])
      ∧ well_spaced delim pairs
  end.

(** The line buffer [m'] is [m] where some delimiters were overwritten by
    terminators, and nothing else was written. *)
Definition cut_at_delims (delim : list ascii)
    (m m' : list (option ascii)) : Prop :=
  length m' = length m
  ∧ ∀ i, m' !! i = m !! i
         ∨ (m' !! i = Some (Some NUL)
            ∧ ∃ c, m !! i = Some (Some c) ∧ c ∈ delim).

(** The environment once the screen was cleared. *)
Definition cleared (w : world) : world :=
  World (w_stdin w) (w_stdout w ++ [ESC :: str "[2J"]) (w_stderr w)
        (w_cwd w) (w_errno w) (w_forks w).

(** More sample answers of the operating system: an allocator that refuses
    2048 bytes and more, one that refuses more than 2048 bytes, a [chdir]
    that accepts every path, a [fork] seen from the child. *)
Definition heap_below_2048 : Z → bool := fun n => n <? 2048.
Definition heap_up_to_2048 : Z → bool := fun n => n <=? 2048.
Definition chdir_accepted : world → list ascii → list ascii + Z :=
  fun _ path => inl path.
Definition fork_in_child : world → forked := fun _ => InChild.

(** * Properties *)

(** ** Memory *)

Lemma load_lookup {A} (a : array A) i x w :
  0 <= i → a !! Z.to_nat i = Some (Some x) → load a i w = Ret x w.
Proof.
  intros Hi H. unfold load.
  destruct (0 <=? i) eqn:E; [|apply Z.leb_gt in E; lia].
  rewrite H. reflexivity.
Qed.

Lemma store_inside {A} (a : array A) i x w :
  0 <= i < Z.of_nat (length a) →
  store a i x w = Ret (<[Z.to_nat i := Some x]> a) w.
Proof.
  intros Hi. unfold store.
  destruct (0 <=? i) eqn:E1; [|apply Z.leb_gt in E1; lia].
  destruct (i <? Z.of_nat (length a)) eqn:E2; [|apply Z.ltb_ge in E2; lia].
  reflexivity.
Qed.

(** ** Wait statuses *)

Lemma WTERMSIG_range status : 0 <= WTERMSIG status < 128.
Proof.
  unfold WTERMSIG. change 127 with (Z.ones 7).
  rewrite Z.land_ones by lia. apply Z.mod_pos_bound. lia.
Qed.

Lemma WIFEXITED_exit code : WIFEXITED (W_EXITCODE code) = true.
Proof.
  unfold WIFEXITED, WTERMSIG, W_EXITCODE.
  apply Z.eqb_eq. change 127 with (Z.ones 7).
  rewrite Z.land_ones, Z.shiftl_mul_pow2 by lia.
  change (2 ^ 8) with (2 * 2 ^ 7).
  rewrite Z.mul_assoc. apply Z_mod_mult.
Qed.

Lemma WIFSIGNALED_signal sig :
  1 <= sig <= 126 → WIFSIGNALED (W_TERMSIG sig) = true.
Proof.
  intros Hsig. unfold WIFSIGNALED, WTERMSIG, W_TERMSIG.
  change 127 with (Z.ones 7). rewrite Z.land_ones by lia.
  rewrite Z.mod_small by lia.
  destruct (128 <=? sig + 1) eqn:E; [apply Z.leb_le in E; lia|].
  apply Z.ltb_lt. rewrite Z.shiftr_div_pow2 by lia.
  change (2 ^ 1) with 2. apply Z.div_str_pos. lia.
Qed.

Lemma W_STOPCODE_not_terminal sig :
  0 <= sig → WIFEXITED (W_STOPCODE sig) = false
             ∧ WIFSIGNALED (W_STOPCODE sig) = false.
Proof.
  intros Hsig.
  assert (H : WTERMSIG (W_STOPCODE sig) = 127).
  { unfold WTERMSIG, W_STOPCODE.
    rewrite Z.land_lor_distr_l.
    change 127 with (Z.ones 7) at 1 3.
    rewrite Z.land_ones, Z.shiftl_mul_pow2 by lia.
    change (2 ^ 8) with (2 * 2 ^ 7).
    rewrite Z.mul_assoc, Z_mod_mult. reflexivity. }
  unfold WIFEXITED, WIFSIGNALED. rewrite H. split; reflexivity.
Qed.

(** ** Launcher *)

Lemma wait_loop_ends reports input w :
  child_ends reports →
  ∃ status, wait_loop reports input w = Ret status (with_stdin w input).
Proof.
  induction 1 as [status reports [H|H] | status reports _ IH]; simpl.
  - rewrite H. simpl. eauto.
  - rewrite H. rewrite andb_false_r. eauto.
  - destruct (negb (WIFEXITED status) && negb (WIFSIGNALED status)); eauto.
Qed.

Lemma wait_loop_world reports input w status w' :
  wait_loop reports input w = Ret status w' → w' = with_stdin w input.
Proof.
  induction reports as [|st reports IH]; simpl; [discriminate|].
  destruct (negb (WIFEXITED st) && negb (WIFSIGNALED st)); [exact IH|].
  intros [= _ <-]. reflexivity.
Qed.

(** C3.  In the interpreter, whenever [fork] fails or the child that was
    created ends (it exits, with any status, also the failure status of a
    child whose [execvp] failed, or a signal kills it), the Launcher
    returns the continue signal 1, whatever the token list. *)
Theorem launch_always_continues args w :
  launch_settles (sys_fork w) →
  ∃ w', qwertysh_launch args w = Ret (Value 1) w'.
Proof.
  unfold launch_settles, qwertysh_launch, bind, fork.
  destruct (sys_fork w) as [e| |pid reports input]; simpl.
  - intros _. eexists. reflexivity.
  - intros [].
  - intros Hends.
    match goal with |- context [wait_loop reports input ?w1] =>
      destruct (wait_loop_ends reports input w1 Hends) as [status Hw] end.
    rewrite Hw. eexists. reflexivity.
Qed.

(** The Launcher returns no other value, in the parent or in the child. *)
Lemma launch_returns_only_continue args w v w' :
  qwertysh_launch args w = Ret v w' → v = Value 1.
Proof.
  unfold qwertysh_launch, bind, fork.
  destruct (sys_fork w) as [e| |pid reports input]; simpl.
  - unfold ret. congruence.
  - destruct (execvp args w) as [r w1| | | | |]; try discriminate.
    destruct (r =? -1); simpl; discriminate.
  - match goal with |- context [wait_loop reports input ?w1] =>
      destruct (wait_loop reports input w1) end; try discriminate.
    unfold ret. congruence.
Qed.

(** In the child, a failed [execvp] is reported and the child exits with
    the failure status: the Launcher does not return there. *)
Lemma launch_child_exec_fails args w p file vector e :
  sys_fork w = InChild →
  a_tokens args !! 0%nat = Some (Some (At p)) →
  string_at (a_line args) p = Some file →
  token_list args = Some vector →
  sys_execvp w file vector = Some e →
  ∃ w', qwertysh_launch args w = Exited EXIT_FAILURE w'
        ∧ w_stderr w' = w_stderr w
                          ++ [str "qwertysh" ++ str ": " ++ strerror e ++ [LF]].
Proof.
  intros Hf H0 Hs Ht He.
  unfold qwertysh_launch, bind, fork. rewrite Hf. simpl.
  unfold execvp, bind. rewrite (load_lookup _ 0 (At p)) by (done || lia).
  rewrite Hs, Ht. simpl. rewrite He. simpl.
  eexists. split; reflexivity.
Qed.

(** ** Built-ins *)

(** C6.  When [cd] has no directory argument, and when the change of
    directory fails, [cd] returns the continue signal 1 and the working
    directory is unchanged.  It reports the error: without an argument it
    writes its own message to the error stream, and nothing else changes;
    after a failed [chdir] it writes what [perror] makes of the error
    number that [chdir] left in [errno].  A turn of the Main Loop that
    ends with this call is followed by another turn. *)
Theorem cd_failure_keeps_directory args w :
  cd_fails args w →
  ∃ w',
    qwertysh_cd args w = Ret (Value 1) w'
    ∧ w_cwd w' = w_cwd w
    ∧ ((a_tokens args !! 1%nat = Some (Some NULL)
        ∧ w' = World (w_stdin w) (w_stdout w)
                 (w_stderr w
                    ++ [str "qwertysh: expected argument to "
                          ++ [ascii_of_N 34] ++ str "cd"
                          ++ [ascii_of_N 34; LF]])
                 (w_cwd w) (w_errno w) (w_forks w))
       ∨ (∃ p path e,
            a_tokens args !! 1%nat = Some (Some (At p))
            ∧ string_at (a_line args) p = Some path
            ∧ sys_chdir w path = inr e
            ∧ w' = World (w_stdin w) (w_stdout w)
                     (w_stderr w ++ [str "qwertysh: " ++ strerror e ++ [LF]])
                     (w_cwd w) e (w_forks w)))
    ∧ ∀ fuel w0,
        loop_body w0 = qwertysh_cd args w →
        qwertysh_loop (S fuel) w0 = qwertysh_loop fuel w'.
Proof.
  intros Hfails.
  assert (Hturn : ∀ w', qwertysh_cd args w = Ret (Value 1) w' →
            ∀ fuel w0, loop_body w0 = qwertysh_cd args w →
                       qwertysh_loop (S fuel) w0 = qwertysh_loop fuel w').
  { intros w' Hcd fuel w0 Hbody. simpl. unfold bind at 1.
    rewrite Hbody, Hcd. reflexivity. }
  destruct Hfails as [H1 | (p & path & e & H1 & Hs & Hc)].
  - assert (Hcd : qwertysh_cd args w
                  = Ret (Value 1)
                      (World (w_stdin w) (w_stdout w)
                         (w_stderr w
                            ++ [str "qwertysh: expected argument to "
                                  ++ [ascii_of_N 34] ++ str "cd"
                                  ++ [ascii_of_N 34; LF]])
                         (w_cwd w) (w_errno w) (w_forks w))).
    { unfold qwertysh_cd, bind.
      rewrite (load_lookup _ 1 NULL) by (done || lia). reflexivity. }
    eexists. split; [exact Hcd|]. split; [reflexivity|].
    split; [left; split; [exact H1|reflexivity]|].
    apply Hturn, Hcd.
  - assert (Hcd : qwertysh_cd args w
                  = Ret (Value 1)
                      (World (w_stdin w) (w_stdout w)
                         (w_stderr w
                            ++ [str "qwertysh: " ++ strerror e ++ [LF]])
                         (w_cwd w) e (w_forks w))).
    { unfold qwertysh_cd, bind.
      rewrite (load_lookup _ 1 (At p)) by (done || lia).
      rewrite Hs. simpl. unfold chdir. rewrite Hc. reflexivity. }
    eexists. split; [exact Hcd|]. split; [reflexivity|].
    split; [right; exists p, path, e; auto|].
    apply Hturn, Hcd.
Qed.

(** [cd] returns 1 whenever it returns. *)
Lemma cd_returns_only_continue args w v w' :
  qwertysh_cd args w = Ret v w' → v = Value 1.
Proof.
  unfold qwertysh_cd, bind.
  destruct (load (a_tokens args) 1 w) as [[|p] w1| | | | |];
    try discriminate; simpl.
  - unfold ret. congruence.
  - destruct (lift (string_at (a_line args) p) w1) as [path w2| | | | |];
      try discriminate.
    unfold chdir. destruct (sys_chdir w2 path); simpl; unfold ret; congruence.
Qed.

Lemma help_returns_only_continue args w v w' :
  qwertysh_help args w = Ret v w' → v = Value 1.
Proof. vm_compute. congruence. Qed.

(** [exit] does not look at its arguments and returns the stop signal. *)
Lemma exit_stops args w : qwertysh_exit args w = Ret (Value 0) w.
Proof. reflexivity. Qed.

(** C9.  What the code does: on every token list [cls] writes the
    clear-screen sequence and reaches the end of its body, so it returns no
    value at all, and in particular no value that is not zero. *)
Theorem cls_returns_no_value args w :
  qwertysh_cls args w
  = Ret NoValue
        (World (w_stdin w) (w_stdout w ++ [ESC :: str "[2J"]) (w_stderr w)
               (w_cwd w) (w_errno w) (w_forks w))
  ∧ ∀ v w', qwertysh_cls args w ≠ Ret (Value v) w'.
Proof.
  split.
  - reflexivity.
  - intros v w' H. unfold qwertysh_cls, bind, printf, ret in H.
    discriminate H.
Qed.

(** ** Strings *)

Lemma int_of_char_inj a b : int_of_char a = int_of_char b → a = b.
Proof.
  unfold int_of_char. intros H. apply N2Z.inj in H.
  rewrite <- (ascii_N_embedding a), <- (ascii_N_embedding b). congruence.
Qed.

Lemma int_of_char_range a : 0 <= int_of_char a < 256.
Proof.
  unfold int_of_char. pose proof (N_ascii_bounded a). lia.
Qed.

Lemma int_of_char_NUL a : int_of_char a = 0 → a = NUL.
Proof. intros H. apply int_of_char_inj. exact H. Qed.

Lemma char_of_int_of_char a : char_of_int (int_of_char a) = a.
Proof.
  unfold char_of_int. pose proof (int_of_char_range a).
  rewrite Z.mod_small by lia. unfold int_of_char.
  rewrite N2Z.id. apply ascii_N_embedding.
Qed.

Lemma ascii_eqb_false a b : Ascii.eqb a b = false ↔ a ≠ b.
Proof.
  destruct (Ascii.eqb_spec a b); split; congruence.
Qed.

Lemma cstring_no_NUL l s : cstring l = Some s → Forall (λ c, c ≠ NUL) s.
Proof.
  revert s. induction l as [|[c|] l IH]; intros s; simpl; try discriminate.
  destruct (Ascii.eqb_spec c NUL) as [->|Hc].
  - intros [= <-]. constructor.
  - destruct (cstring l) as [s'|]; simpl; [|discriminate].
    intros [= <-]. constructor; auto.
Qed.

Lemma strcmp_refl s : strcmp s s = 0.
Proof.
  induction s as [|a s IH]; simpl; [reflexivity|].
  rewrite Ascii.eqb_refl. exact IH.
Qed.

(** On strings, which hold no terminator, [strcmp] answers 0 exactly when
    the two are equal. *)
Lemma strcmp_eq s t :
  Forall (λ c, c ≠ NUL) s → Forall (λ c, c ≠ NUL) t →
  strcmp s t = 0 ↔ s = t.
Proof.
  intros Hs. revert t.
  induction Hs as [|a s Ha Hs IH]; intros t Ht.
  - destruct Ht as [|b t Hb Ht]; simpl; [tauto|].
    split; [|discriminate].
    intros H. destruct Hb. apply int_of_char_NUL. lia.
  - destruct Ht as [|b t Hb Ht]; simpl.
    + split; [|discriminate].
      intros H. destruct Ha. apply int_of_char_NUL. lia.
    + destruct (Ascii.eqb_spec a b) as [->|Hab].
      * rewrite IH by assumption. split; congruence.
      * split; [|congruence].
        intros H. destruct Hab. apply int_of_char_inj. lia.
Qed.

Lemma builtin_str_no_NUL : Forall (Forall (λ c, c ≠ NUL)) builtin_str.
Proof.
  unfold builtin_str, str. simpl.
  repeat constructor; discriminate.
Qed.

(** ** Dispatcher *)

(** The scan of the table from [i] on: the first name equal to the token
    selects the function at the same index; with none, the Launcher. *)
Lemma execute_scan_first_match args p t w i n :
  string_at (a_line args) p = Some t →
  (i + n = length builtin_str)%nat →
  (∀ j, (i ≤ j)%nat → ∀ k (f : argv → M retval),
      builtin_str !! k = Some t → builtin_func !! k = Some f →
      (∀ j', (j ≤ j')%nat → (j' < k)%nat → builtin_str !! j' ≠ Some t) →
      (j ≤ k)%nat →
      execute_scan (seq j (length builtin_str - j)) args p w = f args w)
  ∧ ((∀ k, (i ≤ k)%nat → builtin_str !! k ≠ Some t) →
     execute_scan (seq i n) args p w = qwertysh_launch args w).
Proof.
  intros Hs Hin. pose proof (cstring_no_NUL _ _ Hs) as Ht.
  assert (Hcmp : ∀ k name, builtin_str !! k = Some name →
                 (strcmp t name =? 0) = true ↔ name = t).
  { intros k name Hk. rewrite Z.eqb_eq, strcmp_eq; [split; congruence|done|].
    eapply Forall_lookup_1; [apply builtin_str_no_NUL|exact Hk]. }
  split.
  - intros j _ k f Hk Hf Hfirst Hjk.
    remember (k - j)%nat as d eqn:Hd. revert j Hd Hfirst Hjk.
    induction d as [|d IH]; intros j Hd Hfirst Hjk.
    + assert (j = k) as -> by lia.
      pose proof (lookup_lt_Some _ _ _ Hk) as Hlt.
      destruct (length builtin_str - k)%nat as [|m] eqn:Hm; [lia|].
      simpl. unfold bind, lift. rewrite Hs, Hk. simpl.
      rewrite (proj2 (Hcmp k t Hk)) by done.
      rewrite Hf. reflexivity.
    + pose proof (lookup_lt_Some _ _ _ Hk) as Hlt.
      destruct (length builtin_str - j)%nat as [|m] eqn:Hm; [lia|].
      simpl. unfold bind, lift. rewrite Hs. simpl.
      destruct (builtin_str !! j) as [name|] eqn:Hj; simpl.
      2:{ apply lookup_ge_None in Hj. lia. }
      destruct (strcmp t name =? 0) eqn:Hc.
      { apply (Hcmp j name Hj) in Hc. subst name.
        destruct (Hfirst j); [lia|lia|exact Hj]. }
      replace m with (length builtin_str - S j)%nat by lia.
      apply IH; [lia| |lia].
      intros j' H1 H2. apply Hfirst; lia.
  - revert i Hin. induction n as [|n IH]; intros i Hin Hnone; simpl.
    + reflexivity.
    + unfold bind, lift. rewrite Hs. simpl.
      destruct (builtin_str !! i) as [name|] eqn:Hi; simpl.
      2:{ apply lookup_ge_None in Hi. lia. }
      destruct (strcmp t name =? 0) eqn:Hc.
      { apply (Hcmp i name Hi) in Hc. subst name.
        destruct (Hnone i); [lia|exact Hi]. }
      apply IH; [lia|]. intros k Hk. apply Hnone. lia.
Qed.

(** With a first token, the Dispatcher is the scan of the whole table. *)
Lemma execute_scans args w p :
  a_tokens args !! 0%nat = Some (Some (At p)) →
  qwertysh_execute args w
  = execute_scan (seq 0 (length builtin_str)) args p w.
Proof.
  intros H0. unfold qwertysh_execute, bind.
  rewrite (load_lookup _ 0 (At p)) by (done || lia).
  unfold qwertysh_num_builtins. rewrite Nat2Z.id. reflexivity.
Qed.

Lemma builtin_str_elem t :
  t ∈ builtin_str →
  t = str "cd" ∨ t = str "help" ∨ t = str "exit" ∨ t = str "cls".
Proof.
  unfold builtin_str. rewrite !elem_of_cons, elem_of_nil. tauto.
Qed.

(** The table, entry by entry. *)
Lemma execute_table args w p t :
  a_tokens args !! 0%nat = Some (Some (At p)) →
  string_at (a_line args) p = Some t →
  qwertysh_execute args w
  = if decide (t = str "cd") then qwertysh_cd args w
    else if decide (t = str "help") then qwertysh_help args w
    else if decide (t = str "exit") then qwertysh_exit args w
    else if decide (t = str "cls") then qwertysh_cls args w
    else qwertysh_launch args w.
Proof.
  intros H0 Hs. rewrite (execute_scans args w p H0).
  destruct (execute_scan_first_match args p t w 0 (length builtin_str) Hs)
    as [Hhit Hmiss]; [lia|].
  specialize (Hhit 0%nat (Nat.le_refl _)).
  repeat case_decide; subst.
  - apply (Hhit 0%nat qwertysh_cd); try reflexivity; intros; lia.
  - apply (Hhit 1%nat qwertysh_help); try reflexivity; [|lia].
    intros [|j] _ Hj; [discriminate|lia].
  - apply (Hhit 2%nat qwertysh_exit); try reflexivity; [|lia].
    intros [|[|j]] _ Hj; [discriminate|discriminate|lia].
  - apply (Hhit 3%nat qwertysh_cls); try reflexivity; [|lia].
    intros [|[|[|j]]] _ Hj; [discriminate|discriminate|discriminate|lia].
  - apply Hmiss. intros k _ Hk.
    apply list_elem_of_lookup_2, builtin_str_elem in Hk.
    destruct Hk as [?|[?|[?|?]]]; contradiction.
Qed.

(** C1.  A token list whose first token equals a name of the table is
    handed to the function at the index of the first such name, and to no
    other, and its result is returned as it is; the comparison is exact and
    case-sensitive.  A token list whose first token is no name of the table
    is handed to the Launcher, whose result is returned. *)
Theorem execute_dispatches args w p t :
  a_tokens args !! 0%nat = Some (Some (At p)) →
  string_at (a_line args) p = Some t →
  (∀ i (f : argv → M retval),
      builtin_str !! i = Some t → builtin_func !! i = Some f →
      (∀ j, (j < i)%nat → builtin_str !! j ≠ Some t) →
      qwertysh_execute args w = f args w)
  ∧ (t ∉ builtin_str →
     qwertysh_execute args w = qwertysh_launch args w).
Proof.
  intros H0 Hs.
  destruct (execute_scan_first_match args p t w 0 (length builtin_str) Hs)
    as [Hhit Hmiss]; [lia|].
  rewrite (execute_scans args w p H0).
  split.
  - intros i f Hi Hf Hfirst.
    specialize (Hhit 0%nat (Nat.le_refl _) i f Hi Hf).
    rewrite Nat.sub_0_r in Hhit.
    apply Hhit; [|lia]. intros j' _ Hj'. apply Hfirst. exact Hj'.
  - intros Hnot. apply Hmiss. intros k _ Hk. apply Hnot.
    eapply list_elem_of_lookup_2. exact Hk.
Qed.

(** ** Line Reader *)

(** Arithmetic with the quotients of the capacities. *)
Ltac div_lia :=
  clear heap_ok strerror sys_chdir sys_fork sys_execvp;
  Z.div_mod_to_equations; lia.

Lemma filled_length {A} (text : list A) cap :
  Z.of_nat (length text) <= cap →
  length (filled text cap) = Z.to_nat cap.
Proof.
  intros H. unfold filled.
  rewrite length_app, length_fmap, length_replicate. lia.
Qed.

Lemma filled_store {A} (text : list A) cap x :
  Z.of_nat (length text) < cap →
  <[length text := Some x]> (filled text cap) = filled (text ++ [x]) cap.
Proof.
  intros H. unfold filled.
  rewrite insert_app_r_alt by (rewrite length_fmap; lia).
  rewrite length_fmap, Nat.sub_diag.
  destruct (Z.to_nat cap - length text)%nat as [|n] eqn:E; [lia|].
  simpl. rewrite fmap_app, <- app_assoc. simpl.
  rewrite length_app. simpl.
  replace (Z.to_nat cap - (length text + 1))%nat with n by lia.
  reflexivity.
Qed.

Lemma filled_store_at {A} (text : list A) cap n x :
  n = length text → Z.of_nat n < cap →
  <[n := Some x]> (filled text cap) = filled (text ++ [x]) cap.
Proof. intros ->. apply filled_store. Qed.

Lemma filled_grow {A} (text : list A) cap cap' :
  Z.of_nat (length text) <= cap → cap <= cap' →
  take (Z.to_nat cap') (filled text cap)
    ++ replicate (Z.to_nat cap' - length (filled text cap))%nat None
  = filled text cap'.
Proof.
  intros H1 H2. rewrite take_ge by (rewrite filled_length; lia).
  rewrite filled_length by lia. unfold filled.
  rewrite <- app_assoc, <- replicate_add. f_equal. f_equal. lia.
Qed.

Lemma capacity_above n : Z.of_nat n < capacity n.
Proof.
  unfold capacity, qwertysh_RL_BUFSIZE. div_lia.
Qed.

Lemma capacity_step n :
  capacity (S n)
  = if Z.of_nat n + 1 >=? capacity n
    then capacity n + qwertysh_RL_BUFSIZE else capacity n.
Proof.
  unfold capacity, qwertysh_RL_BUFSIZE.
  destruct (Z.geb_spec (Z.of_nat n + 1) (1024 * (Z.of_nat n / 1024 + 1)));
    rewrite Nat2Z.inj_succ; div_lia.
Qed.

Lemma capacity_mono n m : (n ≤ m)%nat → capacity n <= capacity m.
Proof.
  intros H. unfold capacity, qwertysh_RL_BUFSIZE.
  assert (Z.of_nat n / 1024 <= Z.of_nat m / 1024)
    by (apply Z.div_le_mono; lia).
  lia.
Qed.

(** The loop of the Line Reader, started after [done] was stored: it stores
    the rest of the line and the terminator, and leaves on the input what
    follows the line.  It asks the allocator for the capacities up to the
    one of the whole line, and for nothing else. *)
Lemma read_line_loop_reads_within text : ∀ rest done fuel w,
  (∀ n, (n ≤ length done + length text)%nat → heap_ok (capacity n) = true) →
  w_stdin w = text ++ rest →
  LF ∉ text →
  head rest = None ∨ head rest = Some LF →
  capacity (length done + length text) <= INT_MAX →
  (length text < fuel)%nat →
  read_line_loop fuel (filled done (capacity (length done)))
    (Z.of_nat (length done)) (capacity (length done)) w
  = Ret (filled (done ++ text ++ [NUL])
           (capacity (length done + length text)))
        (with_stdin w (tail rest)).
Proof.
  induction text as [|a text IH];
    intros rest done fuel w Hheap Hin Hlf Hrest Hcap Hfuel.
  - destruct fuel as [|fuel]; [simpl in Hfuel; lia|].
    simpl in Hin. simpl. unfold bind, getchar. rewrite Hin.
    pose proof (capacity_above (length done)) as Habove.
    assert (Hstore : ∀ w1,
      store (filled done (capacity (length done)))
        (Z.of_nat (length done)) NUL w1
      = Ret (filled (done ++ [NUL]) (capacity (length done + 0))) w1).
    { intros w1. rewrite store_inside by (rewrite filled_length; lia).
      rewrite Nat2Z.id, filled_store by lia. rewrite Nat.add_0_r. done. }
    destruct rest as [|c rest]; simpl.
    + rewrite Hstore. unfold ret, with_stdin. simpl.
      rewrite <- Hin. destruct w; reflexivity.
    + destruct Hrest as [Hrest|Hrest]; [discriminate|].
      injection Hrest as ->. simpl. rewrite Hstore. reflexivity.
  - destruct fuel as [|fuel]; [simpl in Hfuel; lia|].
    simpl in Hin, Hfuel. simpl. unfold bind at 1. unfold getchar.
    rewrite Hin. simpl.
    assert (Ha : a ≠ LF) by (intros ->; apply Hlf; left).
    assert (Hlf' : LF ∉ text) by (intros H; apply Hlf; right; exact H).
    pose proof (int_of_char_range a) as Hra.
    destruct (int_of_char a =? EOF) eqn:E1;
      [apply Z.eqb_eq in E1; unfold EOF in E1; lia|].
    destruct (int_of_char a =? int_of_char LF) eqn:E2;
      [apply Z.eqb_eq, int_of_char_inj in E2; contradiction|].
    simpl. unfold bind at 1.
    pose proof (capacity_above (length done)) as Habove.
    rewrite store_inside by (rewrite filled_length; lia).
    rewrite Nat2Z.id, filled_store, char_of_int_of_char by lia.
    assert (Hmono : capacity (length done) <= capacity (length done + S (length text)))
      by (apply capacity_mono; lia).
    simpl in Hcap.
    unfold bind at 1. unfold int_add.
    destruct ((INT_MIN <=? Z.of_nat (length done) + 1)
                && (Z.of_nat (length done) + 1 <=? INT_MAX)) eqn:E3.
    2:{ apply andb_false_iff in E3 as [E3|E3];
          [apply Z.leb_gt in E3|apply Z.leb_gt in E3];
          unfold INT_MIN in *; lia. }
    simpl.
    pose proof (capacity_step (length done)) as Hstep.
    assert (Hmono' : capacity (S (length done))
                     <= capacity (length done + S (length text)))
      by (apply capacity_mono; lia).
    assert (Hgrow : heap_ok (capacity (S (length done))) = true)
      by (apply Hheap; simpl; lia).
    specialize (IH rest (done ++ [a]) fuel
                  (with_stdin w (text ++ rest))).
    rewrite length_app in IH. simpl in IH.
    replace (length done + 1)%nat with (S (length done)) in IH by lia.
    replace (S (length done) + length text)%nat
      with (length done + S (length text))%nat in IH by lia.
    rewrite <- app_assoc in IH. simpl in IH.
    replace (Z.of_nat (length done) + 1) with (Z.of_nat (S (length done)))
      by lia.
    destruct (Z.of_nat (length done) + 1 >=? capacity (length done)) eqn:E4;
      replace (Z.of_nat (length done) + 1) with (Z.of_nat (S (length done)))
        in E4 by lia; rewrite E4.
    + unfold bind at 1. unfold int_add.
      destruct ((INT_MIN <=? capacity (length done) + qwertysh_RL_BUFSIZE)
                  && (capacity (length done) + qwertysh_RL_BUFSIZE <=? INT_MAX))
        eqn:E5.
      2:{ apply andb_false_iff in E5 as [E5|E5];
            [apply Z.leb_gt in E5|apply Z.leb_gt in E5];
            unfold INT_MIN, qwertysh_RL_BUFSIZE in *; lia. }
      simpl. unfold realloc. rewrite <- Hstep, Hgrow, Hstep.
      rewrite filled_grow
        by (rewrite ?length_app; simpl; unfold qwertysh_RL_BUFSIZE; lia).
      rewrite <- Hstep. apply IH; auto; lia.
    + rewrite <- Hstep. apply IH; auto; lia.
Qed.

Lemma read_line_loop_reads text : ∀ rest done fuel w,
  (∀ n, heap_ok n = true) →
  w_stdin w = text ++ rest →
  LF ∉ text →
  head rest = None ∨ head rest = Some LF →
  capacity (length done + length text) <= INT_MAX →
  (length text < fuel)%nat →
  read_line_loop fuel (filled done (capacity (length done)))
    (Z.of_nat (length done)) (capacity (length done)) w
  = Ret (filled (done ++ text ++ [NUL])
           (capacity (length done + length text)))
        (with_stdin w (tail rest)).
Proof.
  intros rest done fuel w Hheap.
  apply read_line_loop_reads_within. intros n _. apply Hheap.
Qed.

(** The Line Reader on a whole line, the allocator granting the capacities
    that the line needs. *)
Lemma read_line_reads_within text rest w :
  (∀ n, (n ≤ length text)%nat → heap_ok (capacity n) = true) →
  w_stdin w = text ++ rest →
  LF ∉ text →
  head rest = None ∨ head rest = Some LF →
  capacity (length text) <= INT_MAX →
  qwertysh_read_line w
  = Ret (filled (text ++ [NUL]) (capacity (length text)))
        (with_stdin w (tail rest)).
Proof.
  intros Hheap Hin Hlf Hrest Hcap.
  unfold qwertysh_read_line, malloc.
  change (1 * qwertysh_RL_BUFSIZE) with (capacity 0).
  rewrite Hheap by lia.
  pose proof (read_line_loop_reads_within text rest []
                (S (length (w_stdin w))) w Hheap Hin Hlf Hrest Hcap) as H.
  simpl in H. apply H. rewrite Hin, length_app. lia.
Qed.

(** The Line Reader on a whole line: [text] is the line, [rest] what
    follows it on the input, starting with the line feed unless the input
    ends there. *)
Lemma read_line_reads text rest w :
  (∀ n, heap_ok n = true) →
  w_stdin w = text ++ rest →
  LF ∉ text →
  head rest = None ∨ head rest = Some LF →
  capacity (length text) <= INT_MAX →
  qwertysh_read_line w
  = Ret (filled (text ++ [NUL]) (capacity (length text)))
        (with_stdin w (tail rest)).
Proof.
  intros Hheap Hin Hlf Hrest Hcap.
  unfold qwertysh_read_line, malloc. rewrite Hheap.
  pose proof (read_line_loop_reads text rest [] (S (length (w_stdin w))) w
                Hheap Hin Hlf Hrest Hcap) as H.
  simpl in H. apply H. rewrite Hin, length_app. lia.
Qed.

(** ** Strings in memory *)

Lemma cstring_app s l :
  Forall (λ c, c ≠ NUL) s → cstring ((Some <$> s) ++ Some NUL :: l) = Some s.
Proof.
  induction 1 as [|c s Hc Hs IH]; csimpl.
  - reflexivity.
  - destruct (Ascii.eqb_spec c NUL); [contradiction|]. rewrite IH. done.
Qed.

Lemma cstring_inv l s :
  cstring l = Some s →
  ∃ l', l = (Some <$> s) ++ Some NUL :: l' ∧ Forall (λ c, c ≠ NUL) s.
Proof.
  revert s. induction l as [|[c|] l IH]; intros s; simpl; try discriminate.
  destruct (Ascii.eqb_spec c NUL) as [->|Hc].
  - intros [= <-]. exists l. split; [reflexivity|constructor].
  - destruct (cstring l) as [s'|]; simpl; [|discriminate].
    intros [= <-]. destruct (IH s' eq_refl) as (l' & -> & Hs').
    exists l'. split; [reflexivity|constructor; assumption].
Qed.

Lemma string_at_inv m p s :
  string_at m p = Some s →
  ∃ post, m = take p m ++ (Some <$> s) ++ Some NUL :: post
          ∧ length (take p m) = p
          ∧ Forall (λ c, c ≠ NUL) s.
Proof.
  unfold string_at. intros H.
  destruct (cstring_inv _ _ H) as (post & Hd & Hs).
  exists post. split; [|split; [|exact Hs]].
  - rewrite <- Hd. symmetry. apply take_drop.
  - rewrite length_take. apply Nat.min_l.
    destruct (decide (p ≤ length m)%nat) as [|Hn]; [done|].
    rewrite drop_ge in Hd by lia. destruct s; discriminate.
Qed.

Lemma string_at_intro pre s post :
  Forall (λ c, c ≠ NUL) s →
  string_at (pre ++ (Some <$> s) ++ Some NUL :: post) (length pre) = Some s.
Proof.
  intros Hs. unfold string_at. rewrite drop_app_length.
  apply cstring_app. exact Hs.
Qed.

Lemma string_at_length m p s :
  string_at m p = Some s → (p + length s < length m)%nat.
Proof.
  intros H. destruct (string_at_inv _ _ _ H) as (post & Hm & Hp & _).
  rewrite Hm, !length_app, Hp, length_fmap. simpl. lia.
Qed.

(** The string that starts [k] characters inside a string. *)
Lemma string_at_shift m p s k :
  string_at m p = Some s → (k ≤ length s)%nat →
  string_at m (p + k) = Some (drop k s).
Proof.
  intros H Hk. destruct (string_at_inv _ _ _ H) as (post & Hm & Hp & Hs).
  rewrite Hm.
  rewrite <- (take_drop k s) at 1. rewrite fmap_app, <- app_assoc, app_assoc.
  replace (p + k)%nat with (length (take p m ++ (Some <$> take k s))).
  - apply string_at_intro. apply Forall_drop. exact Hs.
  - rewrite length_app, Hp, length_fmap, length_take. lia.
Qed.

(** Writing a terminator inside a string cuts it in two strings. *)
Lemma string_at_cut m p s n :
  string_at m p = Some s → (n < length s)%nat →
  string_at (<[(p + n)%nat := Some NUL]> m) p = Some (take n s)
  ∧ string_at (<[(p + n)%nat := Some NUL]> m) (p + S n) = Some (drop (S n) s).
Proof.
  intros H Hn. destruct (string_at_inv _ _ _ H) as (post & Hm & Hp & Hs).
  assert (Hcut : <[(p + n)%nat := Some NUL]> m
    = take p m ++ (Some <$> take n s)
        ++ Some NUL :: (Some <$> drop (S n) s) ++ Some NUL :: post).
  { rewrite Hm at 1. rewrite <- Hp at 1. rewrite insert_app_r. f_equal.
    rewrite <- (take_drop n s) at 1. rewrite fmap_app, <- app_assoc.
    replace n with (length (Some <$> take n s) + 0)%nat at 1
      by (rewrite length_fmap, length_take; lia).
    rewrite insert_app_r. f_equal.
    destruct (drop n s) as [|c r] eqn:Hd.
    { apply (f_equal length) in Hd. rewrite length_drop in Hd.
      simpl in Hd. lia. }
    replace (drop (S n) s) with r; [reflexivity|].
    rewrite <- (Nat.add_1_r n), <- drop_drop, Hd. reflexivity. }
  rewrite Hcut. split.
  - rewrite <- Hp at 2. apply string_at_intro. apply Forall_take. exact Hs.
  - replace (p + S n)%nat
      with (length ((take p m ++ (Some <$> take n s)) ++ [Some NUL])).
    + rewrite (app_assoc (take p m)).
      change (Some NUL :: (Some <$> drop (S n) s) ++ Some NUL :: post)
        with ([Some NUL] ++ (Some <$> drop (S n) s) ++ Some NUL :: post).
      rewrite (app_assoc _ [Some NUL]).
      apply string_at_intro. apply Forall_drop. exact Hs.
    + rewrite !length_app, Hp, length_fmap, length_take. simpl. lia.
Qed.

(** A write beyond the terminator of a string leaves the string as it is. *)
Lemma string_at_insert_after m q u e x :
  string_at m q = Some u → (q + length u < e)%nat →
  string_at (<[e := x]> m) q = Some u.
Proof.
  intros H He. destruct (string_at_inv _ _ _ H) as (post & Hm & Hq & Hu).
  set (l := take q m ++ (Some <$> u) ++ [Some NUL]).
  assert (Hl : m = l ++ post)
    by (rewrite Hm at 1; unfold l; rewrite <- !app_assoc; reflexivity).
  assert (Hlen : length l = (q + length u + 1)%nat)
    by (unfold l; rewrite !length_app, Hq, length_fmap; simpl; lia).
  rewrite Hl.
  replace e with (length l + (e - q - length u - 1))%nat by lia.
  rewrite insert_app_r. unfold l. rewrite <- !app_assoc. simpl.
  match goal with |- string_at (_ ++ _ ++ _ :: ?tl) _ = _ =>
    pose proof (string_at_intro (take q m) u tl Hu) as Hgoal end.
  rewrite Hq in Hgoal. exact Hgoal.
Qed.

(** ** The tokens of a line *)

Lemma strspn_le s delim : (strspn s delim ≤ length s)%nat.
Proof.
  induction s as [|c s IH]; simpl; [lia|].
  destruct (is_delim delim c); simpl; lia.
Qed.

Lemma strcspn_le s delim : (strcspn s delim ≤ length s)%nat.
Proof.
  induction s as [|c s IH]; simpl; [lia|].
  destruct (is_delim delim c); simpl; lia.
Qed.

(** After the leading delimiters comes a character that is none. *)
Lemma drop_strspn_head s delim c r :
  drop (strspn s delim) s = c :: r → is_delim delim c = false.
Proof.
  induction s as [|a s IH]; simpl; [discriminate|].
  destruct (is_delim delim a) eqn:E; simpl; [exact IH|].
  intros [= <- _]. exact E.
Qed.

Lemma take_strcspn_no_delim s delim :
  Forall (λ c, is_delim delim c = false) (take (strcspn s delim) s).
Proof.
  induction s as [|a s IH]; simpl; [constructor|].
  destruct (is_delim delim a) eqn:E; simpl; constructor; assumption.
Qed.

Lemma tokens_of_nil delim : tokens_of delim [] = [].
Proof. reflexivity. Qed.

(** Leading delimiters contribute no token. *)
Lemma tokens_of_skip delim s :
  tokens_of delim (drop (strspn s delim) s) = tokens_of delim s.
Proof.
  induction s as [|a s IH]; simpl; [reflexivity|].
  destruct (is_delim delim a) eqn:E; simpl; [|reflexivity].
  rewrite IH. unfold tokens_of. simpl. rewrite E.
  rewrite filter_cons_False; [reflexivity|]. intros H. apply H. reflexivity.
Qed.

(** The first piece runs up to the first delimiter. *)
Lemma pieces_strcspn delim s :
  pieces delim s
  = take (strcspn s delim) s
      :: match drop (strcspn s delim) s with
         | [] => []
         | _ :: r => pieces delim r
         end.
Proof.
  induction s as [|a s IH]; simpl; [reflexivity|].
  destruct (is_delim delim a) eqn:E; simpl; [reflexivity|].
  rewrite IH. reflexivity.
Qed.

(** A line that starts with a character that is no delimiter starts with a
    token: the characters up to the next delimiter. *)
Lemma tokens_of_token delim s :
  (0 < strcspn s delim)%nat →
  tokens_of delim s
  = take (strcspn s delim) s
      :: tokens_of delim (drop (S (strcspn s delim)) s).
Proof.
  intros Hpos. unfold tokens_of at 1. rewrite pieces_strcspn.
  rewrite filter_cons_True.
  2:{ intros H. apply (f_equal length) in H. rewrite length_take in H.
      pose proof (strcspn_le s delim). simpl in H. lia. }
  f_equal.
  destruct (drop (strcspn s delim) s) as [|c r] eqn:Hd.
  - rewrite <- (Nat.add_1_r (strcspn s delim)), <- drop_drop, Hd.
    reflexivity.
  - rewrite <- (Nat.add_1_r (strcspn s delim)), <- drop_drop, Hd.
    reflexivity.
Qed.

Lemma pieces_no_delim delim s :
  Forall (Forall (λ c, is_delim delim c = false)) (pieces delim s).
Proof.
  induction s as [|a s IH]; simpl.
  - repeat constructor.
  - destruct (is_delim delim a) eqn:E.
    + constructor; [constructor|exact IH].
    + destruct (pieces delim s) as [|piece others].
      * repeat constructor. exact E.
      * inversion IH; subst. constructor; [constructor|]; assumption.
Qed.

(** Every token is a non-empty string without delimiter. *)
Lemma tokens_of_wf delim s :
  Forall (λ t, t ≠ [] ∧ Forall (λ c, is_delim delim c = false) t)
         (tokens_of delim s).
Proof.
  unfold tokens_of. apply Forall_forall. intros t Ht.
  apply list_elem_of_filter in Ht as [Hne Hin]. split; [exact Hne|].
  eapply Forall_forall in Hin; [exact Hin|]. apply pieces_no_delim.
Qed.

Lemma pieces_total_length delim s :
  (sum_list (length <$> pieces delim s) ≤ length s)%nat.
Proof.
  induction s as [|a s IH]; csimpl; [lia|].
  destruct (is_delim delim a); csimpl; [lia|].
  destruct (pieces delim s) as [|piece others]; csimpl in *; lia.
Qed.

(** A line holds no more tokens than characters. *)
Lemma tokens_of_count delim s : (length (tokens_of delim s) ≤ length s)%nat.
Proof.
  unfold tokens_of.
  etransitivity; [|apply (pieces_total_length delim)].
  induction (pieces delim s) as [|piece others IH]; csimpl; [lia|].
  destruct piece as [|c piece].
  - rewrite filter_cons_False by (intros H; apply H; reflexivity).
    csimpl. lia.
  - rewrite filter_cons_True by discriminate. csimpl. lia.
Qed.

(** ** [strtok] *)

(** One call of [strtok] on a string: with no token left it returns null
    and writes nothing; otherwise it returns the first token, now a string
    of its own, and its static pointer is left on a string that holds the
    other tokens.  Strings that end before the starting point are
    untouched. *)
Lemma strtok_spec m sp save delim start s :
  start = match sp with NULL => save | At p => p end →
  string_at m start = Some s →
  match tokens_of delim s with
  | [] => ∃ save', strtok m sp save delim = Some (NULL, m, save')
  | t :: ts =>
      ∃ b m' save' rest,
        strtok m sp save delim = Some (At b, m', save')
        ∧ length m' = length m
        ∧ string_at m' b = Some t
        ∧ (start ≤ b)%nat
        ∧ (b + length t ≤ save')%nat
        ∧ string_at m' save' = Some rest
        ∧ tokens_of delim rest = ts
        ∧ (length rest < length s)%nat
        ∧ (∀ q u, string_at m q = Some u → (q + length u ≤ start)%nat →
                  string_at m' q = Some u)
  end.
Proof.
  intros Hstart Hs. unfold strtok. rewrite <- Hstart, Hs.
  rewrite <- (tokens_of_skip delim s).
  pose proof (strspn_le s delim) as Hk.
  pose proof (string_at_shift _ _ _ _ Hs Hk) as Hr.
  destruct (drop (strspn s delim) s) as [|c r] eqn:Hd.
  { rewrite tokens_of_nil. eauto. }
  assert (Hlen : (length (c :: r) ≤ length s)%nat)
    by (rewrite <- Hd, length_drop; lia).
  assert (Hpos : (0 < strcspn (c :: r) delim)%nat).
  { simpl. rewrite (drop_strspn_head _ _ _ _ Hd). lia. }
  rewrite (tokens_of_token delim (c :: r) Hpos).
  pose proof (strcspn_le (c :: r) delim) as Hn.
  set (n := strcspn (c :: r) delim) in *.
  destruct (n <? length (c :: r))%nat eqn:E.
  - apply Nat.ltb_lt in E.
    destruct (string_at_cut _ _ _ n Hr E) as [Htok Hrest].
    eexists _, _, _, _. split; [reflexivity|].
    repeat split.
    + apply length_insert.
    + exact Htok.
    + lia.
    + rewrite length_take. lia.
    + rewrite <- Nat.add_succ_r. exact Hrest.
    + rewrite length_drop. lia.
    + intros q u Hq Hle. apply string_at_insert_after; [exact Hq|lia].
  - apply Nat.ltb_ge in E.
    assert (n = length (c :: r)) as Hfull by lia.
    eexists _, _, _, _. split; [reflexivity|].
    repeat split.
    + rewrite Hfull, take_ge by lia. exact Hr.
    + lia.
    + rewrite length_take. lia.
    + rewrite (string_at_shift _ _ _ n Hr) by lia.
      rewrite Hfull, !drop_ge by lia. reflexivity.
    + rewrite length_drop. lia.
    + intros q u Hq _. exact Hq.
Qed.

(** ** Tokenizer *)

Lemma token_capacity_above n : Z.of_nat n < token_capacity n.
Proof.
  unfold token_capacity, qwertysh_TOK_BUFSIZE. div_lia.
Qed.

Lemma token_capacity_below n : token_capacity n <= Z.of_nat n + 64.
Proof.
  unfold token_capacity, qwertysh_TOK_BUFSIZE. div_lia.
Qed.

Lemma token_capacity_step n :
  token_capacity (S n)
  = if Z.of_nat n + 1 >=? token_capacity n
    then token_capacity n + qwertysh_TOK_BUFSIZE else token_capacity n.
Proof.
  unfold token_capacity, qwertysh_TOK_BUFSIZE.
  destruct (Z.geb_spec (Z.of_nat n + 1) (64 * (Z.of_nat n / 64 + 1)));
    rewrite Nat2Z.inj_succ; div_lia.
Qed.

(** The loop stores the tokens that are left after those it has stored.
    [ps] are the pointers stored so far and [done] the strings they point
    to, all of them before the static pointer. *)
Lemma split_line_loop_spec fuel : ∀ token ps done remaining m save w,
  (∀ n, heap_ok n = true) →
  Forall2 (λ p t, string_at m p = Some t ∧ (p + length t ≤ save)%nat)
          ps done →
  pending token m save remaining fuel →
  Z.of_nat (length ps + length remaining) + 64 <= INT_MAX →
  ∃ ps' m',
    split_line_loop fuel token
      (filled (At <$> ps) (token_capacity (length ps)))
      (Z.of_nat (length ps)) (token_capacity (length ps)) m save w
    = Ret (filled (At <$> ps') (token_capacity (length ps')),
           Z.of_nat (length ps'), m') w
    ∧ Forall2 (λ p t, string_at m' p = Some t) ps' (done ++ remaining).
Proof.
  induction fuel as [|fuel IH];
    intros token ps done remaining m save w Hheap Hdone Hpend Hbound.
  - destruct token as [|b]; simpl in *.
    + subst remaining. exists ps, m. split; [reflexivity|].
      rewrite app_nil_r. eapply Forall2_impl; [exact Hdone|].
      intros p t [H _]. exact H.
    + destruct Hpend as (t & ts & rest & _ & _ & _ & _ & _ & H). lia.
  - destruct token as [|b].
    + simpl in *. subst remaining. exists ps, m. split; [reflexivity|].
      rewrite app_nil_r. eapply Forall2_impl; [exact Hdone|].
      intros p t [H _]. exact H.
    + destruct Hpend as (t & ts & rest & -> & Hb & Hble & Hrest & Hts & Hfuel).
      simpl in Hbound.
      pose proof (token_capacity_above (length ps)) as Habove.
      pose proof (token_capacity_below (length ps)) as Hbelow.
      pose proof (token_capacity_step (length ps)) as Hstep.
      (* what the next call of strtok does *)
      pose proof (strtok_spec m NULL save qwertysh_TOK_DELIM save rest
                    eq_refl Hrest) as Hnext.
      rewrite Hts in Hnext.
      assert (Hdone' :
        Forall2 (λ p t, string_at m p = Some t ∧ (p + length t ≤ save)%nat)
                (ps ++ [b]) (done ++ [t])).
      { apply Forall2_app; [exact Hdone|]. repeat constructor; assumption. }
      assert (Hlen' : length (ps ++ [b]) = S (length ps))
        by (rewrite length_app; simpl; lia).
      (* the turn of the loop, up to the call of strtok *)
      assert (Hturn : ∀ K : array ptr → Z → Z → M (array ptr * Z * array ascii),
        (let* tokens := store (filled (At <$> ps) (token_capacity (length ps)))
                          (Z.of_nat (length ps)) (At b) in
         let* position := int_add (Z.of_nat (length ps)) 1 in
         if position >=? token_capacity (length ps) then
           let* bufsize := int_add (token_capacity (length ps))
                             qwertysh_TOK_BUFSIZE in
           match realloc tokens bufsize (bufsize * sizeof_ptr) with
           | None =>
               fprintf_stderr (msg "qwertysh: allocation error") ;;
               exit EXIT_FAILURE
           | Some tokens => K tokens position bufsize
           end
         else K tokens position (token_capacity (length ps))) w
        = K (filled (At <$> (ps ++ [b])) (token_capacity (length (ps ++ [b]))))
            (Z.of_nat (length (ps ++ [b])))
            (token_capacity (length (ps ++ [b]))) w).
      { intros K. unfold bind at 1.
        rewrite store_inside
          by (rewrite filled_length by (rewrite length_fmap; lia); lia).
        rewrite Nat2Z.id.
        rewrite filled_store_at by (rewrite ?length_fmap; lia).
        replace ((At <$> ps) ++ [At b]) with (At <$> (ps ++ [b]))
          by (rewrite fmap_app; reflexivity).
        unfold bind at 1. unfold int_add.
        destruct ((INT_MIN <=? Z.of_nat (length ps) + 1)
                    && (Z.of_nat (length ps) + 1 <=? INT_MAX)) eqn:E3.
        2:{ apply andb_false_iff in E3 as [E3|E3];
              [apply Z.leb_gt in E3|apply Z.leb_gt in E3];
              unfold INT_MIN in *; lia. }
        simpl. rewrite Hlen'.
        replace (Z.of_nat (length ps) + 1) with (Z.of_nat (S (length ps)))
          in * by lia.
        destruct (Z.of_nat (S (length ps)) >=? token_capacity (length ps))
          eqn:E4.
        - pose proof (proj1 (Z.geb_le _ _) E4) as Hfull.
          unfold bind at 1. unfold int_add.
          destruct ((INT_MIN <=? token_capacity (length ps)
                                  + qwertysh_TOK_BUFSIZE)
                      && (token_capacity (length ps) + qwertysh_TOK_BUFSIZE
                          <=? INT_MAX)) eqn:E5.
          2:{ apply andb_false_iff in E5 as [E5|E5];
                [apply Z.leb_gt in E5|apply Z.leb_gt in E5];
                unfold INT_MIN, qwertysh_TOK_BUFSIZE in *; lia. }
          simpl. unfold realloc. rewrite Hheap.
          rewrite filled_grow
            by (rewrite ?length_fmap, ?length_app; simpl;
                unfold qwertysh_TOK_BUFSIZE; lia).
          rewrite <- Hstep. reflexivity.
        - rewrite <- Hstep. reflexivity. }
      simpl split_line_loop. rewrite Hturn. clear Hturn.
      unfold bind at 1, lift.
      destruct ts as [|t2 ts2].
      * destruct Hnext as [save' ->]. simpl.
        exists (ps ++ [b]), m. split.
        { destruct fuel; reflexivity. }
        eapply Forall2_impl; [exact Hdone'|]. intros p u [H _]. exact H.
      * destruct Hnext as (b2 & m' & save' & rest' & -> & Hm' & Hb2 & Hsb
                           & Hb2le & Hrest' & Hts' & Hshort & Hkeep).
        simpl.
        destruct (IH (At b2) (ps ++ [b]) (done ++ [t]) (t2 :: ts2) m' save' w
                    Hheap) as (ps' & m'' & Hrun & Hall).
        { eapply Forall2_impl; [exact Hdone'|].
          intros p u [H1 H2]. split; [apply Hkeep; assumption|lia]. }
        { exists t2, ts2, rest'. repeat split; try assumption. lia. }
        { rewrite Hlen'.
          change (length (t2 :: ts2)) with (S (length ts2)) in *. lia. }
        exists ps', m''. split; [exact Hrun|].
        rewrite <- app_assoc in Hall. exact Hall.
Qed.

Lemma read_tokens_filled ps ts m cap :
  Forall2 (λ p t, string_at m p = Some t) ps ts →
  read_tokens (filled ((At <$> ps) ++ [NULL]) cap) m = Some ts.
Proof.
  intros H. unfold filled.
  generalize (replicate (Z.to_nat cap - length ((At <$> ps) ++ [NULL]))%nat
                (@None ptr)).
  intros tl. induction H as [|p t ps ts Hp _ IH]; csimpl.
  - reflexivity.
  - rewrite Hp. csimpl in IH. rewrite IH. reflexivity.
Qed.

Lemma filled_lookup {A} (text : list A) cap i x :
  text !! i = Some x → filled text cap !! i = Some (Some x).
Proof.
  intros H. unfold filled. apply lookup_app_l_Some.
  rewrite list_lookup_fmap, H. reflexivity.
Qed.

(** The Tokenizer refines [tokens_of]: on a line buffer that holds the
    string [s] it returns, in an array that ends with the null sentinel,
    pointers to strings that are the tokens of [s], in order. *)
Lemma split_line_refines line s w :
  (∀ n, heap_ok n = true) →
  string_at line 0 = Some s →
  Z.of_nat (length (tokens_of qwertysh_TOK_DELIM s)) + 64 <= INT_MAX →
  ∃ ps line',
    qwertysh_split_line line w
    = Ret (Argv (filled ((At <$> ps) ++ [NULL]) (token_capacity (length ps)))
                line') w
    ∧ Forall2 (λ p t, string_at line' p = Some t)
              ps (tokens_of qwertysh_TOK_DELIM s).
Proof.
  intros Hheap Hs Hbound.
  unfold qwertysh_split_line, malloc. rewrite Hheap.
  pose proof (strtok_spec line (At 0) 0 qwertysh_TOK_DELIM 0 s eq_refl Hs)
    as Hfirst.
  pose proof (string_at_length _ _ _ Hs) as Hlen.
  assert (Hloop : ∀ fuel token line1 save,
    pending token line1 save (tokens_of qwertysh_TOK_DELIM s) fuel →
    ∃ ps line',
      (let* r := split_line_loop fuel token
                   (replicate (Z.to_nat qwertysh_TOK_BUFSIZE) None)
                   0 qwertysh_TOK_BUFSIZE line1 save in
       match r with
       | (tokens, position, line) =>
           let* tokens := store tokens position NULL in
           ret (Argv tokens line)
       end) w
      = Ret (Argv (filled ((At <$> ps) ++ [NULL])
                     (token_capacity (length ps))) line') w
      ∧ Forall2 (λ p t, string_at line' p = Some t)
                ps (tokens_of qwertysh_TOK_DELIM s)).
  { intros fuel token line1 save Hpend.
    destruct (split_line_loop_spec fuel token [] []
                (tokens_of qwertysh_TOK_DELIM s) line1 save w Hheap)
      as (ps & line' & Hrun & Hall); [constructor|exact Hpend|exact Hbound|].
    exists ps, line'. split; [|exact Hall].
    unfold bind at 1.
    change (replicate (Z.to_nat qwertysh_TOK_BUFSIZE) None)
      with (filled (At <$> []) (token_capacity (length (@nil nat)))).
    change qwertysh_TOK_BUFSIZE with (token_capacity (length (@nil nat))).
    change 0 with (Z.of_nat (length (@nil nat))) at 1.
    rewrite Hrun. unfold bind.
    pose proof (token_capacity_above (length ps)).
    rewrite store_inside
      by (rewrite filled_length by (rewrite length_fmap; lia); lia).
    rewrite Nat2Z.id, filled_store_at by (rewrite ?length_fmap; lia).
    reflexivity. }
  unfold bind at 1, lift.
  destruct (tokens_of qwertysh_TOK_DELIM s) as [|t ts] eqn:Hts.
  - destruct Hfirst as [save' ->]. apply Hloop. reflexivity.
  - destruct Hfirst as (b & line1 & save' & rest & -> & Hsame & Hb & _ & Hble
                        & Hrest & Hrts & Hshort & _).
    apply Hloop. exists t, ts, rest. repeat split; try assumption.
    lia.
Qed.

Lemma is_delim_true delim c : is_delim delim c = true ↔ c ∈ delim.
Proof.
  unfold is_delim. rewrite existsb_exists. split.
  - intros (x & Hin & Heq). apply Ascii.eqb_eq in Heq. subst x.
    apply list_elem_of_In. exact Hin.
  - intros Hin. exists c. split; [apply list_elem_of_In; exact Hin|].
    apply Ascii.eqb_refl.
Qed.

Lemma is_delim_false delim c : is_delim delim c = false ↔ c ∉ delim.
Proof.
  rewrite <- is_delim_true. destruct (is_delim delim c); split; congruence.
Qed.

(** A string of delimiters holds no token. *)
Lemma tokens_of_delimiters delim s :
  Forall (λ c, c ∈ delim) s → tokens_of delim s = [].
Proof.
  induction 1 as [|c s Hc _ IH]; [reflexivity|].
  apply is_delim_true in Hc.
  unfold tokens_of in *. simpl. rewrite Hc.
  rewrite filter_cons_False; [exact IH|]. intros H. apply H. reflexivity.
Qed.

(** C10.  On every line the Tokenizer returns an array that ends with the
    null sentinel (also when it holds no token) and whose entries before
    the sentinel are strings that are not empty and hold none of the five
    delimiter characters.  The line is a string in its buffer, short enough
    for the [int] counters. *)
Theorem split_line_tokens_wellformed line s w :
  (∀ n, heap_ok n = true) →
  string_at line 0 = Some s →
  Z.of_nat (length s) + 64 <= INT_MAX →
  ∃ args ts,
    qwertysh_split_line line w = Ret args w
    ∧ token_list args = Some ts
    ∧ a_tokens args !! length ts = Some (Some NULL)
    ∧ Forall (λ t, t ≠ [] ∧ Forall (λ c, c ∉ qwertysh_TOK_DELIM) t) ts.
Proof.
  intros Hheap Hs Hbound.
  pose proof (tokens_of_count qwertysh_TOK_DELIM s) as Hcount.
  destruct (split_line_refines line s w Hheap Hs) as (ps & line' & Hrun & Hall);
    [lia|].
  eexists _, (tokens_of qwertysh_TOK_DELIM s).
  split; [exact Hrun|]. unfold token_list. simpl.
  split; [apply read_tokens_filled; exact Hall|]. split.
  - apply filled_lookup.
    rewrite <- (Forall2_length _ _ _ Hall), <- (length_fmap At ps).
    apply list_lookup_middle. reflexivity.
  - eapply Forall_impl; [apply tokens_of_wf|].
    intros t [Hne Hno]. split; [exact Hne|].
    eapply Forall_impl; [exact Hno|].
    intros c Hc. apply is_delim_false. exact Hc.
Qed.

(** The first entry of the token array of an empty token list is the
    sentinel, and the Dispatcher then returns 1 at once. *)
Lemma execute_empty args w :
  a_tokens args !! 0%nat = Some (Some NULL) →
  qwertysh_execute args w = Ret (Value 1) w.
Proof.
  intros H. unfold qwertysh_execute, bind.
  rewrite (load_lookup _ 0 NULL) by (done || lia). reflexivity.
Qed.

(** The Tokenizer on a string without token. *)
Lemma split_line_no_token line s w :
  (∀ n, heap_ok n = true) →
  string_at line 0 = Some s →
  tokens_of qwertysh_TOK_DELIM s = [] →
  ∃ line',
    qwertysh_split_line line w
    = Ret (Argv (filled [NULL] qwertysh_TOK_BUFSIZE) line') w.
Proof.
  intros Hheap Hs Hnone.
  destruct (split_line_refines line s w Hheap Hs) as (ps & line' & Hrun & Hall).
  { rewrite Hnone. simpl. unfold INT_MAX. lia. }
  rewrite Hnone in Hall. apply Forall2_nil_inv_r in Hall. subst ps.
  exists line'. exact Hrun.
Qed.

(** C4.  On a line made of delimiters only, the empty line included, the
    Tokenizer returns an array whose first entry is the null sentinel: the
    token list is empty.  The Dispatcher then returns the continue signal 1
    and leaves the environment as it was: nothing is written, no child is
    created, the working directory is the same. *)
Theorem delimiters_only_is_no_command line s w :
  (∀ n, heap_ok n = true) →
  string_at line 0 = Some s →
  Forall (λ c, c ∈ qwertysh_TOK_DELIM) s →
  ∃ args,
    qwertysh_split_line line w = Ret args w
    ∧ a_tokens args !! 0%nat = Some (Some NULL)
    ∧ token_list args = Some []
    ∧ qwertysh_execute args w = Ret (Value 1) w.
Proof.
  intros Hheap Hs Hdelims.
  pose proof (tokens_of_delimiters _ _ Hdelims) as Hnone.
  destruct (split_line_no_token line s w Hheap Hs Hnone) as (line' & Hrun).
  eexists. split; [exact Hrun|].
  split; [reflexivity|]. split; [reflexivity|].
  apply execute_empty. reflexivity.
Qed.

(** C5.  The tokens of the line [echo  hello   world] are [echo], [hello]
    and [world], in this order, followed by the null sentinel; in general
    (see [split_line_refines]) the tokens are the pieces of the line between
    runs of delimiters that are not empty, in the order of the line. *)
Theorem split_line_echo_hello_world line w :
  (∀ n, heap_ok n = true) →
  string_at line 0 = Some (str "echo  hello   world") →
  ∃ args,
    qwertysh_split_line line w = Ret args w
    ∧ token_list args = Some [str "echo"; str "hello"; str "world"]
    ∧ a_tokens args !! 3%nat = Some (Some NULL).
Proof.
  intros Hheap Hs.
  assert (Htokens : tokens_of qwertysh_TOK_DELIM (str "echo  hello   world")
                    = [str "echo"; str "hello"; str "world"])
    by (vm_compute; reflexivity).
  destruct (split_line_refines line _ w Hheap Hs) as (ps & line' & Hrun & Hall).
  { rewrite Htokens. simpl. unfold INT_MAX. lia. }
  rewrite Htokens in Hall.
  eexists. split; [exact Hrun|]. unfold token_list. simpl.
  split; [apply read_tokens_filled; exact Hall|].
  apply filled_lookup.
  pose proof (Forall2_length _ _ _ Hall) as Hlen. simpl in Hlen.
  rewrite <- Hlen, <- (length_fmap At ps).
  apply list_lookup_middle. reflexivity.
Qed.

(** ** The Line Reader at the boundary of its buffer *)

Lemma string_at_filled text cap :
  Forall (λ c, c ≠ NUL) text →
  string_at (filled (text ++ [NUL]) cap) 0 = Some text.
Proof.
  intros Hnn. unfold filled. rewrite fmap_app, <- app_assoc. simpl.
  apply (string_at_intro [] text _ Hnn).
Qed.

(** C7.  The Line Reader asks for 1024 bytes first and for 1024 more each
    time the number of characters stored reaches the size of the buffer:
    when the allocator grants these sizes, and whatever it answers for any
    other, every line is returned in full, followed by its terminator, and
    the buffer returned has 1024 cells for a line of less than 1024
    characters, 1024 more for every 1024 characters of the line, and so 2048
    cells for a line of exactly 1024 characters and for one of exactly
    1025.  No write falls outside the buffer: the reader returns, and its
    behaviour is defined. *)
Theorem read_line_at_buffer_boundary text rest w :
  (∀ k, 1 <= k <= Z.of_nat (length text) / 1024 + 1 →
        heap_ok (1024 * k) = true) →
  w_stdin w = text ++ rest →
  LF ∉ text →
  head rest = None ∨ head rest = Some LF →
  Z.of_nat (length text) < INT_MAX - 1023 →
  ∃ buffer,
    qwertysh_read_line w = Ret buffer (with_stdin w (tail rest))
    ∧ take (length text) buffer = Some <$> text
    ∧ buffer !! length text = Some (Some NUL)
    ∧ Z.of_nat (length buffer) = 1024 * (Z.of_nat (length text) / 1024 + 1)
    ∧ ((length text < 1024)%nat → length buffer = 1024%nat)
    ∧ (length text = 1024%nat ∨ length text = 1025%nat →
       length buffer = 2048%nat).
Proof.
  intros Hheap Hin Hlf Hrest Hlen.
  assert (Hcap : capacity (length text) <= INT_MAX).
  { clear -Hlen. unfold capacity, qwertysh_RL_BUFSIZE, INT_MAX in *.
    Z.div_mod_to_equations. lia. }
  assert (Hgranted : ∀ n, (n ≤ length text)%nat → heap_ok (capacity n) = true).
  { intros n Hn. unfold capacity, qwertysh_RL_BUFSIZE. apply Hheap.
    assert (0 <= Z.of_nat n / 1024) by (apply Z.div_pos; lia).
    assert (Z.of_nat n / 1024 <= Z.of_nat (length text) / 1024)
      by (apply Z.div_le_mono; lia).
    lia. }
  assert (Hsize : Z.of_nat (length (filled (text ++ [NUL])
                                      (capacity (length text))))
                  = 1024 * (Z.of_nat (length text) / 1024 + 1)).
  { pose proof (capacity_above (length text)) as Habove.
    rewrite filled_length by (rewrite length_app; simpl; lia).
    unfold capacity, qwertysh_RL_BUFSIZE in *. lia. }
  exists (filled (text ++ [NUL]) (capacity (length text))).
  split; [apply read_line_reads_within; assumption|].
  split.
  { unfold filled. rewrite fmap_app, <- app_assoc.
    rewrite <- (length_fmap Some text). apply take_app_length. }
  split; [apply filled_lookup, list_lookup_middle; reflexivity|].
  split; [exact Hsize|]. split.
  - intros Hshort. apply Nat2Z.inj. rewrite Hsize.
    rewrite Z.div_small by lia. reflexivity.
  - intros [H|H]; apply Nat2Z.inj; rewrite Hsize, H; reflexivity.
Qed.

(** Every buffer that the Line Reader returns holds a string, and the
    string is short enough for the counters of the Tokenizer: what the
    properties of the Tokenizer assume of a line holds of every line that
    the interpreter reads. *)
Lemma cstring_terminated l tl :
  ∃ s, cstring ((Some <$> l) ++ Some NUL :: tl) = Some s
       ∧ (length s ≤ length l)%nat.
Proof.
  induction l as [|c l (s & Hs & Hlen)]; csimpl.
  - exists []. split; [reflexivity|reflexivity].
  - destruct (Ascii.eqb c NUL).
    + exists []. split; [reflexivity|simpl; lia].
    + rewrite Hs. exists (c :: s). split; [reflexivity|simpl; lia].
Qed.

Lemma read_line_loop_returns fuel : ∀ done bufsize w b w',
  Z.of_nat (length done) < bufsize →
  bufsize <= INT_MAX →
  bufsize mod qwertysh_RL_BUFSIZE = 0 →
  read_line_loop fuel (filled done bufsize)
    (Z.of_nat (length done)) bufsize w = Ret b w' →
  ∃ text cap,
    b = filled (text ++ [NUL]) cap
    ∧ Z.of_nat (length text) < cap
    ∧ cap <= INT_MAX
    ∧ cap mod qwertysh_RL_BUFSIZE = 0.
Proof.
  induction fuel as [|fuel IH]; intros done bufsize w b w' Hlt Hmax Hmod;
    [discriminate|].
  assert (Hend : ∀ w1,
    (let* buffer := store (filled done bufsize) (Z.of_nat (length done)) NUL in
     ret buffer) w1 = Ret b w' →
    ∃ text cap,
      b = filled (text ++ [NUL]) cap ∧ Z.of_nat (length text) < cap
      ∧ cap <= INT_MAX ∧ cap mod qwertysh_RL_BUFSIZE = 0).
  { intros w1. unfold bind.
    rewrite store_inside by (rewrite filled_length; lia).
    rewrite Nat2Z.id, filled_store by lia.
    intros [= <- _]. exists done, bufsize. auto. }
  simpl. unfold bind at 1. unfold getchar.
  destruct (w_stdin w) as [|a rest]; [apply Hend|].
  destruct ((int_of_char a =? EOF) || (int_of_char a =? int_of_char LF));
    [apply Hend|].
  clear Hend. unfold bind at 1.
  rewrite store_inside by (rewrite filled_length; lia).
  rewrite Nat2Z.id, filled_store by lia.
  unfold bind at 1. unfold int_add at 1.
  destruct ((INT_MIN <=? Z.of_nat (length done) + 1)
              && (Z.of_nat (length done) + 1 <=? INT_MAX)); [|discriminate].
  simpl.
  assert (Hlen : Z.of_nat (length done) + 1
                 = Z.of_nat (length (done ++ [char_of_int (int_of_char a)])))
    by (rewrite length_app; simpl; lia).
  destruct (Z.geb_spec (Z.of_nat (length done) + 1) bufsize) as [Hge|Hlt'].
  - unfold bind at 1. unfold int_add.
    destruct ((INT_MIN <=? bufsize + qwertysh_RL_BUFSIZE)
                && (bufsize + qwertysh_RL_BUFSIZE <=? INT_MAX)) eqn:E;
      [|discriminate].
    apply andb_true_iff in E as [_ E]. apply Z.leb_le in E.
    simpl. unfold realloc.
    destruct (heap_ok (bufsize + qwertysh_RL_BUFSIZE)); [|discriminate].
    rewrite filled_grow
      by (rewrite ?length_app; simpl; unfold qwertysh_RL_BUFSIZE; lia).
    rewrite Hlen. apply IH.
    + rewrite <- Hlen. unfold qwertysh_RL_BUFSIZE. lia.
    + exact E.
    + rewrite Z.add_mod, Hmod by (unfold qwertysh_RL_BUFSIZE; lia).
      reflexivity.
  - rewrite Hlen. apply IH; [rewrite <- Hlen; lia|exact Hmax|exact Hmod].
Qed.

Lemma read_line_returns_a_string w b w' :
  qwertysh_read_line w = Ret b w' →
  ∃ s, string_at b 0 = Some s ∧ Z.of_nat (length s) + 64 <= INT_MAX.
Proof.
  unfold qwertysh_read_line, malloc.
  destruct (heap_ok (1 * qwertysh_RL_BUFSIZE)); [|discriminate].
  intros H.
  destruct (read_line_loop_returns (S (length (w_stdin w))) []
              qwertysh_RL_BUFSIZE w b w')
    as (text & cap & -> & Hlt & Hmax & Hmod);
    [reflexivity|intros E; discriminate E|reflexivity|exact H|].
  unfold filled, string_at. rewrite fmap_app, <- app_assoc. simpl.
  destruct (cstring_terminated text
              (replicate (Z.to_nat cap - length (text ++ [NUL]))%nat None))
    as (s & Hs & Hlen).
  exists s. split; [exact Hs|].
  apply Nat2Z.inj_le in Hlen.
  clear -Hlt Hmax Hmod Hlen.
  unfold qwertysh_RL_BUFSIZE, INT_MAX in *. Z.div_mod_to_equations. lia.
Qed.

(** ** Main Loop *)

Lemma with_stdin_same w : with_stdin w (w_stdin w) = w.
Proof. destruct w. reflexivity. Qed.

(** One turn on a line [text]: the Dispatcher runs on the tokens of the
    line, after the prompt was written and the line taken off the input. *)
Lemma loop_body_runs text rest w :
  (∀ n, heap_ok n = true) →
  w_stdin w = text ++ rest →
  LF ∉ text →
  Forall (λ c, c ≠ NUL) text →
  head rest = None ∨ head rest = Some LF →
  capacity (length text) <= INT_MAX →
  ∃ ps line,
    loop_body w
    = qwertysh_execute
        (Argv (filled ((At <$> ps) ++ [NULL]) (token_capacity (length ps)))
              line)
        (with_stdin (prompted w) (tail rest))
    ∧ Forall2 (λ p t, string_at line p = Some t)
              ps (tokens_of qwertysh_TOK_DELIM text).
Proof.
  intros Hheap Hin Hlf Hnn Hrest Hcap.
  unfold loop_body. unfold bind at 1. unfold printf. fold (prompted w).
  unfold bind at 1.
  rewrite (read_line_reads text rest (prompted w)); try assumption.
  pose proof (string_at_filled text (capacity (length text)) Hnn) as Hs.
  destruct (split_line_refines _ text (with_stdin (prompted w) (tail rest))
              Hheap Hs) as (ps & line & Hrun & Hall).
  { pose proof (tokens_of_count qwertysh_TOK_DELIM text).
    clear -Hcap H. unfold capacity, qwertysh_RL_BUFSIZE, INT_MAX in *.
    Z.div_mod_to_equations. lia. }
  exists ps, line. split; [|exact Hall].
  unfold bind at 1. rewrite Hrun. unfold bind.
  destruct (qwertysh_execute _ _); reflexivity.
Qed.

(** At the end of the input the turn reads an empty line, finds no token
    and asks for another turn. *)
Lemma loop_body_at_eof w :
  (∀ n, heap_ok n = true) →
  w_stdin w = [] →
  loop_body w = Ret (Value 1) (prompted w).
Proof.
  intros Hheap Hin.
  assert (Hno : LF ∉ @nil ascii) by (intros H; inversion H).
  assert (Hcap : capacity (length (@nil ascii)) <= INT_MAX)
    by (intros H; discriminate H).
  destruct (loop_body_runs [] [] w Hheap Hin Hno (Forall_nil_2 _)
              (or_introl eq_refl) Hcap) as (ps & line & Hrun & Hall).
  rewrite tokens_of_nil in Hall. apply Forall2_nil_inv_r in Hall. subst ps.
  rewrite Hrun. simpl tail. rewrite execute_empty by reflexivity.
  f_equal. rewrite <- (with_stdin_same (prompted w)) at 2.
  simpl. rewrite Hin. reflexivity.
Qed.

Lemma loop_at_eof fuel : ∀ w,
  (∀ n, heap_ok n = true) →
  w_stdin w = [] →
  ∃ w', qwertysh_loop fuel w = Unfinished w' ∧ w_stdin w' = [].
Proof.
  induction fuel as [|fuel IH]; intros w Hheap Hin; simpl.
  - eauto.
  - unfold bind. rewrite loop_body_at_eof by assumption. simpl.
    apply IH; assumption.
Qed.

(** At the end of the input every turn writes the prompt and nothing
    else changes: after any number of turns the loop is still running, and
    it has written as many prompts. *)
Lemma loop_at_eof_prompts fuel : ∀ w,
  (∀ n, heap_ok n = true) →
  w_stdin w = [] →
  qwertysh_loop fuel w
  = Unfinished
      (World [] (w_stdout w ++ replicate fuel (str "QWERTYSH> "))
             (w_stderr w) (w_cwd w) (w_errno w) (w_forks w)).
Proof.
  induction fuel as [|fuel IH]; intros w Hheap Hin.
  - simpl. rewrite app_nil_r, <- Hin. destruct w; reflexivity.
  - change (qwertysh_loop (S fuel) w)
      with (bind loop_body
              (λ status, match status with
                         | NoValue => undefined
                         | Value v =>
                             if negb (v =? 0) then qwertysh_loop fuel
                             else ret tt
                         end) w).
    unfold bind. rewrite loop_body_at_eof by assumption.
    change (negb (1 =? 0)) with true. cbv iota.
    rewrite IH by assumption.
    unfold prompted. simpl. rewrite <- app_assoc. reflexivity.
Qed.

(** C8, as the code has it.  When the input is at its end at the first
    read, the Line Reader returns an empty string, not a null result; the
    token list is then empty and the Dispatcher returns the continue
    signal 1, so that the Main Loop does not end.  The turn has written the
    prompt and is followed by another turn, which finds the input at its
    end again: whatever the number of turns, the loop is still running, it
    has written one prompt in each turn and changed nothing else, and it
    never returns. *)
Theorem eof_reads_empty_line_and_loop_goes_on w :
  (∀ n, heap_ok n = true) →
  w_stdin w = [] →
  ∃ buffer args,
    qwertysh_read_line w = Ret buffer w
    ∧ string_at buffer 0 = Some []
    ∧ qwertysh_split_line buffer w = Ret args w
    ∧ token_list args = Some []
    ∧ qwertysh_execute args w = Ret (Value 1) w
    ∧ loop_body w = Ret (Value 1) (prompted w)
    ∧ (∀ fuel, qwertysh_loop (S fuel) w = qwertysh_loop fuel (prompted w))
    ∧ (∀ fuel,
         qwertysh_loop fuel w
         = Unfinished
             (World [] (w_stdout w ++ replicate fuel (str "QWERTYSH> "))
                    (w_stderr w) (w_cwd w) (w_errno w) (w_forks w)))
    ∧ ∀ fuel u w', qwertysh_loop fuel w ≠ Ret u w'.
Proof.
  intros Hheap Hin.
  assert (Hw : with_stdin w (tail []) = w)
    by (simpl; rewrite <- Hin; apply with_stdin_same).
  pose proof (read_line_reads [] [] w Hheap Hin) as Hread.
  rewrite Hw in Hread.
  pose proof (string_at_filled [] (capacity 0) (Forall_nil_2 _)) as Hs.
  destruct (split_line_no_token _ [] w Hheap Hs eq_refl) as (line' & Hsplit).
  eexists _, _.
  split.
  { apply Hread; [intros H; inversion H|left; reflexivity|].
    intros H; discriminate H. }
  split; [exact Hs|]. split; [exact Hsplit|]. split; [reflexivity|].
  split; [apply execute_empty; reflexivity|].
  split; [apply loop_body_at_eof; assumption|].
  split.
  { intros fuel. simpl. unfold bind at 1.
    rewrite loop_body_at_eof by assumption. reflexivity. }
  split; [intros fuel; apply loop_at_eof_prompts; assumption|].
  intros fuel u w' H.
  rewrite loop_at_eof_prompts in H by assumption. discriminate H.
Qed.

(** ** Which commands end the loop *)

(** Apart from [cls], whose value is missing, [exit] is the only command on
    which the Dispatcher returns the stop signal: on [exit] it returns 0
    whatever the arguments, on every other command it returns 1 whenever it
    returns. *)
Lemma execute_stops_only_on_exit args w p t :
  a_tokens args !! 0%nat = Some (Some (At p)) →
  string_at (a_line args) p = Some t →
  t ≠ str "cls" →
  (t = str "exit" → qwertysh_execute args w = Ret (Value 0) w)
  ∧ (t ≠ str "exit" →
     ∀ r w', qwertysh_execute args w = Ret r w' → r = Value 1).
Proof.
  intros H0 Hs Hcls. rewrite (execute_table args w p t H0 Hs).
  split.
  - intros ->. reflexivity.
  - intros Hexit r w'. repeat case_decide; try contradiction.
    + apply cd_returns_only_continue.
    + apply help_returns_only_continue.
    + apply launch_returns_only_continue.
Qed.

(** The same for one turn of the loop on a line: the turn ends the loop
    when the first token of the line is [exit]; when it is neither [exit]
    nor [cls], the turn asks for another one whenever it returns. *)
Lemma turn_stops_only_on_exit text rest w :
  (∀ n, heap_ok n = true) →
  w_stdin w = text ++ rest →
  LF ∉ text →
  Forall (λ c, c ≠ NUL) text →
  head rest = None ∨ head rest = Some LF →
  capacity (length text) <= INT_MAX →
  head (tokens_of qwertysh_TOK_DELIM text) ≠ Some (str "cls") →
  (head (tokens_of qwertysh_TOK_DELIM text) = Some (str "exit") →
   loop_body w = Ret (Value 0) (with_stdin (prompted w) (tail rest)))
  ∧ (head (tokens_of qwertysh_TOK_DELIM text) ≠ Some (str "exit") →
     ∀ r w', loop_body w = Ret r w' → r = Value 1).
Proof.
  intros Hheap Hin Hlf Hnn Hrest Hcap Hcls.
  destruct (loop_body_runs text rest w Hheap Hin Hlf Hnn Hrest Hcap)
    as (ps & line & -> & Hall).
  destruct Hall as [|p t ps ts Hp Hall]; simpl in *.
  - split; [discriminate|]. intros _ r w'.
    rewrite execute_empty by reflexivity. intros [= <- _]. reflexivity.
  - assert (Hne : t ≠ str "cls") by (intros ->; apply Hcls; reflexivity).
    match goal with |- context [qwertysh_execute ?a ?w1] =>
      destruct (execute_stops_only_on_exit a w1 p t eq_refl Hp Hne)
        as [Hstop Hgo] end.
    split.
    + intros [= ->]. apply Hstop. reflexivity.
    + intros Hexit. apply Hgo. intros ->. apply Hexit. reflexivity.
Qed.

(** One turn of the loop and its test. *)
Lemma qwertysh_loop_turn fuel w :
  qwertysh_loop (S fuel) w
  = match loop_body w with
    | Ret NoValue _ => Undefined
    | Ret (Value v) w' =>
        if negb (v =? 0) then qwertysh_loop fuel w' else Ret tt w'
    | Exited c w' => Exited c w'
    | Replaced w' => Replaced w'
    | Blocked w' => Blocked w'
    | Unfinished w' => Unfinished w'
    | Undefined => Undefined
    end.
Proof.
  simpl. unfold bind. destruct (loop_body w) as [[v|] w'| | | | |];
    try reflexivity.
  destruct (negb (v =? 0)); reflexivity.
Qed.

(** On a line whose first token is [cls], in every environment: the turn
    returns no value and the test of the loop is undefined. *)
Lemma turn_on_cls text rest w :
  (∀ n, heap_ok n = true) →
  w_stdin w = text ++ rest →
  LF ∉ text →
  Forall (λ c, c ≠ NUL) text →
  head rest = None ∨ head rest = Some LF →
  capacity (length text) <= INT_MAX →
  head (tokens_of qwertysh_TOK_DELIM text) = Some (str "cls") →
  (∃ w', loop_body w = Ret NoValue w')
  ∧ ∀ fuel, qwertysh_loop (S fuel) w = Undefined.
Proof.
  intros Hheap Hin Hlf Hnn Hrest Hcap Hcls.
  destruct (loop_body_runs text rest w Hheap Hin Hlf Hnn Hrest Hcap)
    as (ps & line & Hrun & Hall).
  destruct Hall as [|p t ps ts Hp Hall]; [discriminate|].
  injection Hcls as ->.
  change ["c"; "l"; "s"]%char with (str "cls") in Hp.
  match type of Hrun with _ = qwertysh_execute ?a ?w1 =>
    rewrite (execute_table a w1 p (str "cls") eq_refl Hp) in Hrun end.
  simpl in Hrun. split; [eexists; exact Hrun|].
  intros fuel. rewrite qwertysh_loop_turn, Hrun. reflexivity.
Qed.

(** * Further properties of the code *)

(** ** Reading the steps of a computation back *)

Lemma bind_Ret {A B} (m : M A) (k : A → M B) w b w' :
  bind m k w = Ret b w' → ∃ a w1, m w = Ret a w1 ∧ k a w1 = Ret b w'.
Proof.
  unfold bind. destruct (m w) as [a w1| | | | |]; try discriminate. eauto.
Qed.

Lemma store_Ret {A} (a : array A) i x w a' w' :
  store a i x w = Ret a' w' →
  w' = w ∧ a' = <[Z.to_nat i := Some x]> a ∧ 0 <= i < Z.of_nat (length a).
Proof.
  unfold store.
  destruct (0 <=? i) eqn:E1; [|discriminate].
  destruct (i <? Z.of_nat (length a)) eqn:E2; [|discriminate].
  intros [= <- <-]. apply Z.leb_le in E1. apply Z.ltb_lt in E2. auto.
Qed.

Lemma int_add_Ret a b w c w' :
  int_add a b w = Ret c w' → w' = w ∧ c = a + b ∧ a + b <= INT_MAX.
Proof.
  unfold int_add.
  destruct ((INT_MIN <=? a + b) && (a + b <=? INT_MAX)) eqn:E; [|discriminate].
  apply andb_true_iff in E as [_ E]. apply Z.leb_le in E.
  intros [= <- <-]. auto.
Qed.

Lemma lift_Ret {A} (o : option A) w x w' :
  lift o w = Ret x w' → o = Some x ∧ w' = w.
Proof. destruct o; [intros [= <- <-]; auto|discriminate]. Qed.

(** ** Line Reader, on every line *)

Lemma with_stdin_twice w l r : with_stdin (with_stdin w l) r = with_stdin w r.
Proof. reflexivity. Qed.

(** The turns of the loop that store a character without enlarging the
    buffer, whatever the allocator would answer. *)
Lemma read_line_loop_fills text : ∀ rest done fuel bufsize w,
  w_stdin w = text ++ rest →
  LF ∉ text →
  Z.of_nat (length done + length text) < bufsize →
  bufsize <= INT_MAX →
  read_line_loop (length text + fuel) (filled done bufsize)
    (Z.of_nat (length done)) bufsize w
  = read_line_loop fuel (filled (done ++ text) bufsize)
      (Z.of_nat (length (done ++ text))) bufsize (with_stdin w rest).
Proof.
  induction text as [|a text IH]; intros rest done fuel bufsize w Hin Hlf Hlt Hmax.
  - simpl in Hin. rewrite app_nil_r. simpl.
    rewrite <- Hin, with_stdin_same. reflexivity.
  - simpl in Hin, Hlt. simpl. unfold bind at 1. unfold getchar.
    rewrite Hin. simpl.
    assert (Ha : a ≠ LF) by (intros ->; apply Hlf; left).
    assert (Hlf' : LF ∉ text) by (intros H; apply Hlf; right; exact H).
    pose proof (int_of_char_range a) as Hra.
    destruct (int_of_char a =? EOF) eqn:E1;
      [apply Z.eqb_eq in E1; unfold EOF in E1; lia|].
    destruct (int_of_char a =? int_of_char LF) eqn:E2;
      [apply Z.eqb_eq, int_of_char_inj in E2; contradiction|].
    simpl. unfold bind at 1.
    rewrite store_inside by (rewrite filled_length; lia).
    rewrite Nat2Z.id, filled_store, char_of_int_of_char by lia.
    unfold bind at 1. unfold int_add.
    destruct ((INT_MIN <=? Z.of_nat (length done) + 1)
                && (Z.of_nat (length done) + 1 <=? INT_MAX)) eqn:E3.
    2:{ apply andb_false_iff in E3 as [E3|E3]; apply Z.leb_gt in E3;
          unfold INT_MIN in E3; lia. }
    simpl.
    destruct (Z.geb_spec (Z.of_nat (length done) + 1) bufsize) as [Hge|_];
      [lia|].
    specialize (IH rest (done ++ [a]) fuel bufsize
                  (with_stdin w (text ++ rest)) eq_refl Hlf').
    rewrite length_app in IH. simpl in IH.
    replace (Z.of_nat (length done) + 1)
      with (Z.of_nat (length done + 1)) by lia.
    fold (with_stdin w (text ++ rest)).
    rewrite IH by lia.
    rewrite <- app_assoc, with_stdin_twice. reflexivity.
Qed.

(** X1.  The Line Reader returns every line in full, whatever its length
    below the range of its [int] counters: the buffer holds the line as a
    string, it has 1024 cells for every 1024 characters begun, and the
    input is left at the character that follows the line feed; a last line
    that the end of the input cuts short is returned the same way. *)
Theorem read_line_returns_the_line text rest w :
  (∀ n, heap_ok n = true) →
  w_stdin w = text ++ rest →
  LF ∉ text →
  Forall (λ c, c ≠ NUL) text →
  head rest = None ∨ head rest = Some LF →
  Z.of_nat (length text) < INT_MAX - 1023 →
  ∃ buffer,
    qwertysh_read_line w = Ret buffer (with_stdin w (tail rest))
    ∧ string_at buffer 0 = Some text
    ∧ Z.of_nat (length buffer) = 1024 * (Z.of_nat (length text) / 1024 + 1).
Proof.
  intros Hheap Hin Hlf Hnn Hrest Hlen.
  assert (Hcap : capacity (length text) <= INT_MAX).
  { clear -Hlen. unfold capacity, qwertysh_RL_BUFSIZE, INT_MAX in *.
    Z.div_mod_to_equations. lia. }
  exists (filled (text ++ [NUL]) (capacity (length text))).
  split; [apply read_line_reads; assumption|].
  split; [apply string_at_filled; exact Hnn|].
  pose proof (capacity_above (length text)) as Habove.
  rewrite filled_length by (rewrite length_app; simpl; lia).
  unfold capacity, qwertysh_RL_BUFSIZE in *. lia.
Qed.

(** X2.  A null character in a line hides what follows it: the characters
    are all stored, but the string that the buffer holds, which is what the
    Tokenizer reads, stops at the first null character. *)
Theorem read_line_stops_at_null before after rest w :
  (∀ n, heap_ok n = true) →
  w_stdin w = (before ++ NUL :: after) ++ rest →
  LF ∉ before ++ NUL :: after →
  Forall (λ c, c ≠ NUL) before →
  head rest = None ∨ head rest = Some LF →
  Z.of_nat (length (before ++ NUL :: after)) < INT_MAX - 1023 →
  ∃ buffer,
    qwertysh_read_line w = Ret buffer (with_stdin w (tail rest))
    ∧ take (length (before ++ NUL :: after)) buffer
      = Some <$> (before ++ NUL :: after)
    ∧ string_at buffer 0 = Some before.
Proof.
  intros Hheap Hin Hlf Hnn Hrest Hlen.
  set (text := before ++ NUL :: after) in *.
  assert (Hcap : capacity (length text) <= INT_MAX).
  { clear -Hlen. unfold capacity, qwertysh_RL_BUFSIZE, INT_MAX in *.
    Z.div_mod_to_equations. lia. }
  exists (filled (text ++ [NUL]) (capacity (length text))).
  split; [apply read_line_reads; assumption|]. split.
  - unfold filled. rewrite fmap_app, <- app_assoc.
    rewrite <- (length_fmap Some text). apply take_app_length.
  - unfold filled, text.
    rewrite <- !app_assoc, fmap_app, <- app_assoc. simpl.
    apply (string_at_intro [] before _ Hnn).
Qed.

(** X3.  A failed allocation is fatal: when the first buffer cannot be
    allocated, and when the buffer cannot be enlarged for a line of 1024
    characters or more, the Line Reader writes its diagnostic to the error
    stream and ends the process with the failure status. *)
Theorem read_line_allocation_failure_is_fatal text rest w :
  heap_ok 1024 = false
  ∨ (heap_ok 1024 = true ∧ heap_ok 2048 = false
     ∧ w_stdin w = text ++ rest ∧ length text = 1024%nat ∧ LF ∉ text) →
  ∃ w',
    qwertysh_read_line w = Exited EXIT_FAILURE w'
    ∧ w_stderr w' = w_stderr w ++ [msg "qwertysh: allocation error"]
    ∧ w_stdout w' = w_stdout w
    ∧ w_cwd w' = w_cwd w.
Proof.
  intros [Hno | (Hfirst & Hno & Hin & Hlen & Hlf)];
    unfold qwertysh_read_line, malloc;
    change (1 * qwertysh_RL_BUFSIZE) with 1024.
  - rewrite Hno. eexists. repeat split.
  - rewrite Hfirst.
    destruct text as [|c text _] using rev_ind; [discriminate|].
    rewrite length_app in Hlen. simpl in Hlen.
    assert (Hc : c ≠ LF).
    { intros ->. apply Hlf. apply elem_of_app. right. left. }
    assert (Hlf' : LF ∉ text).
    { intros H. apply Hlf. apply elem_of_app. left. exact H. }
    rewrite <- app_assoc in Hin.
    replace (S (length (w_stdin w)))
      with (length text + S (S (length rest)))%nat
      by (rewrite Hin, length_app; simpl; lia).
    change (replicate (Z.to_nat qwertysh_RL_BUFSIZE) None)
      with (filled (@nil ascii) qwertysh_RL_BUFSIZE).
    change 0 with (Z.of_nat (length (@nil ascii))) at 1.
    rewrite (read_line_loop_fills text ([c] ++ rest) [] _ _ w Hin Hlf')
      by (unfold qwertysh_RL_BUFSIZE, INT_MAX; simpl; lia).
    simpl app. simpl read_line_loop. unfold bind at 1. unfold getchar.
    simpl.
    pose proof (int_of_char_range c) as Hrc.
    destruct (int_of_char c =? EOF) eqn:E1;
      [apply Z.eqb_eq in E1; unfold EOF in E1; lia|].
    destruct (int_of_char c =? int_of_char LF) eqn:E2;
      [apply Z.eqb_eq, int_of_char_inj in E2; contradiction|].
    simpl. unfold bind at 1.
    rewrite store_inside
      by (rewrite filled_length; unfold qwertysh_RL_BUFSIZE; lia).
    unfold bind at 1. unfold int_add.
    destruct ((INT_MIN <=? Z.of_nat (length text) + 1)
                && (Z.of_nat (length text) + 1 <=? INT_MAX)) eqn:E3.
    2:{ apply andb_false_iff in E3 as [E3|E3]; apply Z.leb_gt in E3;
          unfold INT_MIN, INT_MAX in E3; lia. }
    simpl.
    destruct (Z.geb_spec (Z.of_nat (length text) + 1) qwertysh_RL_BUFSIZE)
      as [_|Hlt]; [|unfold qwertysh_RL_BUFSIZE in Hlt; lia].
    unfold bind at 1. unfold int_add, realloc.
    change (qwertysh_RL_BUFSIZE + qwertysh_RL_BUFSIZE) with 2048.
    simpl. rewrite Hno. eexists. repeat split.
Qed.

(** ** Tokenizer, on every line *)

Lemma tokens_of_app_delims delim g x :
  Forall (λ c, c ∈ delim) g → tokens_of delim (g ++ x) = tokens_of delim x.
Proof.
  induction 1 as [|c g Hc _ IH]; [reflexivity|].
  apply is_delim_true in Hc.
  unfold tokens_of in *. simpl. rewrite Hc.
  rewrite filter_cons_False; [exact IH|]. intros H. apply H. reflexivity.
Qed.

Lemma strcspn_app t x delim :
  Forall (λ c, c ∉ delim) t →
  strcspn (t ++ x) delim = (length t + strcspn x delim)%nat.
Proof.
  induction 1 as [|c t Hc _ IH]; [reflexivity|].
  apply is_delim_false in Hc. simpl. rewrite Hc, IH. reflexivity.
Qed.

(** A token at the head of a line, followed by a delimiter or by the end
    of the line. *)
Lemma tokens_of_token_app delim t x :
  t ≠ [] →
  Forall (λ c, c ∉ delim) t →
  match x with [] => True | d :: _ => d ∈ delim end →
  tokens_of delim (t ++ x) = t :: tokens_of delim (drop 1 x).
Proof.
  intros Hne Hfree Hx.
  assert (Hn : strcspn (t ++ x) delim = length t).
  { rewrite strcspn_app by exact Hfree.
    destruct x as [|d x]; simpl; [lia|].
    apply is_delim_true in Hx. rewrite Hx. lia. }
  rewrite tokens_of_token by (rewrite Hn; destruct t; [done|simpl; lia]).
  rewrite Hn, take_app_length. f_equal.
  rewrite <- (Nat.add_1_r (length t)), <- drop_drop, drop_app_length.
  reflexivity.
Qed.

(** Cutting a well-formed line gives back the tokens it was written
    from. *)
Lemma tokens_of_spaced delim lead pairs :
  Forall (λ c, c ∈ delim) lead →
  well_spaced delim pairs →
  tokens_of delim (lead ++ spaced pairs) = pairs.*1.
Proof.
  intros Hlead. rewrite tokens_of_app_delims by exact Hlead. clear lead Hlead.
  induction pairs as [|[t sep] pairs IH]; [reflexivity|].
  intros (Hne & Hfree & Hsep & Hlast & Hrest). simpl.
  rewrite tokens_of_token_app; [| exact Hne | exact Hfree |].
  - f_equal. destruct Hsep as [|d sep Hd Hsep]; simpl.
    + rewrite (Hlast eq_refl). reflexivity.
    + rewrite drop_0, tokens_of_app_delims by exact Hsep. apply IH, Hrest.
  - destruct Hsep as [|d sep Hd Hsep]; simpl.
    + rewrite (Hlast eq_refl). exact I.
    + exact Hd.
Qed.

(** X4.  The Tokenizer computes the tokens of the line: the entries of the
    array it returns point, in the order of the line, to the pieces of the
    line between delimiters that are not empty; the entry after the last
    token is the null sentinel, and the array has 64 entries for every 64
    tokens begun. *)
Theorem split_line_computes_the_tokens line s w :
  (∀ n, heap_ok n = true) →
  string_at line 0 = Some s →
  Z.of_nat (length s) + 64 <= INT_MAX →
  ∃ args,
    qwertysh_split_line line w = Ret args w
    ∧ token_list args = Some (tokens_of qwertysh_TOK_DELIM s)
    ∧ a_tokens args !! length (tokens_of qwertysh_TOK_DELIM s)
      = Some (Some NULL)
    ∧ Z.of_nat (length (a_tokens args))
      = 64 * (Z.of_nat (length (tokens_of qwertysh_TOK_DELIM s)) / 64 + 1).
Proof.
  intros Hheap Hs Hbound.
  pose proof (tokens_of_count qwertysh_TOK_DELIM s) as Hcount.
  destruct (split_line_refines line s w Hheap Hs) as (ps & line' & Hrun & Hall);
    [lia|].
  pose proof (Forall2_length _ _ _ Hall) as Hlen.
  eexists. split; [exact Hrun|]. unfold token_list. simpl.
  split; [apply read_tokens_filled; exact Hall|]. split.
  - apply filled_lookup. rewrite <- Hlen, <- (length_fmap At ps).
    apply list_lookup_middle. reflexivity.
  - pose proof (token_capacity_above (length ps)) as Habove.
    rewrite filled_length
      by (rewrite length_app, length_fmap; simpl; lia).
    rewrite <- Hlen. unfold token_capacity, qwertysh_TOK_BUFSIZE in *. lia.
Qed.

(** X5.  Writing then cutting is a round trip: on a line written from
    tokens, with any run of delimiters before the first token and between
    two tokens, and any run or none after the last, the Tokenizer returns
    these tokens, in order. *)
Theorem split_line_of_spaced_tokens line lead pairs w :
  (∀ n, heap_ok n = true) →
  string_at line 0 = Some (lead ++ spaced pairs) →
  Forall (λ c, c ∈ qwertysh_TOK_DELIM) lead →
  well_spaced qwertysh_TOK_DELIM pairs →
  Z.of_nat (length (lead ++ spaced pairs)) + 64 <= INT_MAX →
  ∃ args,
    qwertysh_split_line line w = Ret args w
    ∧ token_list args = Some pairs.*1.
Proof.
  intros Hheap Hs Hlead Hwell Hbound.
  pose proof (tokens_of_count qwertysh_TOK_DELIM (lead ++ spaced pairs))
    as Hcount.
  destruct (split_line_refines line _ w Hheap Hs) as (ps & line' & Hrun & Hall);
    [lia|].
  rewrite (tokens_of_spaced _ _ _ Hlead Hwell) in Hall.
  eexists. split; [exact Hrun|].
  unfold token_list. simpl. apply read_tokens_filled. exact Hall.
Qed.

(** ** What the Tokenizer writes in the line *)

Lemma cut_at_delims_refl delim m : cut_at_delims delim m m.
Proof. split; [reflexivity|]. intros i. left. reflexivity. Qed.

Lemma cut_at_delims_trans delim m1 m2 m3 :
  NUL ∉ delim →
  cut_at_delims delim m1 m2 → cut_at_delims delim m2 m3 →
  cut_at_delims delim m1 m3.
Proof.
  intros Hnul [Hl12 H12] [Hl23 H23]. split; [congruence|].
  intros i. destruct (H23 i) as [E|(E & c & Hc & Hd)].
  - rewrite E. apply H12.
  - destruct (H12 i) as [E'|(E' & _)].
    + right. split; [exact E|]. exists c. rewrite <- E'. auto.
    + rewrite E' in Hc. injection Hc as <-. contradiction.
Qed.

Lemma string_at_lookup m p s i c :
  string_at m p = Some s → s !! i = Some c →
  m !! (p + i)%nat = Some (Some c).
Proof.
  intros Hs Hi. destruct (string_at_inv _ _ _ Hs) as (post & Hm & Hp & _).
  rewrite Hm. rewrite <- Hp at 1. rewrite lookup_app_r by lia.
  rewrite Nat.add_comm, Nat.add_sub.
  apply lookup_app_l_Some. rewrite list_lookup_fmap, Hi. reflexivity.
Qed.

(** After the token comes a delimiter. *)
Lemma drop_strcspn_head s delim c r :
  drop (strcspn s delim) s = c :: r → is_delim delim c = true.
Proof.
  induction s as [|a s IH]; simpl; [discriminate|].
  destruct (is_delim delim a) eqn:E; simpl; [|exact IH].
  intros [= <- _]. exact E.
Qed.

(** A call of [strtok] writes at most one terminator, over a delimiter. *)
Lemma strtok_cuts m sp save delim token m' save' :
  strtok m sp save delim = Some (token, m', save') →
  cut_at_delims delim m m'.
Proof.
  unfold strtok.
  set (start := match sp with NULL => save | At p => p end).
  destruct (string_at m start) as [text|] eqn:Hs; [|discriminate].
  set (k := strspn text delim).
  destruct (drop k text) as [|c0 r] eqn:Hd.
  { intros [= _ <- _]. apply cut_at_delims_refl. }
  set (n := strcspn (c0 :: r) delim).
  destruct (n <? length (c0 :: r))%nat eqn:E.
  2:{ intros [= _ <- _]. apply cut_at_delims_refl. }
  apply Nat.ltb_lt in E. intros [= _ <- _].
  destruct (lookup_lt_is_Some_2 (c0 :: r) n E) as [d Hn].
  assert (Hdel : d ∈ delim).
  { apply is_delim_true. apply (drop_strcspn_head (c0 :: r) delim d
                                  (drop (S n) (c0 :: r))).
    fold n. apply drop_S. exact Hn. }
  assert (Hcell : m !! (start + k + n)%nat = Some (Some d)).
  { rewrite <- Nat.add_assoc. apply (string_at_lookup m start text); [exact Hs|].
    rewrite <- lookup_drop, Hd. exact Hn. }
  split; [apply length_insert|].
  intros i. destruct (decide (i = start + k + n)%nat) as [->|Hne].
  - right. split; [|eauto].
    apply list_lookup_insert_eq. eapply lookup_lt_Some. exact Hcell.
  - left. apply list_lookup_insert_ne. congruence.
Qed.

Lemma delimiters_are_not_null : NUL ∉ qwertysh_TOK_DELIM.
Proof.
  unfold qwertysh_TOK_DELIM. rewrite !elem_of_cons, elem_of_nil.
  intros [H|[H|[H|[H|[H|[]]]]]]; discriminate H.
Qed.

Lemma alloc_error_is_no_return {A} w (a : A) w' :
  (fprintf_stderr (msg "qwertysh: allocation error") ;; exit EXIT_FAILURE) w
  ≠ Ret a w'.
Proof. discriminate. Qed.

(** Whenever the loop of the Tokenizer returns, it wrote nothing in the
    line but terminators over delimiters, and did not touch the
    environment. *)
Lemma split_line_loop_cuts fuel :
  ∀ token tokens position bufsize m save w tokens' position' m' w',
  split_line_loop fuel token tokens position bufsize m save w
  = Ret (tokens', position', m') w' →
  cut_at_delims qwertysh_TOK_DELIM m m' ∧ w' = w.
Proof.
  induction fuel as [|fuel IH];
    intros token tokens position bufsize m save w tokens' position' m' w' H.
  - destruct token; [|discriminate].
    injection H as <- <- <- <-. split; [apply cut_at_delims_refl|reflexivity].
  - destruct token as [|b].
    { injection H as <- <- <- <-.
      split; [apply cut_at_delims_refl|reflexivity]. }
    simpl in H.
    apply bind_Ret in H as (tokens1 & w1 & Hstore & H).
    apply store_Ret in Hstore as (-> & _ & _).
    apply bind_Ret in H as (position1 & w1 & Hadd & H).
    apply int_add_Ret in Hadd as (-> & _ & _).
    assert (Hnext : ∀ tokens2 bufsize2,
      (let* r := lift (strtok m NULL save qwertysh_TOK_DELIM) in
       match r with
       | (token, line, save) =>
           split_line_loop fuel token tokens2 position1 bufsize2 line save
       end) w = Ret (tokens', position', m') w' →
      cut_at_delims qwertysh_TOK_DELIM m m' ∧ w' = w).
    { intros tokens2 bufsize2 Hn.
      apply bind_Ret in Hn as ([[token1 line1] save1] & w1 & Hlift & Hn).
      apply lift_Ret in Hlift as (Htok & ->).
      apply IH in Hn as (Hcut & ->). split; [|reflexivity].
      eapply cut_at_delims_trans;
        [apply delimiters_are_not_null|eapply strtok_cuts; exact Htok|exact Hcut]. }
    destruct (position1 >=? bufsize).
    + apply bind_Ret in H as (bufsize1 & w1 & Hadd & H).
      apply int_add_Ret in Hadd as (-> & _ & _).
      destruct (realloc tokens1 bufsize1 (bufsize1 * sizeof_ptr)).
      * eapply Hnext. exact H.
      * apply alloc_error_is_no_return in H. destruct H.
    + eapply Hnext. exact H.
Qed.

Lemma split_line_cuts line w args w' :
  qwertysh_split_line line w = Ret args w' →
  cut_at_delims qwertysh_TOK_DELIM line (a_line args) ∧ w' = w.
Proof.
  unfold qwertysh_split_line. intros H.
  destruct (malloc qwertysh_TOK_BUFSIZE (qwertysh_TOK_BUFSIZE * sizeof_ptr))
    as [tokens|]; [|apply alloc_error_is_no_return in H; destruct H].
  apply bind_Ret in H as ([[token1 line1] save1] & w1 & Hlift & H).
  apply lift_Ret in Hlift as (Htok & ->).
  apply bind_Ret in H as ([[tokens2 position2] line2] & w2 & Hloop & H).
  apply split_line_loop_cuts in Hloop as (Hcut & ->).
  apply bind_Ret in H as (tokens3 & w3 & Hstore & H).
  apply store_Ret in Hstore as (-> & _ & _).
  injection H as <- <-. simpl. split; [|reflexivity].
  eapply cut_at_delims_trans;
    [apply delimiters_are_not_null|eapply strtok_cuts; exact Htok|exact Hcut].
Qed.

(** X6.  The Tokenizer cuts the line in place: the buffer it returns with
    the token array is the buffer it was given, of the same size, where
    nothing changed but delimiters that became terminators; every other
    cell, written or not, is as it was. *)
Theorem split_line_writes_only_terminators line s w :
  (∀ n, heap_ok n = true) →
  string_at line 0 = Some s →
  Z.of_nat (length s) + 64 <= INT_MAX →
  ∃ args,
    qwertysh_split_line line w = Ret args w
    ∧ length (a_line args) = length line
    ∧ ∀ i, a_line args !! i = line !! i
           ∨ (a_line args !! i = Some (Some NUL)
              ∧ ∃ c, line !! i = Some (Some c) ∧ c ∈ qwertysh_TOK_DELIM).
Proof.
  intros Hheap Hs Hbound.
  pose proof (tokens_of_count qwertysh_TOK_DELIM s) as Hcount.
  destruct (split_line_refines line s w Hheap Hs) as (ps & line' & Hrun & _);
    [lia|].
  eexists. split; [exact Hrun|].
  apply split_line_cuts in Hrun as [[Hlen Hcells] _]. auto.
Qed.

(** ** The line after the Tokenizer *)

Lemma take_strspn_delims s delim :
  Forall (λ c, c ∈ delim) (take (strspn s delim) s).
Proof.
  induction s as [|a s IH]; simpl; [constructor|].
  destruct (is_delim delim a) eqn:E; simpl; constructor; [|exact IH].
  apply is_delim_true. exact E.
Qed.

(** A call of [strtok] leaves the strings that end before its starting
    point as they are, and moves its static pointer forward. *)
Lemma strtok_keeps m sp save delim token m' save' :
  strtok m sp save delim = Some (token, m', save') →
  (match sp with NULL => save | At p => p end ≤ save')%nat
  ∧ ∀ q u, string_at m q = Some u →
           (q + length u ≤ match sp with NULL => save | At p => p end)%nat →
           string_at m' q = Some u.
Proof.
  unfold strtok.
  set (start := match sp with NULL => save | At p => p end).
  destruct (string_at m start) as [text|] eqn:Hs; [|discriminate].
  set (k := strspn text delim).
  destruct (drop k text) as [|c0 r] eqn:Hd.
  { intros [= _ <- <-]. split; [lia|auto]. }
  assert (Hpos : (0 < strcspn (c0 :: r) delim)%nat).
  { simpl. rewrite (drop_strspn_head _ _ _ _ Hd). lia. }
  set (n := strcspn (c0 :: r) delim) in *.
  destruct (n <? length (c0 :: r))%nat.
  - intros [= _ <- <-]. split; [lia|].
    intros q u Hq Hle. apply string_at_insert_after; [exact Hq|lia].
  - intros [= _ <- <-]. split; [lia|auto].
Qed.

Lemma split_line_loop_keeps fuel :
  ∀ token tokens position bufsize m save w tokens' position' m' w',
  split_line_loop fuel token tokens position bufsize m save w
  = Ret (tokens', position', m') w' →
  ∀ q u, string_at m q = Some u → (q + length u ≤ save)%nat →
         string_at m' q = Some u.
Proof.
  induction fuel as [|fuel IH];
    intros token tokens position bufsize m save w tokens' position' m' w' H.
  - destruct token; [|discriminate]. injection H as <- <- <- <-. auto.
  - destruct token as [|b]; [injection H as <- <- <- <-; auto|].
    simpl in H.
    apply bind_Ret in H as (tokens1 & w1 & _ & H).
    apply bind_Ret in H as (position1 & w2 & _ & H).
    assert (Hnext : ∀ tokens2 bufsize2 w3,
      (let* r := lift (strtok m NULL save qwertysh_TOK_DELIM) in
       match r with
       | (token, line, save) =>
           split_line_loop fuel token tokens2 position1 bufsize2 line save
       end) w3 = Ret (tokens', position', m') w' →
      ∀ q u, string_at m q = Some u → (q + length u ≤ save)%nat →
             string_at m' q = Some u).
    { intros tokens2 bufsize2 w3 Hn q u Hq Hle.
      apply bind_Ret in Hn as ([[token1 line1] save1] & w4 & Hlift & Hn).
      apply lift_Ret in Hlift as (Htok & ->).
      apply strtok_keeps in Htok as [Hsave Hkeep].
      eapply IH; [exact Hn|apply Hkeep; assumption|lia]. }
    destruct (position1 >=? bufsize).
    + apply bind_Ret in H as (bufsize1 & w3 & _ & H).
      destruct (realloc tokens1 bufsize1 (bufsize1 * sizeof_ptr)).
      * eapply Hnext. exact H.
      * apply alloc_error_is_no_return in H. destruct H.
    + eapply Hnext. exact H.
Qed.

(** After the first call of [strtok] the line, read from its start, ends
    with its first token. *)
Lemma strtok_first_string m s delim token m1 save1 :
  string_at m 0 = Some s →
  strtok m (At 0) 0 delim = Some (token, m1, save1) →
  ∃ s1, string_at m1 0 = Some s1
        ∧ (length s1 ≤ save1)%nat
        ∧ tokens_of delim s1 = take 1 (tokens_of delim s).
Proof.
  intros Hs. unfold strtok. rewrite Hs.
  pose proof (strspn_le s delim) as Hk.
  pose proof (take_strspn_delims s delim) as Hg.
  set (k := strspn s delim) in *.
  destruct (drop k s) as [|c0 r] eqn:Hd.
  { intros [= _ <- <-]. exists s. split; [exact Hs|].
    assert (Hlen : length (drop k s) = 0%nat) by (rewrite Hd; reflexivity).
    rewrite length_drop in Hlen. split; [lia|].
    rewrite <- (tokens_of_skip delim s). fold k. rewrite Hd. reflexivity. }
  assert (Hsplit : s = take k s ++ c0 :: r)
    by (rewrite <- Hd; symmetry; apply take_drop).
  assert (Hlen : length s = (k + length (c0 :: r))%nat).
  { rewrite Hsplit at 1. rewrite length_app, length_take. lia. }
  pose proof (strcspn_le (c0 :: r) delim) as Hn.
  assert (Hpos : (0 < strcspn (c0 :: r) delim)%nat).
  { simpl. rewrite (drop_strspn_head _ _ _ _ Hd). lia. }
  pose proof (take_strcspn_no_delim (c0 :: r) delim) as Hfree.
  set (n := strcspn (c0 :: r) delim) in *.
  set (t := take n (c0 :: r)) in *.
  assert (Hfree' : Forall (λ c, c ∉ delim) t).
  { eapply Forall_impl; [exact Hfree|]. intros c Hc.
    apply is_delim_false. exact Hc. }
  assert (Hne : t ≠ []).
  { intros H. apply (f_equal length) in H. unfold t in H.
    rewrite length_take in H. simpl in H. lia. }
  assert (Hall : tokens_of delim s
                 = t :: tokens_of delim (drop 1 (drop n (c0 :: r)))).
  { rewrite Hsplit, tokens_of_app_delims by exact Hg.
    rewrite <- (take_drop n (c0 :: r)) at 1. fold t.
    apply tokens_of_token_app; [exact Hne|exact Hfree'|].
    destruct (drop n (c0 :: r)) as [|d x] eqn:Hx; [exact I|].
    apply is_delim_true. eapply drop_strcspn_head. exact Hx. }
  assert (Hone : tokens_of delim (take k s ++ t) = [t]).
  { rewrite tokens_of_app_delims by exact Hg.
    rewrite <- (app_nil_r t) at 1.
    rewrite tokens_of_token_app; [reflexivity|exact Hne|exact Hfree'|exact I]. }
  destruct (n <? length (c0 :: r))%nat eqn:E.
  - apply Nat.ltb_lt in E. intros [= _ <- <-].
    destruct (string_at_cut m 0 s (k + n) Hs) as [Hcut _]; [lia|].
    exists (take (k + n) s). split; [exact Hcut|].
    split; [rewrite length_take; lia|].
    rewrite Hall. change (take 1 (t :: ?l)) with [t].
    rewrite <- Hone. f_equal.
    rewrite Hsplit at 1.
    rewrite take_app_add' by (rewrite length_take; lia). reflexivity.
  - apply Nat.ltb_ge in E. intros [= _ <- <-].
    exists s. split; [exact Hs|]. split; [simpl; lia|].
    rewrite Hall, (drop_ge (c0 :: r) n) by lia. reflexivity.
Qed.

Lemma split_line_leaves_first_token line s w args w' :
  string_at line 0 = Some s →
  qwertysh_split_line line w = Ret args w' →
  ∃ s1, string_at (a_line args) 0 = Some s1
        ∧ tokens_of qwertysh_TOK_DELIM s1
          = take 1 (tokens_of qwertysh_TOK_DELIM s).
Proof.
  intros Hs. unfold qwertysh_split_line. intros H.
  destruct (malloc qwertysh_TOK_BUFSIZE (qwertysh_TOK_BUFSIZE * sizeof_ptr))
    as [tokens|]; [|apply alloc_error_is_no_return in H; destruct H].
  apply bind_Ret in H as ([[token1 line1] save1] & w1 & Hlift & H).
  apply lift_Ret in Hlift as (Htok & ->).
  apply bind_Ret in H as ([[tokens2 position2] line2] & w2 & Hloop & H).
  apply bind_Ret in H as (tokens3 & w3 & _ & H).
  injection H as <- <-. simpl.
  destruct (strtok_first_string _ _ _ _ _ _ Hs Htok) as (s1 & Hs1 & Hle & Hts).
  exists s1. split; [|exact Hts].
  eapply split_line_loop_keeps; [exact Hloop|exact Hs1|simpl; lia].
Qed.

(** X7.  The Tokenizer uses up the line: the first terminator it writes
    ends the line after the first token, so that a second pass over the
    buffer finds the first token and no other. *)
Theorem split_line_twice_finds_first_token line s w :
  (∀ n, heap_ok n = true) →
  string_at line 0 = Some s →
  Z.of_nat (length s) + 64 <= INT_MAX →
  ∃ args ts again,
    qwertysh_split_line line w = Ret args w
    ∧ token_list args = Some ts
    ∧ qwertysh_split_line (a_line args) w = Ret again w
    ∧ token_list again = Some (take 1 ts).
Proof.
  intros Hheap Hs Hbound.
  pose proof (tokens_of_count qwertysh_TOK_DELIM s) as Hcount.
  destruct (split_line_refines line s w Hheap Hs) as (ps & line' & Hrun & Hall);
    [lia|].
  destruct (split_line_leaves_first_token _ _ _ _ _ Hs Hrun)
    as (s1 & Hs1 & Hts1).
  simpl in Hs1.
  destruct (split_line_refines line' s1 w Hheap Hs1)
    as (ps2 & line2 & Hrun2 & Hall2).
  { rewrite Hts1, length_take. unfold INT_MAX. lia. }
  eexists _, (tokens_of qwertysh_TOK_DELIM s), _.
  split; [exact Hrun|]. unfold token_list. simpl.
  split; [apply read_tokens_filled; exact Hall|].
  split; [exact Hrun2|]. simpl.
  rewrite <- Hts1. apply read_tokens_filled. exact Hall2.
Qed.

(** ** Built-ins, Launcher and Dispatcher: what they do to the
    environment *)

Lemma load_Ret {A} (a : array A) i x w w' :
  load a i w = Ret x w' → w' = w ∧ a !! Z.to_nat i = Some (Some x).
Proof.
  unfold load. destruct (0 <=? i); [|discriminate].
  destruct (a !! Z.to_nat i) as [[y|]|]; try discriminate.
  intros [= <- <-]. auto.
Qed.

(** X8.  [cd] with a directory that [chdir] accepts makes it the working
    directory, writes nothing and returns 1; it reads no token after the
    directory. *)
Theorem cd_changes_directory args w p path dir :
  a_tokens args !! 1%nat = Some (Some (At p)) →
  string_at (a_line args) p = Some path →
  sys_chdir w path = inl dir →
  qwertysh_cd args w
  = Ret (Value 1)
        (World (w_stdin w) (w_stdout w) (w_stderr w) dir
               (w_errno w) (w_forks w)).
Proof.
  intros H1 Hs Hc. unfold qwertysh_cd, bind.
  rewrite (load_lookup _ 1 (At p)) by (done || lia).
  rewrite Hs. simpl. unfold chdir. rewrite Hc. reflexivity.
Qed.

(** [execvp] is given the first token as the file and all the tokens as
    the argument vector. *)
Lemma execvp_runs args w t ts :
  token_list args = Some (t :: ts) →
  execvp args w
  = match sys_execvp w t (t :: ts) with
    | None => Replaced w
    | Some e =>
        Ret (-1) (World (w_stdin w) (w_stdout w) (w_stderr w)
                        (w_cwd w) e (w_forks w))
    end.
Proof.
  intros Hts. unfold execvp, bind.
  assert (H0 : ∃ p, a_tokens args !! 0%nat = Some (Some (At p))
                    ∧ string_at (a_line args) p = Some t).
  { unfold token_list in Hts.
    destruct (a_tokens args) as [|[[|p]|] tl]; try discriminate.
    simpl in Hts.
    destruct (string_at (a_line args) p) as [t'|] eqn:Hs'; [|discriminate].
    destruct (read_tokens tl (a_line args)); [|discriminate].
    injection Hts as -> _. exists p. split; [reflexivity|exact Hs']. }
  destruct H0 as (p & H0 & Hs).
  rewrite (load_lookup _ 0 (At p)) by (done || lia).
  rewrite Hs, Hts. simpl.
  destruct (sys_execvp w t (t :: ts)); reflexivity.
Qed.

(** X9.  In the child the Launcher never returns: it runs the program
    named by the first token, with all the tokens as its arguments, the
    name included; when that fails it reports the error and ends the
    child with the failure status. *)
Theorem launch_in_child args w t ts :
  sys_fork w = InChild →
  token_list args = Some (t :: ts) →
  qwertysh_launch args w
  = match sys_execvp w t (t :: ts) with
    | None => Replaced w
    | Some e =>
        Exited EXIT_FAILURE
          (World (w_stdin w) (w_stdout w)
                 (w_stderr w ++ [str "qwertysh: " ++ strerror e ++ [LF]])
                 (w_cwd w) e (w_forks w))
    end.
Proof.
  intros Hf Hts. unfold qwertysh_launch, bind at 1, fork. rewrite Hf.
  simpl. unfold bind at 1. rewrite (execvp_runs args w t ts Hts).
  destruct (sys_execvp w t (t :: ts)); reflexivity.
Qed.

Lemma wait_loop_blocks reports input w :
  ¬ child_ends reports → wait_loop reports input w = Blocked w.
Proof.
  induction reports as [|status reports IH]; intros Hno; [reflexivity|].
  simpl.
  destruct (WIFEXITED status) eqn:E1.
  { destruct Hno. apply Exists_cons_hd. auto. }
  destruct (WIFSIGNALED status) eqn:E2.
  { destruct Hno. apply Exists_cons_hd. auto. }
  simpl. apply IH. intros H. apply Hno. apply Exists_cons_tl. exact H.
Qed.

(** X10.  In the parent the Launcher waits for the end of the child: it
    returns 1 once a report says that the child exited or was killed, and
    as long as the reports only say that it stopped, it keeps waiting.  It
    writes nothing and does not read its arguments; when it returns, the
    standard input is as the child left it. *)
Theorem launch_in_parent args w pid reports input :
  sys_fork w = InParent pid reports input →
  (child_ends reports →
   qwertysh_launch args w
   = Ret (Value 1)
         (World input (w_stdout w) (w_stderr w)
                (w_cwd w) (w_errno w) (S (w_forks w))))
  ∧ (¬ child_ends reports →
     qwertysh_launch args w
     = Blocked
         (World (w_stdin w) (w_stdout w) (w_stderr w)
                (w_cwd w) (w_errno w) (S (w_forks w)))).
Proof.
  intros Hf.
  split; intros H; unfold qwertysh_launch, bind at 1, fork; rewrite Hf; simpl;
    unfold bind.
  - match goal with |- context [wait_loop reports input ?w1] =>
      destruct (wait_loop_ends reports input w1 H) as [status ->] end.
    reflexivity.
  - rewrite wait_loop_blocks by exact H. reflexivity.
Qed.

Lemma cd_frame args w v w' :
  qwertysh_cd args w = Ret v w' →
  w_stdin w' = w_stdin w ∧ w_forks w' = w_forks w.
Proof.
  unfold qwertysh_cd. intros H.
  apply bind_Ret in H as (dir & w1 & Hload & H).
  apply load_Ret in Hload as (-> & _).
  destruct dir as [|p].
  - injection H as _ <-. auto.
  - apply bind_Ret in H as (path & w1 & Hlift & H).
    apply lift_Ret in Hlift as (_ & ->).
    unfold bind, chdir in H.
    destruct (sys_chdir w path); simpl in H; injection H as _ <-; auto.
Qed.

Lemma help_frame args w v w' :
  qwertysh_help args w = Ret v w' →
  w_stdin w' = w_stdin w ∧ w_forks w' = w_forks w.
Proof.
  unfold qwertysh_help, bind, printf, ret. simpl. intros [= _ <-]. auto.
Qed.

Lemma wait_loop_returned reports input w status w' :
  wait_loop reports input w = Ret status w' →
  child_ends reports ∧ w' = with_stdin w input.
Proof.
  induction reports as [|st reports IH]; simpl; [discriminate|].
  destruct (WIFEXITED st) eqn:E1; simpl.
  - intros [= _ <-]. split; [apply Exists_cons_hd; auto|reflexivity].
  - destruct (WIFSIGNALED st) eqn:E2; simpl.
    + intros [= _ <-]. split; [apply Exists_cons_hd; auto|reflexivity].
    + intros H. apply IH in H as [H ->].
      split; [apply Exists_cons_tl; exact H|reflexivity].
Qed.

(** When the Launcher returns, either no child was created and the input
    is as it was, or one child was, which has ended, and the input is as
    the child left it. *)
Lemma launch_frame args w v w' :
  qwertysh_launch args w = Ret v w' →
  (w_forks w' = w_forks w ∧ w_stdin w' = w_stdin w)
  ∨ (w_forks w' = S (w_forks w)
     ∧ ∃ pid reports input,
         sys_fork w = InParent pid reports input
         ∧ child_ends reports
         ∧ w_stdin w' = input).
Proof.
  unfold qwertysh_launch, bind at 1, fork.
  destruct (sys_fork w) as [e| |pid reports input]; simpl.
  - intros [= _ <-]. auto.
  - unfold bind. destruct (execvp args w) as [r w1| | | | |];
      try discriminate.
    destruct (r =? -1); discriminate.
  - unfold bind.
    match goal with |- context [wait_loop reports input ?w1] =>
      destruct (wait_loop reports input w1) as [st w2| | | | |] eqn:Hw end;
      try discriminate.
    apply wait_loop_returned in Hw as [Hends ->].
    intros [= _ <-]. right. split; [reflexivity|].
    exists pid, reports, input. auto.
Qed.

(** X11.  Whatever the command, the Dispatcher and what it calls read
    nothing from the input, and one child at most is created: when the
    Dispatcher returns, either no child was created and the input is as it
    was, or one was, which has ended, and the input is as that child left
    it.  For an empty command and for the name of a built-in no child is
    created. *)
Theorem execute_creates_one_child_at_most args w v w' :
  qwertysh_execute args w = Ret v w' →
  ((w_forks w' = w_forks w ∧ w_stdin w' = w_stdin w)
   ∨ (w_forks w' = S (w_forks w)
      ∧ ∃ pid reports input,
          sys_fork w = InParent pid reports input
          ∧ child_ends reports
          ∧ w_stdin w' = input))
  ∧ (a_tokens args !! 0%nat = Some (Some NULL) →
     w_forks w' = w_forks w ∧ w_stdin w' = w_stdin w)
  ∧ (∀ p t, a_tokens args !! 0%nat = Some (Some (At p)) →
            string_at (a_line args) p = Some t →
            t ∈ builtin_str →
            w_forks w' = w_forks w ∧ w_stdin w' = w_stdin w).
Proof.
  intros H.
  assert (Hload := H). unfold qwertysh_execute in Hload.
  apply bind_Ret in Hload as (arg0 & w1 & Hload & Hscan).
  apply load_Ret in Hload as (-> & H0).
  change (Z.to_nat 0) with 0%nat in H0.
  destruct arg0 as [|p].
  { injection Hscan as _ <-.
    split; [auto|]. split; [auto|]. intros; congruence. }
  destruct (string_at (a_line args) p) as [t|] eqn:Hs.
  2:{ unfold qwertysh_num_builtins in Hscan. simpl in Hscan.
      unfold bind in Hscan. rewrite Hs in Hscan. discriminate Hscan. }
  rewrite (execute_table args w p t H0 Hs) in H.
  assert (Hframe :
    ((w_forks w' = w_forks w ∧ w_stdin w' = w_stdin w)
     ∨ (w_forks w' = S (w_forks w)
        ∧ ∃ pid reports input,
            sys_fork w = InParent pid reports input
            ∧ child_ends reports
            ∧ w_stdin w' = input))
    ∧ (t ∈ builtin_str →
       w_forks w' = w_forks w ∧ w_stdin w' = w_stdin w)).
  { repeat case_decide.
    - apply cd_frame in H as [? ?]. auto.
    - apply help_frame in H as [? ?]. auto.
    - injection H as _ <-. auto.
    - injection H as _ <-. auto.
    - apply launch_frame in H. split; [exact H|].
      intros Hin. apply builtin_str_elem in Hin.
      destruct Hin as [?|[?|[?|?]]]; contradiction. }
  destruct Hframe as (Hframe & Hbuiltin).
  split; [exact Hframe|]. split.
  - intros Hnull. rewrite H0 in Hnull. discriminate Hnull.
  - intros p' t' Hp' Hs' Ht'.
    rewrite H0 in Hp'. injection Hp' as <-.
    rewrite Hs in Hs'. injection Hs' as <-. auto.
Qed.

(** X12.  [help] does not read its arguments: it writes its three lines,
    then one line for each name of the table of built-ins, in the order of
    the table, then its last line, all to the standard output, and
    returns 1. *)
Theorem help_lists_the_table args w :
  qwertysh_help args w
  = Ret (Value 1)
        (World (w_stdin w)
           (w_stdout w
              ++ [msg "Corey Kennedy's qwertysh";
                  msg "Type program names and arguments, and hit enter.";
                  msg "The following are built in:"]
              ++ ((λ name, str "  " ++ name ++ [LF]) <$> builtin_str)
              ++ [msg "Use the man command for information on other programs."])
           (w_stderr w) (w_cwd w) (w_errno w) (w_forks w)).
Proof.
  unfold qwertysh_help, bind, printf, ret. simpl.
  rewrite <- !app_assoc. reflexivity.
Qed.

(** ** The turns of the Main Loop *)

Lemma capacity_fits n : Z.of_nat n < INT_MAX - 1023 → capacity n <= INT_MAX.
Proof.
  intros H. unfold capacity, qwertysh_RL_BUFSIZE, INT_MAX in *.
  clear heap_ok strerror sys_chdir sys_fork sys_execvp.
  Z.div_mod_to_equations. lia.
Qed.

Lemma delimiters_hold_no_null text :
  Forall (λ c, c ∈ qwertysh_TOK_DELIM) text → Forall (λ c, c ≠ NUL) text.
Proof.
  intros H. eapply Forall_impl; [exact H|].
  intros c Hc ->. exact (delimiters_are_not_null Hc).
Qed.

(** X13.  A turn on a line whose first token is [exit], whatever follows
    it on the line, ends the loop: one prompt was written, the line was
    taken off the input and what comes after it is left unread. *)
Theorem loop_ends_on_exit text rest fuel w :
  (∀ n, heap_ok n = true) →
  w_stdin w = text ++ rest →
  LF ∉ text →
  Forall (λ c, c ≠ NUL) text →
  head rest = None ∨ head rest = Some LF →
  Z.of_nat (length text) < INT_MAX - 1023 →
  head (tokens_of qwertysh_TOK_DELIM text) = Some (str "exit") →
  qwertysh_loop (S fuel) w = Ret tt (with_stdin (prompted w) (tail rest)).
Proof.
  intros Hheap Hin Hlf Hnn Hrest Hlen Hexit.
  destruct (turn_stops_only_on_exit text rest w Hheap Hin Hlf Hnn Hrest
              (capacity_fits _ Hlen)) as [Hstop _].
  { rewrite Hexit. discriminate. }
  rewrite qwertysh_loop_turn, (Hstop Hexit). reflexivity.
Qed.

(** X14.  A turn on a blank line, made of delimiters or empty, does
    nothing but write the prompt and take the line off the input: the loop
    goes on with the next line. *)
Theorem loop_skips_blank_line text rest fuel w :
  (∀ n, heap_ok n = true) →
  w_stdin w = text ++ rest →
  LF ∉ text →
  Forall (λ c, c ∈ qwertysh_TOK_DELIM) text →
  head rest = None ∨ head rest = Some LF →
  Z.of_nat (length text) < INT_MAX - 1023 →
  qwertysh_loop (S fuel) w
  = qwertysh_loop fuel (with_stdin (prompted w) (tail rest)).
Proof.
  intros Hheap Hin Hlf Hdelims Hrest Hlen.
  destruct (loop_body_runs text rest w Hheap Hin Hlf
              (delimiters_hold_no_null _ Hdelims) Hrest (capacity_fits _ Hlen))
    as (ps & line & Hrun & Hall).
  rewrite (tokens_of_delimiters _ _ Hdelims) in Hall.
  apply Forall2_nil_inv_r in Hall. subst ps.
  rewrite execute_empty in Hrun by reflexivity.
  rewrite qwertysh_loop_turn, Hrun. reflexivity.
Qed.

(** A turn on a line whose first token is no built-in: the Launcher runs
    on the tokens of the line. *)
Lemma turn_on_program text rest w t ts :
  (∀ n, heap_ok n = true) →
  w_stdin w = text ++ rest →
  LF ∉ text →
  Forall (λ c, c ≠ NUL) text →
  head rest = None ∨ head rest = Some LF →
  capacity (length text) <= INT_MAX →
  tokens_of qwertysh_TOK_DELIM text = t :: ts →
  t ∉ builtin_str →
  ∃ args,
    loop_body w = qwertysh_launch args (with_stdin (prompted w) (tail rest))
    ∧ token_list args = Some (t :: ts).
Proof.
  intros Hheap Hin Hlf Hnn Hrest Hcap Hts Hout.
  destruct (loop_body_runs text rest w Hheap Hin Hlf Hnn Hrest Hcap)
    as (ps & line & Hrun & Hall).
  rewrite Hts in Hall.
  eexists. split.
  - rewrite Hrun.
    destruct ps as [|p ps]; [inversion Hall|].
    assert (Hp : string_at line p = Some t) by (inversion Hall; assumption).
    match goal with |- qwertysh_execute ?a ?w1 = _ =>
      rewrite (execute_table a w1 p t eq_refl Hp) end.
    repeat case_decide; subst; try reflexivity;
      destruct Hout; unfold builtin_str;
      rewrite !elem_of_cons; auto.
  - unfold token_list. simpl. apply read_tokens_filled. exact Hall.
Qed.

(** X15.  The command line reaches the program as it was typed: in the
    child created for a line whose first token is no built-in, the turn
    ends in the program named by the first token, run with the tokens of
    the line as its arguments; when the program cannot be run the child
    reports it and exits with the failure status. *)
Theorem turn_runs_the_program text rest w t ts :
  (∀ n, heap_ok n = true) →
  w_stdin w = text ++ rest →
  LF ∉ text →
  Forall (λ c, c ≠ NUL) text →
  head rest = None ∨ head rest = Some LF →
  Z.of_nat (length text) < INT_MAX - 1023 →
  tokens_of qwertysh_TOK_DELIM text = t :: ts →
  t ∉ builtin_str →
  sys_fork (with_stdin (prompted w) (tail rest)) = InChild →
  loop_body w
  = match sys_execvp (with_stdin (prompted w) (tail rest)) t (t :: ts) with
    | None => Replaced (with_stdin (prompted w) (tail rest))
    | Some e =>
        Exited EXIT_FAILURE
          (World (tail rest) (w_stdout w ++ [str "QWERTYSH> "])
                 (w_stderr w ++ [str "qwertysh: " ++ strerror e ++ [LF]])
                 (w_cwd w) e (w_forks w))
    end.
Proof.
  intros Hheap Hin Hlf Hnn Hrest Hlen Hts Hout Hfork.
  destruct (turn_on_program text rest w t ts Hheap Hin Hlf Hnn Hrest
              (capacity_fits _ Hlen) Hts Hout) as (args & -> & Htokens).
  unfold qwertysh_launch, bind at 1, fork. rewrite Hfork. simpl.
  unfold bind at 1. rewrite (execvp_runs args _ t ts Htokens).
  destruct (sys_execvp _ t (t :: ts)); reflexivity.
Qed.

Lemma launch_settled args w :
  launch_settles (sys_fork w) →
  ∃ w', qwertysh_launch args w = Ret (Value 1) w'
        ∧ w_stdin w' = match sys_fork w with
                       | InParent _ _ input => input
                       | _ => w_stdin w
                       end
        ∧ w_stdout w' = w_stdout w.
Proof.
  unfold launch_settles, qwertysh_launch, bind, fork.
  destruct (sys_fork w) as [e| |pid reports input]; simpl.
  - intros _. eexists. repeat split.
  - intros [].
  - intros Hends.
    match goal with |- context [wait_loop reports input ?w1] =>
      destruct (wait_loop_ends reports input w1 Hends) as [status ->] end.
    eexists. repeat split.
Qed.

(** X16.  After a program the interpreter prompts again: when no child
    could be created, and when the child created for a line whose first
    token is no built-in has ended, the loop goes on, whatever became of
    the program.  One prompt was written; the next turn reads the next
    line of the input when no child was created, and otherwise what the
    child, which shares the input, left of it. *)
Theorem loop_goes_on_after_a_program text rest fuel w t ts :
  (∀ n, heap_ok n = true) →
  w_stdin w = text ++ rest →
  LF ∉ text →
  Forall (λ c, c ≠ NUL) text →
  head rest = None ∨ head rest = Some LF →
  Z.of_nat (length text) < INT_MAX - 1023 →
  tokens_of qwertysh_TOK_DELIM text = t :: ts →
  t ∉ builtin_str →
  launch_settles (sys_fork (with_stdin (prompted w) (tail rest))) →
  ∃ w',
    qwertysh_loop (S fuel) w = qwertysh_loop fuel w'
    ∧ w_stdin w' = match sys_fork (with_stdin (prompted w) (tail rest)) with
                   | InParent _ _ input => input
                   | _ => tail rest
                   end
    ∧ w_stdout w' = w_stdout w ++ [str "QWERTYSH> "].
Proof.
  intros Hheap Hin Hlf Hnn Hrest Hlen Hts Hout Hsettles.
  destruct (turn_on_program text rest w t ts Hheap Hin Hlf Hnn Hrest
              (capacity_fits _ Hlen) Hts Hout) as (args & Hrun & _).
  destruct (launch_settled args _ Hsettles) as (w' & Hlaunch & Hi & Ho).
  exists w'. rewrite qwertysh_loop_turn, Hrun, Hlaunch.
  split; [reflexivity|]. split; assumption.
Qed.

(** X17.  The interpreter clears the screen before the first prompt, and
    its exit status is the success status whenever the loop ends: on an
    input whose first line is [exit] it writes the clear-screen sequence
    and one prompt, and returns 0. *)
Theorem main_returns_success text rest fuel w :
  (∀ n, heap_ok n = true) →
  w_stdin w = text ++ rest →
  LF ∉ text →
  Forall (λ c, c ≠ NUL) text →
  head rest = None ∨ head rest = Some LF →
  Z.of_nat (length text) < INT_MAX - 1023 →
  head (tokens_of qwertysh_TOK_DELIM text) = Some (str "exit") →
  main (S fuel) w
  = Ret EXIT_SUCCESS (with_stdin (prompted (cleared w)) (tail rest))
  ∧ ∀ n v w', main n w = Ret v w' → v = EXIT_SUCCESS.
Proof.
  intros Hheap Hin Hlf Hnn Hrest Hlen Hexit. split.
  - destruct (turn_stops_only_on_exit text rest (cleared w) Hheap Hin Hlf Hnn
                Hrest (capacity_fits _ Hlen)) as [Hstop _].
    { rewrite Hexit. discriminate. }
    unfold main, bind at 1, printf. fold (cleared w).
    unfold bind at 1. rewrite qwertysh_loop_turn, (Hstop Hexit). reflexivity.
  - intros n v w' H. unfold main in H.
    apply bind_Ret in H as (u1 & w1 & _ & H).
    apply bind_Ret in H as (u2 & w2 & _ & H).
    injection H as <- _. reflexivity.
Qed.

End Shell.

(** * The properties on the sample environments *)

(** C1 on the token list [exit 3]. *)
Lemma execute_dispatches_witness :
  a_tokens (argv_of [str "exit"; str "3"]) !! 0%nat = Some (Some (At 0))
  ∧ string_at (a_line (argv_of [str "exit"; str "3"])) 0 = Some (str "exit")
  ∧ ((∀ i (f : argv → M retval),
        builtin_str !! i = Some (str "exit") →
        builtin_func plain_strerror chdir_refused !! i = Some f →
        (∀ j, (j < i)%nat → builtin_str !! j ≠ Some (str "exit")) →
        qwertysh_execute plain_strerror chdir_refused fork_refused
          execvp_refused (argv_of [str "exit"; str "3"]) (world_reading [])
        = f (argv_of [str "exit"; str "3"]) (world_reading []))
     ∧ (str "exit" ∉ builtin_str →
        qwertysh_execute plain_strerror chdir_refused fork_refused
          execvp_refused (argv_of [str "exit"; str "3"]) (world_reading [])
        = qwertysh_launch plain_strerror fork_refused execvp_refused
            (argv_of [str "exit"; str "3"]) (world_reading []))).
Proof.
  split; [reflexivity|]. split; [reflexivity|].
  apply (execute_dispatches plain_strerror chdir_refused fork_refused
           execvp_refused (argv_of [str "exit"; str "3"]) (world_reading [])
           0%nat (str "exit")); reflexivity.
Defined.

(** The comparison is case-sensitive: [CD] is no built-in and goes to the
    Launcher. *)
Example execute_CD_is_launched :
  qwertysh_execute plain_strerror chdir_refused fork_refused execvp_refused
    (argv_of [str "CD"]) (world_reading [])
  = qwertysh_launch plain_strerror fork_refused execvp_refused
      (argv_of [str "CD"]) (world_reading []).
Proof. reflexivity. Qed.

(** C3 on a child that is stopped, then exits with the failure status. *)
Lemma launch_always_continues_witness :
  launch_settles (fork_then_exit (world_reading []))
  ∧ ∃ w',
      qwertysh_launch plain_strerror fork_then_exit execvp_refused
        (argv_of [str "no-such-program"]) (world_reading [])
      = Ret (Value 1) w'.
Proof.
  assert (H : launch_settles (fork_then_exit (world_reading []))).
  { simpl. unfold child_ends. apply Exists_cons_tl, Exists_cons_hd.
    left. reflexivity. }
  split; [exact H|].
  apply (launch_always_continues plain_strerror fork_then_exit execvp_refused
           (argv_of [str "no-such-program"]) (world_reading []) H).
Defined.

(** C3 when no child can be created. *)
Example launch_fork_fails :
  ∃ w',
    qwertysh_launch plain_strerror fork_refused execvp_refused
      (argv_of [str "ls"]) (world_reading [])
    = Ret (Value 1) w'
    ∧ w_forks w' = 0%nat
    ∧ w_stderr w' = [str "qwertysh: No such file or directory" ++ [LF]].
Proof. eexists. split; [vm_compute; reflexivity|]. split; reflexivity. Qed.

(** C4 on a line of two spaces and a tab. *)
Lemma delimiters_only_is_no_command_witness :
  (∀ n, heap_unlimited n = true)
  ∧ string_at (buffer_of [ascii_of_N 32; ascii_of_N 32; ascii_of_N 9]) 0
    = Some [ascii_of_N 32; ascii_of_N 32; ascii_of_N 9]
  ∧ Forall (λ c, c ∈ qwertysh_TOK_DELIM)
           [ascii_of_N 32; ascii_of_N 32; ascii_of_N 9]
  ∧ ∃ args,
      qwertysh_split_line heap_unlimited
        (buffer_of [ascii_of_N 32; ascii_of_N 32; ascii_of_N 9])
        (world_reading [])
      = Ret args (world_reading [])
      ∧ a_tokens args !! 0%nat = Some (Some NULL)
      ∧ token_list args = Some []
      ∧ qwertysh_execute plain_strerror chdir_refused fork_refused
          execvp_refused args (world_reading [])
        = Ret (Value 1) (world_reading []).
Proof.
  assert (H1 : ∀ n, heap_unlimited n = true) by reflexivity.
  assert (H2 : string_at (buffer_of [ascii_of_N 32; ascii_of_N 32; ascii_of_N 9]) 0
               = Some [ascii_of_N 32; ascii_of_N 32; ascii_of_N 9])
    by reflexivity.
  assert (H3 : Forall (λ c, c ∈ qwertysh_TOK_DELIM)
                 [ascii_of_N 32; ascii_of_N 32; ascii_of_N 9]).
  { repeat constructor. }
  split; [exact H1|]. split; [exact H2|]. split; [exact H3|].
  apply (delimiters_only_is_no_command heap_unlimited plain_strerror
           chdir_refused fork_refused execvp_refused _ _ (world_reading [])
           H1 H2 H3).
Defined.

(** C5 on the buffer that the Line Reader returns for the line. *)
Lemma split_line_echo_hello_world_witness :
  (∀ n, heap_unlimited n = true)
  ∧ string_at (buffer_of (str "echo  hello   world")) 0
    = Some (str "echo  hello   world")
  ∧ ∃ args,
      qwertysh_split_line heap_unlimited
        (buffer_of (str "echo  hello   world")) (world_reading [])
      = Ret args (world_reading [])
      ∧ token_list args = Some [str "echo"; str "hello"; str "world"]
      ∧ a_tokens args !! 3%nat = Some (Some NULL).
Proof.
  assert (H1 : ∀ n, heap_unlimited n = true) by reflexivity.
  assert (H2 : string_at (buffer_of (str "echo  hello   world")) 0
               = Some (str "echo  hello   world")) by reflexivity.
  split; [exact H1|]. split; [exact H2|].
  apply (split_line_echo_hello_world heap_unlimited _ (world_reading [])
           H1 H2).
Defined.

(** The same by running the Line Reader and the Tokenizer on the input. *)
Example read_and_split_echo_hello_world :
  match (let* line := qwertysh_read_line heap_unlimited in
         qwertysh_split_line heap_unlimited line)
          (world_reading (str "echo  hello   world" ++ [LF])) with
  | Ret args _ => token_list args
  | _ => None
  end = Some [str "echo"; str "hello"; str "world"].
Proof. vm_compute. reflexivity. Qed.

(** C6 on [cd /nonexistent-path], the change of directory being refused,
    after the prompt of the turn. *)
Lemma cd_failure_keeps_directory_witness :
  cd_fails chdir_refused (argv_of [str "cd"; str "/nonexistent-path"])
    (prompted (world_reading []))
  ∧ ∃ w',
      qwertysh_cd plain_strerror chdir_refused
        (argv_of [str "cd"; str "/nonexistent-path"]) (prompted (world_reading []))
      = Ret (Value 1) w'
      ∧ w_cwd w' = w_cwd (prompted (world_reading []))
      ∧ ((a_tokens (argv_of [str "cd"; str "/nonexistent-path"]) !! 1%nat
          = Some (Some NULL)
          ∧ w' = World (w_stdin (prompted (world_reading [])))
                   (w_stdout (prompted (world_reading [])))
                   (w_stderr (prompted (world_reading []))
                      ++ [str "qwertysh: expected argument to "
                            ++ [ascii_of_N 34] ++ str "cd"
                            ++ [ascii_of_N 34; LF]])
                   (w_cwd (prompted (world_reading []))) (w_errno (prompted (world_reading [])))
                   (w_forks (prompted (world_reading []))))
         ∨ (∃ p path e,
              a_tokens (argv_of [str "cd"; str "/nonexistent-path"]) !! 1%nat
              = Some (Some (At p))
              ∧ string_at
                  (a_line (argv_of [str "cd"; str "/nonexistent-path"])) p
                = Some path
              ∧ chdir_refused (prompted (world_reading [])) path = inr e
              ∧ w' = World (w_stdin (prompted (world_reading [])))
                       (w_stdout (prompted (world_reading [])))
                       (w_stderr (prompted (world_reading []))
                          ++ [str "qwertysh: " ++ plain_strerror e ++ [LF]])
                       (w_cwd (prompted (world_reading []))) e
                       (w_forks (prompted (world_reading [])))))
      ∧ ∀ fuel w0,
          loop_body heap_unlimited plain_strerror chdir_refused fork_refused
            execvp_refused w0
          = qwertysh_cd plain_strerror chdir_refused
              (argv_of [str "cd"; str "/nonexistent-path"]) (prompted (world_reading [])) →
          qwertysh_loop heap_unlimited plain_strerror chdir_refused
            fork_refused execvp_refused (S fuel) w0
          = qwertysh_loop heap_unlimited plain_strerror chdir_refused
              fork_refused execvp_refused fuel w'.
Proof.
  assert (H : cd_fails chdir_refused
                (argv_of [str "cd"; str "/nonexistent-path"])
                (prompted (world_reading []))).
  { right. exists 3%nat, (str "/nonexistent-path"), 2.
    split; [reflexivity|]. split; reflexivity. }
  split; [exact H|].
  apply (cd_failure_keeps_directory heap_unlimited plain_strerror
           chdir_refused fork_refused execvp_refused _ _ H).
Defined.

(** The turn of the Main Loop on that line ends with that call. *)
Example cd_ends_the_turn :
  loop_body heap_unlimited plain_strerror chdir_refused fork_refused
    execvp_refused (world_reading (str "cd /nonexistent-path"))
  = qwertysh_cd plain_strerror chdir_refused
      (argv_of [str "cd"; str "/nonexistent-path"])
      (prompted (world_reading [])).
Proof. vm_compute. reflexivity. Qed.

(** The two lines of C6 in the Main Loop: each is reported, the directory
    stays and the loop goes on to the line [exit]. *)
Example cd_failures_in_the_loop :
  qwertysh_loop heap_unlimited plain_strerror chdir_refused fork_refused
    execvp_refused 3
    (world_reading (str "cd" ++ [LF] ++ str "cd /nonexistent-path" ++ [LF]
                      ++ str "exit" ++ [LF]))
  = Ret tt
        (World [] [str "QWERTYSH> "; str "QWERTYSH> "; str "QWERTYSH> "]
           [str "qwertysh: expected argument to " ++ [ascii_of_N 34]
              ++ str "cd" ++ [ascii_of_N 34; LF];
            str "qwertysh: No such file or directory" ++ [LF]]
           (str "/") 2 0).
Proof. vm_compute. reflexivity. Qed.

(** C6 on [cd] without argument. *)
Example cd_without_argument :
  qwertysh_cd plain_strerror chdir_refused (argv_of [str "cd"])
    (world_reading [])
  = Ret (Value 1)
        (World [] []
           [str "qwertysh: expected argument to " ++ [ascii_of_N 34]
              ++ str "cd" ++ [ascii_of_N 34; LF]]
           (str "/") 0 0).
Proof. reflexivity. Qed.

(** C7 on a line of 1025 letters that ends the input, the allocator
    granting 2048 bytes and no more. *)
Lemma read_line_at_buffer_boundary_witness :
  (∀ k, 1 <= k <= Z.of_nat (length (replicate 1025 (ascii_of_N 97))) / 1024 + 1 →
        heap_up_to_2048 (1024 * k) = true)
  ∧ w_stdin (world_reading (replicate 1025 (ascii_of_N 97)))
    = replicate 1025 (ascii_of_N 97) ++ []
  ∧ (LF ∉ replicate 1025 (ascii_of_N 97))
  ∧ (head (@nil ascii) = None ∨ head (@nil ascii) = Some LF)
  ∧ Z.of_nat (length (replicate 1025 (ascii_of_N 97))) < INT_MAX - 1023
  ∧ ∃ buffer,
      qwertysh_read_line heap_up_to_2048
        (world_reading (replicate 1025 (ascii_of_N 97)))
      = Ret buffer
            (with_stdin (world_reading (replicate 1025 (ascii_of_N 97)))
                        (tail []))
      ∧ take (length (replicate 1025 (ascii_of_N 97))) buffer
        = Some <$> replicate 1025 (ascii_of_N 97)
      ∧ buffer !! length (replicate 1025 (ascii_of_N 97)) = Some (Some NUL)
      ∧ Z.of_nat (length buffer)
        = 1024 * (Z.of_nat (length (replicate 1025 (ascii_of_N 97))) / 1024
                  + 1)
      ∧ ((length (replicate 1025 (ascii_of_N 97)) < 1024)%nat →
         length buffer = 1024%nat)
      ∧ (length (replicate 1025 (ascii_of_N 97)) = 1024%nat
         ∨ length (replicate 1025 (ascii_of_N 97)) = 1025%nat →
         length buffer = 2048%nat).
Proof.
  assert (H1 : ∀ k,
    1 <= k <= Z.of_nat (length (replicate 1025 (ascii_of_N 97))) / 1024 + 1 →
    heap_up_to_2048 (1024 * k) = true).
  { intros k Hk. rewrite length_replicate in Hk.
    change (Z.of_nat 1025 / 1024 + 1) with 2 in Hk.
    unfold heap_up_to_2048. apply Z.leb_le. lia. }
  assert (H2 : w_stdin (world_reading (replicate 1025 (ascii_of_N 97)))
               = replicate 1025 (ascii_of_N 97) ++ [])
    by (symmetry; apply app_nil_r).
  assert (H3 : LF ∉ replicate 1025 (ascii_of_N 97)).
  { intros H. apply elem_of_replicate in H as [H _]. discriminate H. }
  assert (H4 : head (@nil ascii) = None ∨ head (@nil ascii) = Some LF)
    by (left; reflexivity).
  assert (H5 : Z.of_nat (length (replicate 1025 (ascii_of_N 97)))
               < INT_MAX - 1023)
    by (rewrite length_replicate; reflexivity).
  split; [exact H1|]. split; [exact H2|]. split; [exact H3|].
  split; [exact H4|]. split; [exact H5|].
  apply (read_line_at_buffer_boundary heap_up_to_2048 _ _ _ H1 H2 H3 H4 H5).
Defined.

(** C8 on an input that is empty from the start. *)
Lemma eof_reads_empty_line_and_loop_goes_on_witness :
  (∀ n, heap_unlimited n = true)
  ∧ w_stdin (world_reading []) = []
  ∧ ∃ buffer args,
      qwertysh_read_line heap_unlimited (world_reading [])
      = Ret buffer (world_reading [])
      ∧ string_at buffer 0 = Some []
      ∧ qwertysh_split_line heap_unlimited buffer (world_reading [])
        = Ret args (world_reading [])
      ∧ token_list args = Some []
      ∧ qwertysh_execute plain_strerror chdir_refused fork_refused
          execvp_refused args (world_reading [])
        = Ret (Value 1) (world_reading [])
      ∧ loop_body heap_unlimited plain_strerror chdir_refused fork_refused
          execvp_refused (world_reading [])
        = Ret (Value 1) (prompted (world_reading []))
      ∧ (∀ fuel,
           qwertysh_loop heap_unlimited plain_strerror chdir_refused
             fork_refused execvp_refused (S fuel) (world_reading [])
           = qwertysh_loop heap_unlimited plain_strerror chdir_refused
               fork_refused execvp_refused fuel
               (prompted (world_reading [])))
      ∧ (∀ fuel,
           qwertysh_loop heap_unlimited plain_strerror chdir_refused
             fork_refused execvp_refused fuel (world_reading [])
           = Unfinished
               (World []
                  (w_stdout (world_reading [])
                     ++ replicate fuel (str "QWERTYSH> "))
                  (w_stderr (world_reading [])) (w_cwd (world_reading []))
                  (w_errno (world_reading [])) (w_forks (world_reading []))))
      ∧ ∀ fuel u w',
          qwertysh_loop heap_unlimited plain_strerror chdir_refused
            fork_refused execvp_refused fuel (world_reading [])
          ≠ Ret u w'.
Proof.
  assert (H1 : ∀ n, heap_unlimited n = true) by reflexivity.
  split; [exact H1|]. split; [reflexivity|].
  apply (eof_reads_empty_line_and_loop_goes_on heap_unlimited plain_strerror
           chdir_refused fork_refused execvp_refused (world_reading [])
           H1 eq_refl).
Defined.

(** C8 as the claim words it fails: at the end of the input the Main Loop
    never returns. *)
Lemma eof_does_not_end_the_loop :
  ¬ ∃ fuel w',
      qwertysh_loop heap_unlimited plain_strerror chdir_refused fork_refused
        execvp_refused fuel (world_reading [])
      = Ret tt w'.
Proof.
  intros (fuel & w' & H).
  destruct (loop_at_eof heap_unlimited plain_strerror chdir_refused
              fork_refused execvp_refused fuel (world_reading []))
    as (w'' & Hrun & _); [reflexivity|reflexivity|].
  rewrite Hrun in H. discriminate H.
Qed.

(** C10 on the line [ls -l /tmp]. *)
Lemma split_line_tokens_wellformed_witness :
  (∀ n, heap_unlimited n = true)
  ∧ string_at (buffer_of (str "ls -l /tmp")) 0 = Some (str "ls -l /tmp")
  ∧ Z.of_nat (length (str "ls -l /tmp")) + 64 <= INT_MAX
  ∧ ∃ args ts,
      qwertysh_split_line heap_unlimited (buffer_of (str "ls -l /tmp"))
        (world_reading [])
      = Ret args (world_reading [])
      ∧ token_list args = Some ts
      ∧ a_tokens args !! length ts = Some (Some NULL)
      ∧ Forall (λ t, t ≠ [] ∧ Forall (λ c, c ∉ qwertysh_TOK_DELIM) t) ts.
Proof.
  assert (H1 : ∀ n, heap_unlimited n = true) by reflexivity.
  assert (H2 : string_at (buffer_of (str "ls -l /tmp")) 0
               = Some (str "ls -l /tmp")) by reflexivity.
  assert (H3 : Z.of_nat (length (str "ls -l /tmp")) + 64 <= INT_MAX)
    by (intros H; discriminate H).
  split; [exact H1|]. split; [exact H2|]. split; [exact H3|].
  apply (split_line_tokens_wellformed heap_unlimited _ _ (world_reading [])
           H1 H2 H3).
Defined.

(** ** The line [cls] *)

(** C2, on the line [cls].  The turn of the loop returns no value: the test
    of the loop reads a value that does not exist, and what the loop does
    then is undefined; it is not bound to go on. *)
Theorem cls_line_leaves_loop_test_undefined :
  loop_body heap_unlimited plain_strerror chdir_refused fork_refused
    execvp_refused (world_reading (str "cls" ++ [LF]))
  = Ret NoValue
        (World [] [str "QWERTYSH> "; ESC :: str "[2J"] [] (str "/") 0 0)
  ∧ ∀ fuel,
      qwertysh_loop heap_unlimited plain_strerror chdir_refused fork_refused
        execvp_refused (S fuel) (world_reading (str "cls" ++ [LF]))
      = Undefined.
Proof.
  assert (Hbody :
    loop_body heap_unlimited plain_strerror chdir_refused fork_refused
      execvp_refused (world_reading (str "cls" ++ [LF]))
    = Ret NoValue
          (World [] [str "QWERTYSH> "; ESC :: str "[2J"] [] (str "/") 0 0))
    by (vm_compute; reflexivity).
  split; [exact Hbody|].
  intros fuel. rewrite qwertysh_loop_turn, Hbody. reflexivity.
Qed.

(** C7 on a line of 1025 letters, followed by a line feed and by the next
    line. *)
Example read_line_1025 :
  qwertysh_read_line heap_unlimited
    (world_reading (replicate 1025 (ascii_of_N 97) ++ [LF] ++ str "next"))
  = Ret (filled (replicate 1025 (ascii_of_N 97) ++ [NUL]) 2048)
        (world_reading (str "next")).
Proof. vm_compute. reflexivity. Qed.

(** A line of 1023 letters still fits the first buffer. *)
Example read_line_1023 :
  qwertysh_read_line heap_unlimited
    (world_reading (replicate 1023 (ascii_of_N 97)))
  = Ret (filled (replicate 1023 (ascii_of_N 97) ++ [NUL]) 1024)
        (world_reading []).
Proof. vm_compute. reflexivity. Qed.

(** On [exit], with or without arguments, the loop ends and no further
    prompt is written; the lines that follow are not read. *)
Example exit_ends_the_loop :
  qwertysh_loop heap_unlimited plain_strerror chdir_refused fork_refused
    execvp_refused 3 (world_reading (str "exit 3" ++ [LF] ++ str "help"))
  = Ret tt (World (str "help") [str "QWERTYSH> "] [] (str "/") 0 0).
Proof. vm_compute. reflexivity. Qed.

(** * The further properties on the sample environments *)

(** A fact that a decision procedure settles by computing. *)
Ltac by_decide := refine (bool_decide_unpack _ _); vm_compute; exact I.

(** X1 on the line [ls -l], followed by another line. *)
Lemma read_line_returns_the_line_witness :
  (∀ n, heap_unlimited n = true)
  ∧ (w_stdin (world_reading (str "ls -l" ++ LF :: str "exit")) = str "ls -l" ++ LF :: str "exit")
  ∧ (LF ∉ str "ls -l")
  ∧ (Forall (λ c, c ≠ NUL) (str "ls -l"))
  ∧ (head (LF :: str "exit") = None ∨ head (LF :: str "exit") = Some LF)
  ∧ (Z.of_nat (length (str "ls -l")) < INT_MAX - 1023)
  ∧ ∃ buffer,
      qwertysh_read_line heap_unlimited (world_reading (str "ls -l" ++ LF :: str "exit"))
      = Ret buffer (with_stdin (world_reading (str "ls -l" ++ LF :: str "exit")) (tail (LF :: str "exit")))
      ∧ string_at buffer 0 = Some (str "ls -l")
      ∧ Z.of_nat (length buffer)
        = 1024 * (Z.of_nat (length (str "ls -l")) / 1024 + 1).
Proof.
  assert (H1 : ∀ n, heap_unlimited n = true)
    by (reflexivity).
  assert (H2 : w_stdin (world_reading (str "ls -l" ++ LF :: str "exit")) = str "ls -l" ++ LF :: str "exit")
    by (reflexivity).
  assert (H3 : LF ∉ str "ls -l")
    by (by_decide).
  assert (H4 : Forall (λ c, c ≠ NUL) (str "ls -l"))
    by (by_decide).
  assert (H5 : head (LF :: str "exit") = None ∨ head (LF :: str "exit") = Some LF)
    by (right; reflexivity).
  assert (H6 : Z.of_nat (length (str "ls -l")) < INT_MAX - 1023)
    by (reflexivity).
  split; [exact H1|].
  split; [exact H2|].
  split; [exact H3|].
  split; [exact H4|].
  split; [exact H5|].
  split; [exact H6|].
  exact (read_line_returns_the_line heap_unlimited (str "ls -l") (LF :: str "exit")
           (world_reading (str "ls -l" ++ LF :: str "exit")) H1 H2 H3 H4 H5 H6).
Defined.

(** X2 on a line with a null character after [ls]. *)
Lemma read_line_stops_at_null_witness :
  (∀ n, heap_unlimited n = true)
  ∧ (w_stdin (world_reading ((str "ls" ++ NUL :: str " -l") ++ [])) = (str "ls" ++ NUL :: str " -l") ++ [])
  ∧ (LF ∉ str "ls" ++ NUL :: str " -l")
  ∧ (Forall (λ c, c ≠ NUL) (str "ls"))
  ∧ (head (@nil ascii) = None ∨ head (@nil ascii) = Some LF)
  ∧ (Z.of_nat (length (str "ls" ++ NUL :: str " -l")) < INT_MAX - 1023)
  ∧ ∃ buffer,
      qwertysh_read_line heap_unlimited (world_reading ((str "ls" ++ NUL :: str " -l") ++ []))
      = Ret buffer (with_stdin (world_reading ((str "ls" ++ NUL :: str " -l") ++ [])) (tail []))
      ∧ take (length (str "ls" ++ NUL :: str " -l")) buffer
        = Some <$> (str "ls" ++ NUL :: str " -l")
      ∧ string_at buffer 0 = Some (str "ls").
Proof.
  assert (H1 : ∀ n, heap_unlimited n = true)
    by (reflexivity).
  assert (H2 : w_stdin (world_reading ((str "ls" ++ NUL :: str " -l") ++ [])) = (str "ls" ++ NUL :: str " -l") ++ [])
    by (reflexivity).
  assert (H3 : LF ∉ str "ls" ++ NUL :: str " -l")
    by (by_decide).
  assert (H4 : Forall (λ c, c ≠ NUL) (str "ls"))
    by (by_decide).
  assert (H5 : head (@nil ascii) = None ∨ head (@nil ascii) = Some LF)
    by (left; reflexivity).
  assert (H6 : Z.of_nat (length (str "ls" ++ NUL :: str " -l")) < INT_MAX - 1023)
    by (reflexivity).
  split; [exact H1|].
  split; [exact H2|].
  split; [exact H3|].
  split; [exact H4|].
  split; [exact H5|].
  split; [exact H6|].
  exact (read_line_stops_at_null heap_unlimited (str "ls") (str " -l") []
           (world_reading ((str "ls" ++ NUL :: str " -l") ++ [])) H1 H2 H3 H4 H5 H6).
Defined.

(** X3 on a line of more than 1024 letters, the allocator refusing 2048 bytes. *)
Lemma read_line_allocation_failure_is_fatal_witness :
  (heap_below_2048 1024 = false
     ∨ (heap_below_2048 1024 = true ∧ heap_below_2048 2048 = false
        ∧ w_stdin (world_reading (replicate 1024 (ascii_of_N 97) ++ str "b")) = replicate 1024 (ascii_of_N 97) ++ str "b"
        ∧ length (replicate 1024 (ascii_of_N 97)) = 1024%nat
        ∧ LF ∉ replicate 1024 (ascii_of_N 97)))
  ∧ ∃ w',
      qwertysh_read_line heap_below_2048 (world_reading (replicate 1024 (ascii_of_N 97) ++ str "b"))
      = Exited EXIT_FAILURE w'
      ∧ w_stderr w' = w_stderr (world_reading (replicate 1024 (ascii_of_N 97) ++ str "b")) ++ [msg "qwertysh: allocation error"]
      ∧ w_stdout w' = w_stdout (world_reading (replicate 1024 (ascii_of_N 97) ++ str "b"))
      ∧ w_cwd w' = w_cwd (world_reading (replicate 1024 (ascii_of_N 97) ++ str "b")).
Proof.
  assert (H1 : heap_below_2048 1024 = false
     ∨ (heap_below_2048 1024 = true ∧ heap_below_2048 2048 = false
        ∧ w_stdin (world_reading (replicate 1024 (ascii_of_N 97) ++ str "b")) = replicate 1024 (ascii_of_N 97) ++ str "b"
        ∧ length (replicate 1024 (ascii_of_N 97)) = 1024%nat
        ∧ LF ∉ replicate 1024 (ascii_of_N 97)))
    by (right; split; [reflexivity|]; split; [reflexivity|];
        split; [reflexivity|]; split; [apply length_replicate|];
        intros H; apply elem_of_replicate in H as [H _]; discriminate H).
  split; [exact H1|].
  exact (read_line_allocation_failure_is_fatal heap_below_2048 (replicate 1024 (ascii_of_N 97))
           (str "b") (world_reading (replicate 1024 (ascii_of_N 97) ++ str "b")) H1).
Defined.

(** X4 on the line [ls -l /tmp]. *)
Lemma split_line_computes_the_tokens_witness :
  (∀ n, heap_unlimited n = true)
  ∧ (string_at (buffer_of (str "ls -l /tmp")) 0 = Some (str "ls -l /tmp"))
  ∧ (Z.of_nat (length (str "ls -l /tmp")) + 64 <= INT_MAX)
  ∧ ∃ args,
      qwertysh_split_line heap_unlimited (buffer_of (str "ls -l /tmp")) (world_reading [])
      = Ret args (world_reading [])
      ∧ token_list args = Some (tokens_of qwertysh_TOK_DELIM (str "ls -l /tmp"))
      ∧ a_tokens args !! length (tokens_of qwertysh_TOK_DELIM (str "ls -l /tmp"))
        = Some (Some NULL)
      ∧ Z.of_nat (length (a_tokens args))
        = 64 * (Z.of_nat (length (tokens_of qwertysh_TOK_DELIM (str "ls -l /tmp")))
                  / 64 + 1).
Proof.
  assert (H1 : ∀ n, heap_unlimited n = true)
    by (reflexivity).
  assert (H2 : string_at (buffer_of (str "ls -l /tmp")) 0 = Some (str "ls -l /tmp"))
    by (reflexivity).
  assert (H3 : Z.of_nat (length (str "ls -l /tmp")) + 64 <= INT_MAX)
    by (intros H; discriminate H).
  split; [exact H1|].
  split; [exact H2|].
  split; [exact H3|].
  exact (split_line_computes_the_tokens heap_unlimited (buffer_of (str "ls -l /tmp"))
           (str "ls -l /tmp") (world_reading []) H1 H2 H3).
Defined.

(** X5 on two tokens written after two spaces and two spaces apart. *)
Lemma split_line_of_spaced_tokens_witness :
  (∀ n, heap_unlimited n = true)
  ∧ (string_at (buffer_of (str "  " ++ spaced [(str "echo", str "  "); (str "hello", @nil ascii)])) 0
     = Some (str "  " ++ spaced [(str "echo", str "  "); (str "hello", @nil ascii)]))
  ∧ (Forall (λ c, c ∈ qwertysh_TOK_DELIM) (str "  "))
  ∧ (well_spaced qwertysh_TOK_DELIM [(str "echo", str "  "); (str "hello", @nil ascii)])
  ∧ (Z.of_nat (length (str "  " ++ spaced [(str "echo", str "  "); (str "hello", @nil ascii)])) + 64 <= INT_MAX)
  ∧ ∃ args,
      qwertysh_split_line heap_unlimited
        (buffer_of (str "  " ++ spaced [(str "echo", str "  "); (str "hello", @nil ascii)])) (world_reading [])
      = Ret args (world_reading [])
      ∧ token_list args = Some ([(str "echo", str "  "); (str "hello", @nil ascii)]).*1.
Proof.
  assert (H1 : ∀ n, heap_unlimited n = true)
    by (reflexivity).
  assert (H2 : string_at (buffer_of (str "  " ++ spaced [(str "echo", str "  "); (str "hello", @nil ascii)])) 0
     = Some (str "  " ++ spaced [(str "echo", str "  "); (str "hello", @nil ascii)]))
    by (reflexivity).
  assert (H3 : Forall (λ c, c ∈ qwertysh_TOK_DELIM) (str "  "))
    by (by_decide).
  assert (H4 : well_spaced qwertysh_TOK_DELIM [(str "echo", str "  "); (str "hello", @nil ascii)])
    by (simpl; repeat split; try discriminate; try by_decide).
  assert (H5 : Z.of_nat (length (str "  " ++ spaced [(str "echo", str "  "); (str "hello", @nil ascii)])) + 64 <= INT_MAX)
    by (intros H; discriminate H).
  split; [exact H1|].
  split; [exact H2|].
  split; [exact H3|].
  split; [exact H4|].
  split; [exact H5|].
  exact (split_line_of_spaced_tokens heap_unlimited
           (buffer_of (str "  " ++ spaced [(str "echo", str "  "); (str "hello", @nil ascii)]))
           (str "  ") [(str "echo", str "  "); (str "hello", @nil ascii)] (world_reading []) H1 H2 H3 H4 H5).
Defined.

(** X6 on the line [ls -l /tmp]. *)
Lemma split_line_writes_only_terminators_witness :
  (∀ n, heap_unlimited n = true)
  ∧ (string_at (buffer_of (str "ls -l /tmp")) 0 = Some (str "ls -l /tmp"))
  ∧ (Z.of_nat (length (str "ls -l /tmp")) + 64 <= INT_MAX)
  ∧ ∃ args,
      qwertysh_split_line heap_unlimited (buffer_of (str "ls -l /tmp")) (world_reading [])
      = Ret args (world_reading [])
      ∧ length (a_line args) = length (buffer_of (str "ls -l /tmp"))
      ∧ ∀ i, a_line args !! i = buffer_of (str "ls -l /tmp") !! i
             ∨ (a_line args !! i = Some (Some NUL)
                ∧ ∃ c, buffer_of (str "ls -l /tmp") !! i = Some (Some c)
                       ∧ c ∈ qwertysh_TOK_DELIM).
Proof.
  assert (H1 : ∀ n, heap_unlimited n = true)
    by (reflexivity).
  assert (H2 : string_at (buffer_of (str "ls -l /tmp")) 0 = Some (str "ls -l /tmp"))
    by (reflexivity).
  assert (H3 : Z.of_nat (length (str "ls -l /tmp")) + 64 <= INT_MAX)
    by (intros H; discriminate H).
  split; [exact H1|].
  split; [exact H2|].
  split; [exact H3|].
  exact (split_line_writes_only_terminators heap_unlimited (buffer_of (str "ls -l /tmp"))
           (str "ls -l /tmp") (world_reading []) H1 H2 H3).
Defined.

(** X7 on the line [ls -l /tmp]. *)
Lemma split_line_twice_finds_first_token_witness :
  (∀ n, heap_unlimited n = true)
  ∧ (string_at (buffer_of (str "ls -l /tmp")) 0 = Some (str "ls -l /tmp"))
  ∧ (Z.of_nat (length (str "ls -l /tmp")) + 64 <= INT_MAX)
  ∧ ∃ args ts again,
      qwertysh_split_line heap_unlimited (buffer_of (str "ls -l /tmp")) (world_reading [])
      = Ret args (world_reading [])
      ∧ token_list args = Some ts
      ∧ qwertysh_split_line heap_unlimited (a_line args) (world_reading [])
        = Ret again (world_reading [])
      ∧ token_list again = Some (take 1 ts).
Proof.
  assert (H1 : ∀ n, heap_unlimited n = true)
    by (reflexivity).
  assert (H2 : string_at (buffer_of (str "ls -l /tmp")) 0 = Some (str "ls -l /tmp"))
    by (reflexivity).
  assert (H3 : Z.of_nat (length (str "ls -l /tmp")) + 64 <= INT_MAX)
    by (intros H; discriminate H).
  split; [exact H1|].
  split; [exact H2|].
  split; [exact H3|].
  exact (split_line_twice_finds_first_token heap_unlimited (buffer_of (str "ls -l /tmp"))
           (str "ls -l /tmp") (world_reading []) H1 H2 H3).
Defined.

(** X8 on [cd /tmp ignored], the change of directory being accepted. *)
Lemma cd_changes_directory_witness :
  (a_tokens (argv_of [str "cd"; str "/tmp"; str "ignored"]) !! 1%nat = Some (Some (At 3)))
  ∧ (string_at (a_line (argv_of [str "cd"; str "/tmp"; str "ignored"])) 3 = Some (str "/tmp"))
  ∧ (chdir_accepted (world_reading []) (str "/tmp") = inl (str "/tmp"))
  ∧ qwertysh_cd plain_strerror chdir_accepted (argv_of [str "cd"; str "/tmp"; str "ignored"]) (world_reading [])
    = Ret (Value 1)
          (World (w_stdin (world_reading [])) (w_stdout (world_reading []))
                 (w_stderr (world_reading [])) (str "/tmp")
                 (w_errno (world_reading [])) (w_forks (world_reading []))).
Proof.
  assert (H1 : a_tokens (argv_of [str "cd"; str "/tmp"; str "ignored"]) !! 1%nat = Some (Some (At 3)))
    by (reflexivity).
  assert (H2 : string_at (a_line (argv_of [str "cd"; str "/tmp"; str "ignored"])) 3 = Some (str "/tmp"))
    by (reflexivity).
  assert (H3 : chdir_accepted (world_reading []) (str "/tmp") = inl (str "/tmp"))
    by (reflexivity).
  split; [exact H1|].
  split; [exact H2|].
  split; [exact H3|].
  exact (cd_changes_directory plain_strerror chdir_accepted (argv_of [str "cd"; str "/tmp"; str "ignored"])
           (world_reading []) 3%nat (str "/tmp") (str "/tmp") H1 H2 H3).
Defined.

(** X9 on [ls -l], the program being refused. *)
Lemma launch_in_child_witness :
  (fork_in_child (world_reading []) = InChild)
  ∧ (token_list (argv_of [str "ls"; str "-l"]) = Some [str "ls"; str "-l"])
  ∧ qwertysh_launch plain_strerror fork_in_child execvp_refused (argv_of [str "ls"; str "-l"])
      (world_reading [])
    = match execvp_refused (world_reading []) (str "ls") [str "ls"; str "-l"]
      with
      | None => Replaced (world_reading [])
      | Some e =>
          Exited EXIT_FAILURE
            (World (w_stdin (world_reading [])) (w_stdout (world_reading []))
                   (w_stderr (world_reading [])
                      ++ [str "qwertysh: " ++ plain_strerror e ++ [LF]])
                   (w_cwd (world_reading [])) e (w_forks (world_reading [])))
      end.
Proof.
  assert (H1 : fork_in_child (world_reading []) = InChild)
    by (reflexivity).
  assert (H2 : token_list (argv_of [str "ls"; str "-l"]) = Some [str "ls"; str "-l"])
    by (reflexivity).
  split; [exact H1|].
  split; [exact H2|].
  exact (launch_in_child plain_strerror fork_in_child execvp_refused (argv_of [str "ls"; str "-l"])
           (world_reading []) (str "ls") [str "-l"] H1 H2).
Defined.

(** X10 on a child that is stopped, then exits, and leaves the input alone. *)
Lemma launch_in_parent_witness :
  (fork_then_exit (world_reading (str "exit"))
     = InParent 2 [W_STOPCODE 19; W_EXITCODE EXIT_FAILURE] (str "exit"))
  ∧ (child_ends [W_STOPCODE 19; W_EXITCODE EXIT_FAILURE] →
     qwertysh_launch plain_strerror fork_then_exit execvp_refused (argv_of [str "ls"; str "-l"])
       (world_reading (str "exit"))
     = Ret (Value 1)
           (World (str "exit") (w_stdout (world_reading (str "exit")))
                  (w_stderr (world_reading (str "exit"))) (w_cwd (world_reading (str "exit")))
                  (w_errno (world_reading (str "exit")))
                  (S (w_forks (world_reading (str "exit"))))))
    ∧ (¬ child_ends [W_STOPCODE 19; W_EXITCODE EXIT_FAILURE] →
       qwertysh_launch plain_strerror fork_then_exit execvp_refused (argv_of [str "ls"; str "-l"])
         (world_reading (str "exit"))
       = Blocked
           (World (w_stdin (world_reading (str "exit"))) (w_stdout (world_reading (str "exit")))
                  (w_stderr (world_reading (str "exit"))) (w_cwd (world_reading (str "exit")))
                  (w_errno (world_reading (str "exit")))
                  (S (w_forks (world_reading (str "exit")))))).
Proof.
  assert (H1 : fork_then_exit (world_reading (str "exit"))
     = InParent 2 [W_STOPCODE 19; W_EXITCODE EXIT_FAILURE] (str "exit"))
    by (reflexivity).
  split; [exact H1|].
  exact (launch_in_parent plain_strerror fork_then_exit execvp_refused (argv_of [str "ls"; str "-l"])
           (world_reading (str "exit")) 2%positive
           [W_STOPCODE 19; W_EXITCODE EXIT_FAILURE] (str "exit") H1).
Defined.

(** X11 on [ls -l], run in a child that exits and moves the input back. *)
Lemma execute_creates_one_child_at_most_witness :
  (qwertysh_execute plain_strerror chdir_refused fork_then_rewind execvp_refused
       (argv_of [str "ls"; str "-l"]) (world_reading (str "exit"))
     = Ret (Value 1) (World (str "exit" ++ str "exit") [] [] (str "/") 0 1))
  ∧ ((w_forks (World (str "exit" ++ str "exit") [] [] (str "/") 0 1) = w_forks (world_reading (str "exit"))
      ∧ w_stdin (World (str "exit" ++ str "exit") [] [] (str "/") 0 1) = w_stdin (world_reading (str "exit")))
     ∨ (w_forks (World (str "exit" ++ str "exit") [] [] (str "/") 0 1) = S (w_forks (world_reading (str "exit")))
        ∧ ∃ pid reports input,
            fork_then_rewind (world_reading (str "exit")) = InParent pid reports input
            ∧ child_ends reports
            ∧ w_stdin (World (str "exit" ++ str "exit") [] [] (str "/") 0 1) = input))
    ∧ (a_tokens (argv_of [str "ls"; str "-l"]) !! 0%nat = Some (Some NULL) →
       w_forks (World (str "exit" ++ str "exit") [] [] (str "/") 0 1) = w_forks (world_reading (str "exit"))
       ∧ w_stdin (World (str "exit" ++ str "exit") [] [] (str "/") 0 1) = w_stdin (world_reading (str "exit")))
    ∧ (∀ p t, a_tokens (argv_of [str "ls"; str "-l"]) !! 0%nat = Some (Some (At p)) →
              string_at (a_line (argv_of [str "ls"; str "-l"])) p = Some t →
              t ∈ builtin_str →
              w_forks (World (str "exit" ++ str "exit") [] [] (str "/") 0 1) = w_forks (world_reading (str "exit"))
              ∧ w_stdin (World (str "exit" ++ str "exit") [] [] (str "/") 0 1) = w_stdin (world_reading (str "exit"))).
Proof.
  assert (H1 : qwertysh_execute plain_strerror chdir_refused fork_then_rewind execvp_refused
       (argv_of [str "ls"; str "-l"]) (world_reading (str "exit"))
     = Ret (Value 1) (World (str "exit" ++ str "exit") [] [] (str "/") 0 1))
    by (reflexivity).
  split; [exact H1|].
  exact (execute_creates_one_child_at_most plain_strerror chdir_refused fork_then_rewind execvp_refused
           (argv_of [str "ls"; str "-l"]) (world_reading (str "exit"))
           (Value 1) (World (str "exit" ++ str "exit") [] [] (str "/") 0 1) H1).
Defined.

(** X13 on the line [exit 3], followed by another line. *)
Lemma loop_ends_on_exit_witness :
  (∀ n, heap_unlimited n = true)
  ∧ (w_stdin (world_reading (str "exit 3" ++ LF :: str "help")) = str "exit 3" ++ (LF :: str "help"))
  ∧ (LF ∉ str "exit 3")
  ∧ (Forall (λ c, c ≠ NUL) (str "exit 3"))
  ∧ (head (LF :: str "help") = None ∨ head (LF :: str "help") = Some LF)
  ∧ (Z.of_nat (length (str "exit 3")) < INT_MAX - 1023)
  ∧ (head (tokens_of qwertysh_TOK_DELIM (str "exit 3")) = Some (str "exit"))
  ∧ qwertysh_loop heap_unlimited plain_strerror chdir_refused fork_refused execvp_refused 1 (world_reading (str "exit 3" ++ LF :: str "help"))
    = Ret tt (with_stdin (prompted (world_reading (str "exit 3" ++ LF :: str "help"))) (tail (LF :: str "help"))).
Proof.
  assert (H1 : ∀ n, heap_unlimited n = true)
    by (reflexivity).
  assert (H2 : w_stdin (world_reading (str "exit 3" ++ LF :: str "help")) = str "exit 3" ++ (LF :: str "help"))
    by (reflexivity).
  assert (H3 : LF ∉ str "exit 3")
    by (by_decide).
  assert (H4 : Forall (λ c, c ≠ NUL) (str "exit 3"))
    by (by_decide).
  assert (H5 : head (LF :: str "help") = None ∨ head (LF :: str "help") = Some LF)
    by (right; reflexivity).
  assert (H6 : Z.of_nat (length (str "exit 3")) < INT_MAX - 1023)
    by (reflexivity).
  assert (H7 : head (tokens_of qwertysh_TOK_DELIM (str "exit 3")) = Some (str "exit"))
    by (vm_compute; reflexivity).
  split; [exact H1|].
  split; [exact H2|].
  split; [exact H3|].
  split; [exact H4|].
  split; [exact H5|].
  split; [exact H6|].
  split; [exact H7|].
  exact (loop_ends_on_exit heap_unlimited plain_strerror chdir_refused fork_refused execvp_refused
           (str "exit 3") (LF :: str "help") 0%nat (world_reading (str "exit 3" ++ LF :: str "help")) H1 H2 H3 H4 H5 H6 H7).
Defined.

(** X14 on a line of a space and a tab, followed by [exit]. *)
Lemma loop_skips_blank_line_witness :
  (∀ n, heap_unlimited n = true)
  ∧ (w_stdin (world_reading ([ascii_of_N 32; ascii_of_N 9] ++ LF :: str "exit")) = [ascii_of_N 32; ascii_of_N 9] ++ (LF :: str "exit"))
  ∧ (LF ∉ [ascii_of_N 32; ascii_of_N 9])
  ∧ (Forall (λ c, c ∈ qwertysh_TOK_DELIM) [ascii_of_N 32; ascii_of_N 9])
  ∧ (head (LF :: str "exit") = None ∨ head (LF :: str "exit") = Some LF)
  ∧ (Z.of_nat (length [ascii_of_N 32; ascii_of_N 9]) < INT_MAX - 1023)
  ∧ qwertysh_loop heap_unlimited plain_strerror chdir_refused fork_refused execvp_refused 2 (world_reading ([ascii_of_N 32; ascii_of_N 9] ++ LF :: str "exit"))
    = qwertysh_loop heap_unlimited plain_strerror chdir_refused fork_refused execvp_refused 1
        (with_stdin (prompted (world_reading ([ascii_of_N 32; ascii_of_N 9] ++ LF :: str "exit"))) (tail (LF :: str "exit"))).
Proof.
  assert (H1 : ∀ n, heap_unlimited n = true)
    by (reflexivity).
  assert (H2 : w_stdin (world_reading ([ascii_of_N 32; ascii_of_N 9] ++ LF :: str "exit")) = [ascii_of_N 32; ascii_of_N 9] ++ (LF :: str "exit"))
    by (reflexivity).
  assert (H3 : LF ∉ [ascii_of_N 32; ascii_of_N 9])
    by (by_decide).
  assert (H4 : Forall (λ c, c ∈ qwertysh_TOK_DELIM) [ascii_of_N 32; ascii_of_N 9])
    by (by_decide).
  assert (H5 : head (LF :: str "exit") = None ∨ head (LF :: str "exit") = Some LF)
    by (right; reflexivity).
  assert (H6 : Z.of_nat (length [ascii_of_N 32; ascii_of_N 9]) < INT_MAX - 1023)
    by (reflexivity).
  split; [exact H1|].
  split; [exact H2|].
  split; [exact H3|].
  split; [exact H4|].
  split; [exact H5|].
  split; [exact H6|].
  exact (loop_skips_blank_line heap_unlimited plain_strerror chdir_refused fork_refused execvp_refused
           [ascii_of_N 32; ascii_of_N 9] (LF :: str "exit") 1%nat (world_reading ([ascii_of_N 32; ascii_of_N 9] ++ LF :: str "exit")) H1 H2 H3 H4 H5 H6).
Defined.

(** X15 on the line [ls  -l], the program being refused. *)
Lemma turn_runs_the_program_witness :
  (∀ n, heap_unlimited n = true)
  ∧ (w_stdin (world_reading (str "ls  -l" ++ [])) = str "ls  -l" ++ (@nil ascii))
  ∧ (LF ∉ str "ls  -l")
  ∧ (Forall (λ c, c ≠ NUL) (str "ls  -l"))
  ∧ (head (@nil ascii) = None ∨ head (@nil ascii) = Some LF)
  ∧ (Z.of_nat (length (str "ls  -l")) < INT_MAX - 1023)
  ∧ (tokens_of qwertysh_TOK_DELIM (str "ls  -l") = [str "ls"; str "-l"])
  ∧ (str "ls" ∉ builtin_str)
  ∧ (fork_in_child (with_stdin (prompted (world_reading (str "ls  -l" ++ []))) (tail (@nil ascii))) = InChild)
  ∧ loop_body heap_unlimited plain_strerror chdir_refused fork_in_child execvp_refused (world_reading (str "ls  -l" ++ []))
    = match execvp_refused (with_stdin (prompted (world_reading (str "ls  -l" ++ []))) (tail (@nil ascii))) (str "ls") [str "ls"; str "-l"] with
      | None => Replaced (with_stdin (prompted (world_reading (str "ls  -l" ++ []))) (tail (@nil ascii)))
      | Some e =>
          Exited EXIT_FAILURE
            (World (tail (@nil ascii)) (w_stdout (world_reading (str "ls  -l" ++ [])) ++ [str "QWERTYSH> "])
                   (w_stderr (world_reading (str "ls  -l" ++ []))
                      ++ [str "qwertysh: " ++ plain_strerror e ++ [LF]])
                   (w_cwd (world_reading (str "ls  -l" ++ []))) e (w_forks (world_reading (str "ls  -l" ++ []))))
      end.
Proof.
  assert (H1 : ∀ n, heap_unlimited n = true)
    by (reflexivity).
  assert (H2 : w_stdin (world_reading (str "ls  -l" ++ [])) = str "ls  -l" ++ (@nil ascii))
    by (reflexivity).
  assert (H3 : LF ∉ str "ls  -l")
    by (by_decide).
  assert (H4 : Forall (λ c, c ≠ NUL) (str "ls  -l"))
    by (by_decide).
  assert (H5 : head (@nil ascii) = None ∨ head (@nil ascii) = Some LF)
    by (left; reflexivity).
  assert (H6 : Z.of_nat (length (str "ls  -l")) < INT_MAX - 1023)
    by (reflexivity).
  assert (H7 : tokens_of qwertysh_TOK_DELIM (str "ls  -l") = [str "ls"; str "-l"])
    by (vm_compute; reflexivity).
  assert (H8 : str "ls" ∉ builtin_str)
    by (by_decide).
  assert (H9 : fork_in_child (with_stdin (prompted (world_reading (str "ls  -l" ++ []))) (tail (@nil ascii))) = InChild)
    by (reflexivity).
  split; [exact H1|].
  split; [exact H2|].
  split; [exact H3|].
  split; [exact H4|].
  split; [exact H5|].
  split; [exact H6|].
  split; [exact H7|].
  split; [exact H8|].
  split; [exact H9|].
  exact (turn_runs_the_program heap_unlimited plain_strerror chdir_refused fork_in_child execvp_refused
           (str "ls  -l") (@nil ascii) (world_reading (str "ls  -l" ++ [])) (str "ls") [str "-l"] H1 H2 H3 H4 H5 H6 H7 H8 H9).
Defined.

(** X16 on the line [ls -l], run in a child that exits and moves the input back, followed by [exit]. *)
Lemma loop_goes_on_after_a_program_witness :
  (∀ n, heap_unlimited n = true)
  ∧ (w_stdin (world_reading (str "ls -l" ++ LF :: str "exit")) = str "ls -l" ++ (LF :: str "exit"))
  ∧ (LF ∉ str "ls -l")
  ∧ (Forall (λ c, c ≠ NUL) (str "ls -l"))
  ∧ (head (LF :: str "exit") = None ∨ head (LF :: str "exit") = Some LF)
  ∧ (Z.of_nat (length (str "ls -l")) < INT_MAX - 1023)
  ∧ (tokens_of qwertysh_TOK_DELIM (str "ls -l") = [str "ls"; str "-l"])
  ∧ (str "ls" ∉ builtin_str)
  ∧ (launch_settles (fork_then_rewind (with_stdin (prompted (world_reading (str "ls -l" ++ LF :: str "exit"))) (tail (LF :: str "exit")))))
  ∧ ∃ w',
      qwertysh_loop heap_unlimited plain_strerror chdir_refused fork_then_rewind execvp_refused 2 (world_reading (str "ls -l" ++ LF :: str "exit"))
      = qwertysh_loop heap_unlimited plain_strerror chdir_refused fork_then_rewind execvp_refused 1 w'
      ∧ w_stdin w' = match fork_then_rewind (with_stdin (prompted (world_reading (str "ls -l" ++ LF :: str "exit"))) (tail (LF :: str "exit"))) with
                     | InParent _ _ input => input
                     | _ => tail (LF :: str "exit")
                     end
      ∧ w_stdout w' = w_stdout (world_reading (str "ls -l" ++ LF :: str "exit")) ++ [str "QWERTYSH> "].
Proof.
  assert (H1 : ∀ n, heap_unlimited n = true)
    by (reflexivity).
  assert (H2 : w_stdin (world_reading (str "ls -l" ++ LF :: str "exit")) = str "ls -l" ++ (LF :: str "exit"))
    by (reflexivity).
  assert (H3 : LF ∉ str "ls -l")
    by (by_decide).
  assert (H4 : Forall (λ c, c ≠ NUL) (str "ls -l"))
    by (by_decide).
  assert (H5 : head (LF :: str "exit") = None ∨ head (LF :: str "exit") = Some LF)
    by (right; reflexivity).
  assert (H6 : Z.of_nat (length (str "ls -l")) < INT_MAX - 1023)
    by (reflexivity).
  assert (H7 : tokens_of qwertysh_TOK_DELIM (str "ls -l") = [str "ls"; str "-l"])
    by (vm_compute; reflexivity).
  assert (H8 : str "ls" ∉ builtin_str)
    by (by_decide).
  assert (H9 : launch_settles (fork_then_rewind (with_stdin (prompted (world_reading (str "ls -l" ++ LF :: str "exit"))) (tail (LF :: str "exit")))))
    by (apply Exists_cons_hd; left; reflexivity).
  split; [exact H1|].
  split; [exact H2|].
  split; [exact H3|].
  split; [exact H4|].
  split; [exact H5|].
  split; [exact H6|].
  split; [exact H7|].
  split; [exact H8|].
  split; [exact H9|].
  exact (loop_goes_on_after_a_program heap_unlimited plain_strerror chdir_refused fork_then_rewind execvp_refused
           (str "ls -l") (LF :: str "exit") 1%nat (world_reading (str "ls -l" ++ LF :: str "exit")) (str "ls") [str "-l"] H1 H2 H3 H4 H5 H6 H7 H8 H9).
Defined.

(** X17 on an input whose first line is [exit 3]. *)
Lemma main_returns_success_witness :
  (∀ n, heap_unlimited n = true)
  ∧ (w_stdin (world_reading (str "exit 3" ++ LF :: str "help")) = str "exit 3" ++ (LF :: str "help"))
  ∧ (LF ∉ str "exit 3")
  ∧ (Forall (λ c, c ≠ NUL) (str "exit 3"))
  ∧ (head (LF :: str "help") = None ∨ head (LF :: str "help") = Some LF)
  ∧ (Z.of_nat (length (str "exit 3")) < INT_MAX - 1023)
  ∧ (head (tokens_of qwertysh_TOK_DELIM (str "exit 3")) = Some (str "exit"))
  ∧ main heap_unlimited plain_strerror chdir_refused fork_refused execvp_refused 1 (world_reading (str "exit 3" ++ LF :: str "help"))
    = Ret EXIT_SUCCESS (with_stdin (prompted (cleared (world_reading (str "exit 3" ++ LF :: str "help")))) (tail (LF :: str "help")))
    ∧ ∀ n v w',
        main heap_unlimited plain_strerror chdir_refused fork_refused execvp_refused n (world_reading (str "exit 3" ++ LF :: str "help")) = Ret v w' → v = EXIT_SUCCESS.
Proof.
  assert (H1 : ∀ n, heap_unlimited n = true)
    by (reflexivity).
  assert (H2 : w_stdin (world_reading (str "exit 3" ++ LF :: str "help")) = str "exit 3" ++ (LF :: str "help"))
    by (reflexivity).
  assert (H3 : LF ∉ str "exit 3")
    by (by_decide).
  assert (H4 : Forall (λ c, c ≠ NUL) (str "exit 3"))
    by (by_decide).
  assert (H5 : head (LF :: str "help") = None ∨ head (LF :: str "help") = Some LF)
    by (right; reflexivity).
  assert (H6 : Z.of_nat (length (str "exit 3")) < INT_MAX - 1023)
    by (reflexivity).
  assert (H7 : head (tokens_of qwertysh_TOK_DELIM (str "exit 3")) = Some (str "exit"))
    by (vm_compute; reflexivity).
  split; [exact H1|].
  split; [exact H2|].
  split; [exact H3|].
  split; [exact H4|].
  split; [exact H5|].
  split; [exact H6|].
  split; [exact H7|].
  exact (main_returns_success heap_unlimited plain_strerror chdir_refused fork_refused execvp_refused
           (str "exit 3") (LF :: str "help") 0%nat (world_reading (str "exit 3" ++ LF :: str "help")) H1 H2 H3 H4 H5 H6 H7).
Defined.

(** A child that moves the position of the shared input back: the line
    that follows the one of the program is run twice. *)
Example child_may_rewind_the_input :
  qwertysh_loop heap_unlimited plain_strerror chdir_refused fork_then_rewind
    execvp_refused 3 (world_reading (str "ls" ++ [LF] ++ str "cd" ++ [LF]))
  = Unfinished
      (World [] [str "QWERTYSH> "; str "QWERTYSH> "; str "QWERTYSH> "]
         [str "qwertysh: expected argument to " ++ [ascii_of_N 34]
            ++ str "cd" ++ [ascii_of_N 34; LF];
          str "qwertysh: expected argument to " ++ [ascii_of_N 34]
            ++ str "cd" ++ [ascii_of_N 34; LF]]
         (str "/") 0 1).
Proof. vm_compute. reflexivity. Qed.
